(** * anonymous_github: tree synchronizer and content cache

    A shallow embedding of [src/source/GitHubStream.ts] (the class
    [GitHubStream]: [getFileContent], [getFiles], [getTree],
    [getTruncatedTree], [tree2Tree]) and of [src/storage/FileSystem.ts]
    ([exists], [write], [mk], [listFiles], [archive]), followed by the
    properties of the specification that concern them.  The rest of the
    storage backend ([rm], the name decoder of [extractZip]), the class
    [GitHubRepository] ([branches], [readme]) and the queue processor that
    removes a cache are embedded after them, with properties of their own
    at the end.

    Modelling conventions.
    - A JavaScript value is a [jsval]: a number, a string or an object.  An
      object is a finite map from property names to values.  A [Tree] is an
      object; a file entry is the object [{size: n, sha: s}].  The code
      builds a [Tree] by mutating a single object graph that is a tree (every
      [{}] is fresh), so in-place mutation is rendered by functional update
      along the path that was walked.
    - Property reads see own properties only: segment names that collide with
      the members every object inherits ([constructor], [toString], ...) and
      the index and [length] properties of string primitives are outside the
      model.  The properties of the fold that depend on it carry the
      hypothesis that no name is one of them ([own_name], [member_free]).
    - The module is compiled as an ES module, hence in strict mode: assigning
      a property on a primitive raises a [TypeError].
    - [async] functions become functions from a state to an [outcome]; a
      rejected promise is [Throw], recursion that is cut off is [Diverge].
    - Node's [path.join], [path.dirname], [path.basename] and
      [String.prototype.split/replace] are library functions; they are
      modelled after their documented POSIX behaviour.
    - The operations of [fs.promises] are given the paths that [path.join]
      makes: normalized, with a separator at the end when the last argument
      has one. *)

From Stdlib Require Import ZArith NArith Ascii String List Lia.
From stdpp Require Import base option list strings gmap fin_maps pretty.

Set Warnings "-register-all".
Local Open Scope string_scope.
Local Open Scope Z_scope.

(* ================================================================== *)
(** * JavaScript values, errors and results                             *)
(* ================================================================== *)

Module JS.

Inductive jsval :=
  | JNum (n : Z)
  | JStr (s : string)
  | JObj (o : gmap string jsval).

Abbreviation Tree := (gmap string jsval).

(** The thrown values the code can see.  Only errors of the HTTP client
    carry a [status]; file-system errors carry a [code]. *)
Inductive jserror :=
  | JsError (message : string)
  | HttpError (status : Z) (message : string)
  | SystemError (code : string)
  | TypeError (message : string).

Definition error_status (e : jserror) : option Z :=
  match e with
  | HttpError st _ => Some st
  | _ => None
  end.

Definition error_code (e : jserror) : option string :=
  match e with
  | SystemError c => Some c
  | _ => None
  end.

Inductive result (A : Type) :=
  | Ok (a : A)
  | Raise (e : jserror).
Arguments Ok {A} a.
Arguments Raise {A} e.

Definition rbind {A B} (r : result A) (k : A → result B) : result B :=
  match r with
  | Ok a => k a
  | Raise e => Raise e
  end.

(** Truthiness of a value that is not [undefined]. *)
Definition truthy (v : jsval) : bool :=
  match v with
  | JNum n => negb (n =? 0)
  | JStr s => negb (String.eqb s "")
  | JObj _ => true
  end.

(** [current[p]] for a name [p] that [current] inherits no member under
    (see [own_name] and [member_free] below): [None] is [undefined]. *)
Definition js_get (current : jsval) (p : string) : option jsval :=
  match current with
  | JObj o => o !! p
  | _ => None
  end.

(** [current[p] = v] in strict mode, for such a name. *)
Definition js_set (current : jsval) (p : string) (v : jsval) : result jsval :=
  match current with
  | JObj o => Ok (JObj (<[p := v]> o))
  | _ => Raise (TypeError "Cannot create property on primitive")
  end.

(** The names of the members that every object inherits from
    [Object.prototype].  Under such a name a read finds the inherited member
    when the object has no property of its own, and an assignment to
    [__proto__] changes the prototype: [js_get] and [js_set] do not render
    that, so the properties that depend on it are stated for the other
    names. *)
Definition Object_prototype : list string :=
  ["constructor"; "__defineGetter__"; "__defineSetter__"; "hasOwnProperty";
   "__lookupGetter__"; "__lookupSetter__"; "isPrototypeOf";
   "propertyIsEnumerable"; "toString"; "valueOf"; "__proto__";
   "toLocaleString"].

(** The members that numbers and strings inherit besides. *)
Definition Number_prototype : list string :=
  ["toExponential"; "toFixed"; "toPrecision"].

Definition String_prototype : list string :=
  ["length"; "anchor"; "at"; "big"; "blink"; "bold"; "charAt"; "charCodeAt";
   "codePointAt"; "concat"; "endsWith"; "fontcolor"; "fontsize"; "fixed";
   "includes"; "indexOf"; "isWellFormed"; "italics"; "lastIndexOf"; "link";
   "localeCompare"; "match"; "matchAll"; "normalize"; "padEnd"; "padStart";
   "repeat"; "replace"; "replaceAll"; "search"; "slice"; "small"; "split";
   "strike"; "sub"; "substr"; "substring"; "sup"; "startsWith";
   "toWellFormed"; "trim"; "trimStart"; "trimLeft"; "trimEnd"; "trimRight";
   "toLocaleLowerCase"; "toLocaleUpperCase"; "toLowerCase"; "toUpperCase"].

Definition is_digit (c : ascii) : bool :=
  (48 <=? nat_of_ascii c)%nat && (nat_of_ascii c <=? 57)%nat.

Fixpoint all_digits (s : string) : bool :=
  match s with
  | EmptyString => true
  | String c s' => is_digit c && all_digits s'
  end.

(** A name made of digits: it can be the index of a character of a
    string. *)
Definition is_index (p : string) : bool :=
  negb (String.eqb p "") && all_digits p.

(** A name under which an object inherits nothing. *)
Definition own_name (p : string) : bool :=
  negb (existsb (String.eqb p) Object_prototype).

(** A name under which neither an object nor a number nor a string has a
    member that it was not given. *)
Definition member_free (p : string) : bool :=
  own_name p
  && negb (existsb (String.eqb p) (Number_prototype ++ String_prototype)%list)
  && negb (is_index p).

(** The object literal [{size: n, sha: s}]. *)
Definition FileEntry (size : Z) (sha : string) : jsval :=
  JObj (<["size" := JNum size]> (<["sha" := JStr sha]> ∅)).

(** Outcome of an [async] function run from a state of type [S]. *)
Inductive outcome (S A : Type) :=
  | Done (a : A) (s : S)
  | Throw (e : jserror) (s : S)
  | Diverge.
Arguments Done {S A} a s.
Arguments Throw {S A} e s.
Arguments Diverge {S A}.

Definition M (S A : Type) := S → outcome S A.

Definition ret {S A} (a : A) : M S A := λ s, Done a s.
Definition throw {S A} (e : jserror) : M S A := λ s, Throw e s.
Definition bind {S A B} (m : M S A) (k : A → M S B) : M S B :=
  λ s, match m s with
       | Done a s' => k a s'
       | Throw e s' => Throw e s'
       | Diverge => Diverge
       end.
Definition lift {S A} (r : result A) : M S A :=
  match r with
  | Ok a => ret a
  | Raise e => throw e
  end.
Definition modify {S} (f : S → S) : M S unit := λ s, Done tt (f s).
(** A state change that can fail; the state is kept when it does. *)
Definition update {S} (f : S → result S) : M S unit :=
  λ s, match f s with
       | Ok s' => Done tt s'
       | Raise e => Throw e s
       end.

(** [try { m } catch (error) { h error }] *)
Definition try_catch {S A} (m : M S A) (h : jserror → M S A) : M S A :=
  λ s, match m s with
       | Done a s' => Done a s'
       | Throw e s' => h e s'
       | Diverge => Diverge
       end.

End JS.
Export JS.

#[global] Instance result_bind : MBind result := λ A B k r, rbind r k.
#[global] Instance result_ret : MRet result := λ A a, Ok a.
#[global] Instance M_bind {S} : MBind (M S) := λ A B k m, bind m k.
#[global] Instance M_ret {S} : MRet (M S) := λ A a, ret a.

(* ================================================================== *)
(** * Strings and paths                                                 *)
(* ================================================================== *)

Module Path.

Definition slash : ascii := "/"%char.

(** [s.split("/")] *)
Fixpoint split (s : string) : list string :=
  match s with
  | EmptyString => [""]
  | String c s' =>
      if Ascii.eqb c slash then "" :: split s'
      else match split s' with
           | w :: ws => String c w :: ws
           | [] => [String c ""]
           end
  end.

(** [l.join("/")] *)
Definition join_slash (l : list string) : string := String.concat "/" l.

(** Node's [normalizeString]: the stack holds the kept segments, last
    first. *)
Definition normalize_step (allowAboveRoot : bool) (stack : list string)
    (seg : string) : list string :=
  if String.eqb seg "" then stack
  else if String.eqb seg "." then stack
  else if String.eqb seg ".." then
    match stack with
    | top :: below =>
        if String.eqb top ".." then seg :: stack else below
    | [] => if allowAboveRoot then [seg] else []
    end
  else seg :: stack.

Definition normalizeString (path : string) (allowAboveRoot : bool) : string :=
  join_slash (rev (fold_left (normalize_step allowAboveRoot) (split path) [])).

Definition starts_with_slash (s : string) : bool :=
  match s with
  | String c _ => Ascii.eqb c slash
  | EmptyString => false
  end.

Fixpoint ends_with_slash (s : string) : bool :=
  match s with
  | EmptyString => false
  | String c EmptyString => Ascii.eqb c slash
  | String _ s' => ends_with_slash s'
  end.

(** [path.normalize] *)
Definition normalize (path : string) : string :=
  if String.eqb path "" then "."
  else
    let isAbsolute := starts_with_slash path in
    let trailingSeparator := ends_with_slash path in
    let p := normalizeString path (negb isAbsolute) in
    if String.eqb p "" then
      if isAbsolute then "/" else if trailingSeparator then "./" else "."
    else
      let p := if trailingSeparator then p ++ "/" else p in
      if isAbsolute then "/" ++ p else p.

(** [path.join(...args)] *)
Definition join (args : list string) : string :=
  match filter (λ a, a ≠ "") args with
  | [] => "."
  | parts => normalize (join_slash parts)
  end.

Definition join2 (a b : string) : string := join [a; b].
Definition join3 (a b c : string) : string := join [a; b; c].

Definition string_rev (s : string) : string :=
  string_of_list_ascii (rev (list_ascii_of_string s)).

Fixpoint drop_slashes (l : list ascii) : list ascii :=
  match l with
  | c :: l' => if Ascii.eqb c slash then drop_slashes l' else l
  | [] => []
  end.

Fixpoint take_segment (l : list ascii) : list ascii :=
  match l with
  | c :: l' => if Ascii.eqb c slash then [] else c :: take_segment l'
  | [] => []
  end.

Fixpoint drop_segment (l : list ascii) : list ascii :=
  match l with
  | c :: l' => if Ascii.eqb c slash then l else drop_segment l'
  | [] => []
  end.

(** [path.basename(p)]: the last segment, trailing separators ignored. *)
Definition basename (p : string) : string :=
  string_of_list_ascii
    (rev (take_segment (drop_slashes (rev (list_ascii_of_string p))))).

(** [path.dirname(p)]: what precedes the last separator that is followed by
    a segment; a separator at index 0 is not looked at by the scan. *)
Definition dirname (p : string) : string :=
  match p with
  | EmptyString => "."
  | String c0 tl =>
      let hasRoot := Ascii.eqb c0 slash in
      match drop_segment (drop_slashes (rev (list_ascii_of_string tl))) with
      | [] => if hasRoot then "/" else "."
      | _ :: before =>
          match before with
          | [] => if hasRoot then "//" else String c0 ""
          | _ => String c0 (string_of_list_ascii (rev before))
          end
      end
  end.

(** [s.replace(pattern, replacement)] with a string pattern: the first
    occurrence only. *)
Fixpoint replace_first (pattern replacement s : string) : string :=
  if String.prefix pattern s
  then replacement ++ String.substring (String.length pattern)
                        (String.length s - String.length pattern) s
  else match s with
       | EmptyString => EmptyString
       | String c s' => String c (replace_first pattern replacement s')
       end.

(** [p[0] == "$"] then [p = "\\" + p] *)
Definition escape (p : string) : string :=
  match p with
  | String "$"%char _ => String "\"%char p
  | _ => p
  end.

End Path.

(* ================================================================== *)
(** * src/source/GitHubStream.ts                                        *)
(* ================================================================== *)

Module GitHubStream.
Import Path.

(** An entry of a [git.getTree] response; every field is optional in the
    client's type. *)
Record elem := Elem {
  elem_path : option string;
  elem_type : option string;
  elem_sha : option string;
  elem_size : option Z;
}.

Record response := Response {
  res_tree : list elem;
  res_truncated : bool;
}.

Record blob := Blob {
  blob_content : option string;
  blob_encoding : string;
  blob_size : Z;
}.

Record AnonymizedFile := File {
  file_sha : option string;
  originalCachePath : string;
}.

(** The collaborators of the class: the token provider of [GitHubBase], the
    remote hosting API for the repository at hand, [Buffer.from] ([None]
    when the encoding is unknown, a [TypeError]) and the storage backend
    (the error code of the write that fails, as in [FileSystem.mk]).  Their
    code is not part of the class. *)
Record remote := Remote {
  getToken : result string;
  git_getTree : string → bool → result response;
  git_getBlob : string → result blob;
  buffer_from : string → string → option string;
  buffer_toString : string → string;
  storage_write_fails : string → option string;
}.

Inductive request :=
  | GetTree (tree_sha : string) (recursive : bool)
  | GetBlob (sha : string).

(** What the class can change: the remote calls issued so far, oldest
    first, and the content cache. *)
Record world := World {
  calls : list request;
  cache : gmap string string;
}.

Definition issue (r : request) : M world unit :=
  modify (λ w, World (calls w ++ [r]) (cache w)).

Definition storage_write (env : remote) (p data : string) : M world unit :=
  match storage_write_fails env p with
  | Some code => throw (SystemError code)
  | None => modify (λ w, World (calls w) (<[p := data]> (cache w)))
  end.

Definition is_type (e : elem) (t : string) : bool :=
  match elem_type e with
  | Some t' => String.eqb t' t
  | None => false
  end.

(** [x || d] on an optional string and on an optional number *)
Definition or_string (x : option string) (d : string) : string :=
  match x with
  | Some s => if String.eqb s "" then d else s
  | None => d
  end.
Definition or_number (x : option Z) (d : Z) : Z :=
  match x with
  | Some n => if n =? 0 then d else n
  | None => d
  end.

(** [!x] on an optional string *)
Definition absent (x : option string) : bool :=
  match x with
  | Some s => String.eqb s ""
  | None => true
  end.

Definition obj_of (v : jsval) : Tree :=
  match v with
  | JObj o => o
  | _ => ∅
  end.

(** The inner loop of [tree2Tree] over the segments [ps], started at
    [current]; [fin] is what is done at the node the loop ends on.  The
    result is [current] after the mutation: the child that the loop moved to
    is put back under its key. *)
Fixpoint walk_create (ps : list string) (fin : jsval → result jsval)
    (current : jsval) : result jsval :=
  match ps with
  | [] => fin current
  | p :: rest =>
      let p := escape p in
      let create :=
        _ ← js_set current p (JObj ∅);
        child ← walk_create rest fin (JObj ∅);
        js_set current p child in
      match js_get current p with
      | Some next =>
          if truthy next then
            child ← walk_create rest fin next;
            js_set current p child
          else create
      | None => create
      end
  end.

(** The body of the [for (let elem of tree)] loop of [tree2Tree]. *)
Definition tree2Tree_elem (parentPath : string) (partialTree : Tree)
    (elem : elem) : result Tree :=
  if absent (elem_path elem) then Ok partialTree
  else
    let paths := split (join2 parentPath (default "" (elem_path elem))) in
    let end_ :=
      if is_type elem "tree" then length paths else (length paths - 1)%nat in
    let fin (current : jsval) :=
      if is_type elem "blob" then
        js_set current (escape (nth end_ paths ""))
          (FileEntry (or_number (elem_size elem) 0) (or_string (elem_sha elem) ""))
      else Ok current in
    root ← walk_create (take end_ paths) fin (JObj partialTree);
    mret (obj_of root).

Fixpoint tree2Tree (tree : list elem) (partialTree : Tree)
    (parentPath : string) : result Tree :=
  match tree with
  | [] => Ok partialTree
  | elem :: rest =>
      t ← tree2Tree_elem parentPath partialTree elem;
      tree2Tree rest t parentPath
  end.

(** The inner loop of [getTruncatedTree]: does the walk over [paths] reach
    a property that is missing? *)
Fixpoint reaches_missing (paths : list string) (current : jsval) : bool :=
  match paths with
  | [] => false
  | p :: rest =>
      match js_get current p with
      | Some next => if truthy next then reaches_missing rest next else true
      | None => true
      end
  end.

Section Recursion.
Context (env : remote).
(** The recursive call [this.getTree] *)
Context (getTree_rec : string → Tree → string → M world Tree).

(** The body of the [for (let elem of tree)] loop of
    [getTruncatedTree]. *)
Definition getTruncatedTree_elem (parentPath : string)
    (truncatedTree : Tree) (elem : elem) : M world Tree :=
  if absent (elem_path elem) then mret truncatedTree
  else if is_type elem "tree" then
    let elementPath := join2 parentPath (default "" (elem_path elem)) in
    let paths := split elementPath in
    if reaches_missing paths (JObj truncatedTree) then
      if absent (elem_sha elem) then mret truncatedTree
      else getTree_rec (default "" (elem_sha elem)) truncatedTree elementPath
    else mret truncatedTree
  else mret truncatedTree.

Fixpoint getTruncatedTree_loop (tree : list elem) (parentPath : string)
    (truncatedTree : Tree) : M world Tree :=
  match tree with
  | [] => mret truncatedTree
  | elem :: rest =>
      t ← getTruncatedTree_elem parentPath truncatedTree elem;
      getTruncatedTree_loop rest parentPath t
  end.

Definition getTruncatedTree (sha : string) (truncatedTree : Tree)
    (parentPath : string) : M world Tree :=
  _ ← lift (getToken env);
  _ ← issue (GetTree sha false);
  ghRes ← lift (git_getTree env sha false);
  t ← getTruncatedTree_loop (res_tree ghRes) parentPath truncatedTree;
  lift (tree2Tree (res_tree ghRes) t parentPath).
End Recursion.

Fixpoint getTree (env : remote) (fuel : nat) (sha : string)
    (truncatedTree : Tree) (parentPath : string) : M world Tree :=
  match fuel with
  | O => λ _, Diverge
  | S fuel' =>
      _ ← lift (getToken env);
      _ ← issue (GetTree sha true);
      ghRes ← lift (git_getTree env sha true);
      tree ← lift (tree2Tree (res_tree ghRes) truncatedTree parentPath);
      if res_truncated ghRes
      then getTruncatedTree env (getTree env fuel') sha tree parentPath
      else mret tree
  end.

(** [getFiles]: [commit] is [this.branch.commit]. *)
Definition getFiles (env : remote) (fuel : nat) (commit : string) : M world Tree :=
  getTree env fuel commit ∅ "".

Definition file_sha_not_provided := JsError "file_sha_not_provided".
Definition file_not_accessible := JsError "file_not_accessible".
Definition file_too_big := JsError "file_too_big".

(** The [try] block of [getFileContent] *)
Definition getFileContent_try (env : remote) (file : AnonymizedFile)
    (sha : string) : M world string :=
  _ ← issue (GetBlob sha);
  ghRes ← lift (git_getBlob env sha);
  if absent (blob_content ghRes) && negb (blob_size ghRes =? 0)
  then throw file_not_accessible
  else
    content ←
      (if absent (blob_content ghRes) then mret ""
       else match buffer_from env (default "" (blob_content ghRes))
                    (blob_encoding ghRes) with
            | Some bytes => mret bytes
            | None => throw (TypeError "Unknown encoding")
            end);
    _ ← storage_write env (originalCachePath file) content;
    mret (buffer_toString env content).

(** [getFileContent]; the result is what the returned stream yields.  A
    caught error that is not rethrown is logged and control falls through
    to the final [throw]. *)
Definition getFileContent (env : remote) (file : AnonymizedFile) : M world string :=
  if absent (file_sha file) then throw file_sha_not_provided
  else
    _ ← lift (getToken env);
    try_catch (getFileContent_try env file (default "" (file_sha file)))
      (λ error,
         if decide (error_status error = Some 403)
         then throw file_too_big
         else throw file_not_accessible).

End GitHubStream.

(* ================================================================== *)
(** * The disk under the cache: Node's [fs.promises]                    *)
(* ================================================================== *)

Module Disk.
Import Path.

Inductive fsnode :=
  | FsFile (ino : N) (data : string)
  | FsDir (ino : N) (entries : list (string * fsnode))
  | FsSpecial (ino : N).

(** The directory at the root, and the next free inode number. *)
Record disk := MkDisk {
  root : fsnode;
  next_ino : N;
}.

Record Stats := MkStats {
  isDirectory : bool;
  isFile : bool;
  st_size : Z;
  st_ino : N;
}.

Definition ENOENT := SystemError "ENOENT".
Definition ENOTDIR := SystemError "ENOTDIR".
Definition EEXIST := SystemError "EEXIST".
Definition EISDIR := SystemError "EISDIR".

Fixpoint lookup_entry (name : string) (entries : list (string * fsnode))
    : option fsnode :=
  match entries with
  | [] => None
  | (n, c) :: rest => if String.eqb n name then Some c else lookup_entry name rest
  end.

Fixpoint update_entry (name : string) (c : fsnode)
    (entries : list (string * fsnode)) : list (string * fsnode) :=
  match entries with
  | [] => [(name, c)]
  | (n, c') :: rest =>
      if String.eqb n name then (n, c) :: rest
      else (n, c') :: update_entry name c rest
  end.

(** The names a path resolves through, from the root: empty and [.]
    components are dropped, [..] steps back. *)
Definition segments (p : string) : list string :=
  rev (fold_left (normalize_step false) (split p) []).

Fixpoint locate (segs : list string) (n : fsnode) : result fsnode :=
  match segs with
  | [] => Ok n
  | s :: rest =>
      match n with
      | FsDir _ entries =>
          match lookup_entry s entries with
          | Some c => locate rest c
          | None => Raise ENOENT
          end
      | _ => Raise ENOTDIR
      end
  end.

Definition stats_of (n : fsnode) : Stats :=
  match n with
  | FsFile i data => MkStats false true (Z.of_nat (String.length data)) i
  | FsDir i _ => MkStats true false 4096 i
  | FsSpecial i => MkStats false false 0 i
  end.

(** What a path resolves to.  A path that ends with a separator asks for a
    directory: when it leads to something else the resolution fails. *)
Definition resolve (p : string) (n : fsnode) : result fsnode :=
  m ← locate (segments p) n;
  if ends_with_slash p && negb (isDirectory (stats_of m)) then Raise ENOTDIR
  else Ok m.

(** [fs.promises.stat] *)
Definition stat (d : disk) (p : string) : result Stats :=
  n ← resolve p (root d); mret (stats_of n).

(** [fs.promises.readdir] *)
Definition readdir (d : disk) (p : string) : result (list string) :=
  n ← locate (segments p) (root d);
  match n with
  | FsDir _ entries => Ok (map fst entries)
  | _ => Raise ENOTDIR
  end.

Fixpoint mkdir_at (segs : list string) (next : N) (n : fsnode)
    : result (fsnode * N) :=
  match segs with
  | [] =>
      match n with
      | FsDir _ _ => Ok (n, next)
      | _ => Raise EEXIST
      end
  | s :: rest =>
      match n with
      | FsDir i entries =>
          match lookup_entry s entries with
          | Some c =>
              r ← mkdir_at rest next c;
              Ok (FsDir i (update_entry s r.1 entries), r.2)
          | None =>
              r ← mkdir_at rest (next + 1)%N (FsDir next []);
              Ok (FsDir i (update_entry s r.1 entries), r.2)
          end
      | _ => Raise ENOTDIR
      end
  end.

(** [fs.promises.mkdir(p, {recursive: true})]: what stands at the place
    of the directory is looked at with [stat], so a path that ends with a
    separator and is taken by something that is no directory fails with
    [ENOTDIR], not with [EEXIST]. *)
Definition mkdir_recursive (p : string) (d : disk) : result disk :=
  match mkdir_at (segments p) (next_ino d) (root d) with
  | Ok r => Ok (MkDisk r.1 r.2)
  | Raise e =>
      if ends_with_slash p && bool_decide (error_code e = Some "EEXIST")
      then Raise ENOTDIR
      else Raise e
  end.

Fixpoint write_at (segs : list string) (data : string) (next : N)
    (n : fsnode) : result (fsnode * N) :=
  match segs with
  | [] => Raise EISDIR
  | s :: rest =>
      match n with
      | FsDir i entries =>
          match rest, lookup_entry s entries with
          | [], Some (FsFile j _) =>
              Ok (FsDir i (update_entry s (FsFile j data) entries), next)
          | [], Some (FsDir _ _) => Raise EISDIR
          | [], Some (FsSpecial _) => Ok (n, next)
          | [], None =>
              Ok (FsDir i (update_entry s (FsFile next data) entries),
                  (next + 1)%N)
          | _ :: _, Some c =>
              r ← write_at rest data next c;
              Ok (FsDir i (update_entry s r.1 entries), r.2)
          | _ :: _, None => Raise ENOENT
          end
      | _ => Raise ENOTDIR
      end
  end.

(** [fs.promises.writeFile(p, data, "utf-8")]: a path that ends with a
    separator cannot be opened for writing, whatever is there. *)
Definition writeFile (p data : string) (d : disk) : result disk :=
  r ← write_at (segments p) data (next_ino d) (root d);
  if ends_with_slash p then Raise EISDIR else Ok (MkDisk r.1 r.2).

(** A disk with nothing on it. *)
Definition empty_disk : disk := MkDisk (FsDir 1 []) 2.

End Disk.

(* ================================================================== *)
(** * src/storage/FileSystem.ts                                         *)
(* ================================================================== *)

Module FileSystem.
Import Path Disk.

Inductive FILE_TYPE := FILE | FOLDER | NOT_FOUND.

(** What the callbacks and the archiver do, as seen from outside. *)
Inductive event :=
  | OnEntry (path : string) (size : Z)
  | CreateReadStream (fullPath : string)
  | Pipe (path : string)
  | Append (name prefix : string) (source : string)
  | Finalize.

(** The event loop: the continuations waiting in the microtask queue, first
    in first, each given by the events it emits when it runs, and the events
    emitted so far, oldest first. *)
Record loop := Loop {
  microtasks : list (list event);
  events : list event;
}.

Definition emit (e : event) : M loop unit :=
  modify (λ l, Loop (microtasks l) (events l ++ [e])).

(** A continuation becomes ready: it waits behind those already queued. *)
Definition enqueue (job : list event) : M loop unit :=
  modify (λ l, Loop (microtasks l ++ [job]) (events l)).

(** The running function suspends: the queued continuations run, in
    order, before it is resumed. *)
Definition drain (l : loop) : loop :=
  Loop [] (events l ++ concat (microtasks l)).

(** [await p] for a promise that settles with [r] *)
Definition await {A} (r : result A) : M loop A :=
  _ ← modify drain; lift r.

Definition idle : loop := Loop [] [].

Section Backend.
(** [config.FOLDER] and [StorageBase.repoPath] *)
Context (config_FOLDER : string) (repoPath : string → string).

Definition exists_ (d : disk) (repoId p : string) : result FILE_TYPE :=
  let fullPath := join3 config_FOLDER (repoPath repoId) p in
  match stat d fullPath with
  | Ok stat =>
      if isDirectory stat then Ok FOLDER
      else if isFile stat then Ok FILE
      else Ok NOT_FOUND
  | Raise _ => Ok NOT_FOUND
  end.

Definition read (repoId p : string) : M loop string :=
  let fullPath := join3 config_FOLDER (repoPath repoId) p in
  _ ← emit (CreateReadStream fullPath); mret fullPath.

Definition mk (repoId dir : string) : M disk unit :=
  let fullPath := join3 config_FOLDER (repoPath repoId) dir in
  try_catch (update (mkdir_recursive fullPath))
    (λ err,
       if decide (error_code err = Some "EEXIST") then mret tt
       else throw err).

Definition write (repoId p data : string) : M disk unit :=
  let fullPath := join3 config_FOLDER (repoPath repoId) p in
  _ ← mk repoId (dirname p);
  update (writeFile fullPath data).

Section Walk.
Context (d : disk) (repoId : string).
Context (onEntry : option (string → Z → M loop unit)).
(** The recursive call [this.listFiles(repoId, filePath, opt)] *)
Context (listFiles_rec : string → M loop Tree).

(** The body of the [for (let file of files)] loop of [listFiles]; the
    [catch] clause records the error and the walk goes on. *)
Definition listFiles_entry (dir fullPath : string) (output : Tree)
    (file : string) : M loop Tree :=
  let filePath := join2 dir file in
  try_catch
    (stats ← await (stat d (join2 fullPath filePath));
     let file := escape file in
     if isDirectory stats then
       sub ← listFiles_rec filePath;
       _ ← modify drain;
       mret (<[file := JObj sub]> output)
     else if isFile stats then
       _ ← match onEntry with
           | Some f => f filePath (st_size stats)
           | None => mret tt
           end;
       mret (<[file := FileEntry (st_size stats) (pretty (st_ino stats))]> output)
     else mret output)
    (λ error, mret output).

Fixpoint listFiles_loop (dir fullPath : string) (files : list string)
    (output : Tree) : M loop Tree :=
  match files with
  | [] => mret output
  | file :: rest =>
      out ← listFiles_entry dir fullPath output file;
      listFiles_loop dir fullPath rest out
  end.
End Walk.

Fixpoint listFiles (fuel : nat) (d : disk) (repoId dir : string)
    (onEntry : option (string → Z → M loop unit)) : M loop Tree :=
  match fuel with
  | O => λ _, Diverge
  | S fuel' =>
      let fullPath := join3 config_FOLDER (repoPath repoId) dir in
      files ← await (readdir d fullPath);
      listFiles_loop d onEntry
        (λ filePath, listFiles fuel' d repoId filePath onEntry)
        dir fullPath files ∅
  end.

(** The [onEntry] callback of [archive].  It is an [async] function that
    nobody awaits: it runs up to its first [await] when it is called.  The
    promise it awaits, that of [read], is settled by then, so what follows
    is queued at once (ECMAScript 2019 and later). *)
Definition archive_onEntry (repoId fullPath : string)
    (fileTransformer : bool) (path : string) (size : Z) : M loop unit :=
  rs ← read repoId path;
  let f := replace_first fullPath "" path in
  enqueue ((if fileTransformer then [Pipe path] else [])
           ++ [Append (basename f) (dirname f) rs]).

(** [archive]; [.then(() => archive.finalize())] queues behind the
    continuations that are already waiting when the walk returns. *)
Definition archive (fuel : nat) (d : disk) (repoId dir : string)
    (fileTransformer : bool) : M loop unit :=
  let fullPath := join3 config_FOLDER (repoPath repoId) dir in
  _ ← listFiles fuel d repoId dir
        (Some (archive_onEntry repoId fullPath fileTransformer));
  _ ← enqueue [Finalize];
  modify drain.
End Backend.

(** The entries handed to the archiver, in the order of the [append] calls:
    the [prefix] and the [name] of each. *)
Definition appended (evs : list event) : list (string * string) :=
  omap (λ e, match e with
             | Append name prefix _ => Some (prefix, name)
             | _ => None
             end) evs.

Definition is_append (e : event) : bool :=
  match e with Append _ _ _ => true | _ => false end.
Definition is_finalize (e : event) : bool :=
  match e with Finalize => true | _ => false end.

Definition appends (evs : list event) : list event := List.filter is_append evs.
Definition finalizes (evs : list event) : nat :=
  length (List.filter is_finalize evs).

End FileSystem.

(* ================================================================== *)
(** * Fixtures and the reading of the specification                     *)
(* ================================================================== *)

Module Fixtures.
Import Path Disk FileSystem GitHubStream.

(** Modelled from the spec: [config.FOLDER] and [StorageBase.repoPath] are
    not part of the sources at hand; the cache path is "a fixed storage root
    joined with a per-repository subdirectory". *)
Definition sample_FOLDER : string := "./repositories".
Definition sample_repoPath (repoId : string) : string :=
  join2 repoId "original" ++ "/".

Definition run_on {S A} (m : M S A) (s : S) : S :=
  match m s with
  | Done _ s' => s'
  | Throw _ s' => s'
  | Diverge => s
  end.

(** The cache of repository [r1] after [write("a/b.txt", 10 bytes)] and
    [write("c.txt", 5 bytes)] on a disk with nothing on it. *)
Definition two_files : disk :=
  run_on (_ ← write sample_FOLDER sample_repoPath "r1" "a/b.txt" "0123456789";
          write sample_FOLDER sample_repoPath "r1" "c.txt" "01234")
         empty_disk.

(** The cache of repository [r1] after [write("a/b.txt", 3 bytes)] and
    [write("a/a/b.txt", 5 bytes)] on a disk with nothing on it. *)
Definition nested_twice : disk :=
  run_on (_ ← write sample_FOLDER sample_repoPath "r1" "a/b.txt" "abc";
          write sample_FOLDER sample_repoPath "r1" "a/a/b.txt" "01234")
         empty_disk.

(** The cache of repository [r1] with the one file [$notes.txt]. *)
Definition dollar_file : disk :=
  run_on (write sample_FOLDER sample_repoPath "r1" "$notes.txt" "abc")
         empty_disk.

(** The files below a node, by path relative to it, in depth-first order:
    what the specification expects from a walk. *)
Fixpoint files_under (prefix : string) (n : fsnode) : list (string * Z) :=
  match n with
  | FsFile _ data => [(prefix, Z.of_nat (String.length data))]
  | FsDir _ entries =>
      (fix go (es : list (string * fsnode)) : list (string * Z) :=
         match es with
         | [] => []
         | (name, c) :: rest =>
             (files_under (if String.eqb prefix "" then name
                           else prefix ++ "/" ++ name) c ++ go rest)%list
         end) entries
  | FsSpecial _ => []
  end.

(** The subtree that is cached for [dir] in repository [repoId]. *)
Definition cached (FOLDER : string) (repoPath : string → string) (d : disk)
    (repoId dir : string) : fsnode :=
  match locate (segments (join3 FOLDER (repoPath repoId) dir)) (root d) with
  | Ok n => n
  | Raise _ => FsDir 0 []
  end.

Definition tree_entry (p sha : string) : elem :=
  Elem (Some p) (Some "tree") (Some sha) None.
Definition blob_entry (p sha : string) (size : Z) : elem :=
  Elem (Some p) (Some "blob") (Some sha) (Some size).

Definition not_found : jserror := HttpError 404 "Not Found".

(** A remote whose root listing is truncated after the directory [dir] and
    its only file; the one-level listing of the root shows [dir] and a
    file [g]. *)
Definition one_dir_api (dir : string) (sha : string) (recursive : bool)
    : result response :=
  if String.eqb sha "root" then
    if recursive
    then Ok (Response [tree_entry dir "d1"; blob_entry (dir ++ "/f") "b1" 3] true)
    else Ok (Response [tree_entry dir "d1"; blob_entry "g" "b2" 1] false)
  else if String.eqb sha "d1" then Ok (Response [blob_entry "f" "b1" 3] false)
  else Raise not_found.

Definition remote_of (api : string → bool → result response)
    (blobs : string → result blob) : remote :=
  Remote (Ok "token") api blobs (λ content _, Some content) id (λ _, None).

Definition one_dir (dir : string) : remote :=
  remote_of (one_dir_api dir) (λ _, Raise not_found).

Definition fresh : world := World [] ∅.

(** A remote whose blob endpoint is down. *)
Definition server_error : jserror := HttpError 500 "Internal Server Error".
Definition blobs_down : remote :=
  remote_of (λ _ _, Raise server_error) (λ _, Raise server_error).

Definition hello_blob : remote :=
  remote_of (λ _ _, Raise not_found)
    (λ sha, if String.eqb sha "b1" then Ok (Blob (Some "hello") "utf-8" 5)
            else Raise (HttpError 403 "Forbidden")).

(** A remote whose token provider fails. *)
Definition token_error : jserror := JsError "token_unavailable".
Definition token_down : remote :=
  Remote (Raise token_error) (git_getTree hello_blob) (git_getBlob hello_blob)
    (λ content _, Some content) id (λ _, None).

(** The byte 255, which no UTF-8 text contains, and the UTF-8 encoding
    [EF BF BD] of the replacement character U+FFFD. *)
Definition byte_255 : string := String (ascii_of_nat 255) "".
Definition replacement_character : string :=
  String (ascii_of_nat 239) (String (ascii_of_nat 191)
    (String (ascii_of_nat 189) "")).

(** A remote with a blob of one byte, 255, which the hosting API sends in
    base64 as [/w==].  [Buffer.from] and [Buffer.toString] are given on the
    values at hand: decoding the bytes as UTF-8 text puts the replacement
    character for the byte 255. *)
Definition binary_blob : remote :=
  Remote (Ok "token") (λ _ _, Raise not_found)
    (λ _, Ok (Blob (Some "/w==") "base64" 1))
    (λ content encoding,
       if String.eqb content "/w==" && String.eqb encoding "base64"
       then Some byte_255 else Some content)
    (λ bytes, if String.eqb bytes byte_255 then replacement_character else bytes)
    (λ _, None).

End Fixtures.

(* ================================================================== *)
(** * src/storage/FileSystem.ts: [rm] and [extractZip]                  *)
(* ================================================================== *)

Module Removal.
Import Path Disk.

(** The entries that are left when the name is unlinked. *)
Definition remove_entry (name : string) (entries : list (string * fsnode))
    : list (string * fsnode) :=
  List.filter (λ e, negb (String.eqb e.1 name)) entries.

(** What [fs.promises.rm] with [force] and [recursive] does below a node:
    the entry at the end of the path goes with everything under it; a path
    that does not exist is no error, a path through something that is not a
    directory is one.  The node the paths start from cannot be unlinked:
    the call fails with [EINVAL]. *)
Fixpoint rm_at (segs : list string) (n : fsnode) : result fsnode :=
  match segs with
  | [] => Raise (SystemError "EINVAL")
  | s :: rest =>
      match n with
      | FsDir i entries =>
          match rest with
          | [] => Ok (FsDir i (remove_entry s entries))
          | _ :: _ =>
              match lookup_entry s entries with
              | Some c =>
                  c' ← rm_at rest c;
                  Ok (FsDir i (update_entry s c' entries))
              | None => Ok n
              end
          end
      | _ => Raise ENOTDIR
      end
  end.

(** [fs.promises.rm(p, {force: true, recursive: true})]: the path is looked
    at first; that it does not exist is no error, any other failure of the
    lookup is one. *)
Definition rm_recursive (p : string) (d : disk) : result disk :=
  match resolve p (root d) with
  | Raise e =>
      if bool_decide (error_code e = Some "ENOENT") then Ok d else Raise e
  | Ok _ =>
      r ← rm_at (segments p) (root d);
      Ok (MkDisk r (next_ino d))
  end.

Section Backend.
Context (config_FOLDER : string) (repoPath : string → string).

Definition rm (repoId dir : string) : M disk unit :=
  let fullPath := join3 config_FOLDER (repoPath repoId) dir in
  update (rm_recursive fullPath).
End Backend.

End Removal.

Module Extract.
Import Path.

(** [s.indexOf("/")]: the index of the first separator, [-1] when there is
    none. *)
Fixpoint indexOf_slash (s : string) : Z :=
  match s with
  | EmptyString => -1
  | String c s' =>
      if Ascii.eqb c slash then 0
      else
        let i := indexOf_slash s' in
        if i <? 0 then -1 else i + 1
  end.

(** [s.substr(start)] for a [start] that is not negative. *)
Definition substr (start : Z) (s : string) : string :=
  String.substring (Z.to_nat start) (String.length s - Z.to_nat start) s.

(** The [decodeString] callback that [extractZip] hands to the extractor:
    [name] is the name of an entry as the archive has it. *)
Definition decodeString (name : string) : string :=
  let newName := substr (indexOf_slash name + 1) name in
  if String.eqb newName "" then "/dev/null" else newName.

End Extract.

(* ================================================================== *)
(** * src/source/GitHubRepository.ts                                    *)
(* ================================================================== *)

Module GitHubRepository.
Import GitHubStream.

Record Branch := MkBranch {
  branch_name : string;
  branch_commit : string;
  branch_readme : option string;
}.

(** The fields of [this._data] that the methods read and never change:
    [name], [externalId] and [defaultBranch]. *)
Record repository := Repository {
  fullName : string;
  externalId : string;
  defaultBranch : option string;
}.

(** The collaborators: the parser of repository names ([None] when it gives
    nothing, else the owner and the name it found), the two endpoints of the
    hosting API with every page of a listing collected (a branch is its name
    and the identifier of its commit; a readme is a content and its
    encoding), [Buffer.from(...).toString("utf-8")] ([None] when the encoding
    is unknown), and the document store, which rejects every operation with
    the given error when it is down. *)
Record services := Services {
  gh : string → option (option string * option string);
  repos_listBranches : string → string → result (list (string * string));
  repos_getReadme : string → string → option string → result (string * string);
  buffer_decode : string → string → option string;
  store_down : option jserror;
}.

Inductive call :=
  | ListBranches (owner repo : string)
  | GetReadme (owner repo : string) (ref : option string).

(** What the methods can change: [this._data.branches], the [branches] field
    of the stored documents by [externalId], and the remote calls sent so
    far, oldest first. *)
Record state := State {
  data_branches : option (list Branch);
  documents : gmap string (list Branch);
  sent : list call;
}.

Definition inspect {A} (f : state → A) : M state A := λ s, Done (f s) s.

Definition set_branches (bs : list Branch) : M state unit :=
  modify (λ s, State (Some bs) (documents s) (sent s)).

Definition send_call (c : call) : M state unit :=
  modify (λ s, State (data_branches s) (documents s) (sent s ++ [c])%list).

(** The getters [owner] and [repo]; the string they throw is rendered as an
    error with that message. *)
Definition owner (env : services) (self : repository) : result string :=
  match gh env (fullName self) with
  | None => Raise (JsError "invalid_repo")
  | Some parsed => Ok (or_string parsed.1 (fullName self))
  end.

Definition repo (env : services) (self : repository) : result string :=
  match gh env (fullName self) with
  | None => Raise (JsError "invalid_repo")
  | Some parsed => Ok (or_string parsed.2 (fullName self))
  end.

(** [RepositoryModel.findOne({externalId}).select("branches")]: [None] is
    [null]. *)
Definition findOne (env : services) (key : string)
    : M state (option (list Branch)) :=
  match store_down env with
  | Some e => throw e
  | None => inspect (λ s, documents s !! key)
  end.

(** [RepositoryModel.updateOne({externalId}, {$set: {branches}})]: nothing
    is inserted when no document matches. *)
Definition updateOne (env : services) (key : string) (bs : list Branch)
    : M state unit :=
  match store_down env with
  | Some e => throw e
  | None =>
      modify (λ s, State (data_branches s) (alter (λ _, bs) key (documents s))
                     (sent s))
  end.

(** [model.save()] for the document that [findOne] gave. *)
Definition save (env : services) (key : string) (bs : list Branch)
    : M state unit :=
  match store_down env with
  | Some e => throw e
  | None =>
      modify (λ s, State (data_branches s) (<[key := bs]> (documents s)) (sent s))
  end.

(** [!this._data.branches || this._data.branches.length == 0] *)
Definition stale (bs : option (list Branch)) : bool :=
  match bs with
  | Some (_ :: _) => false
  | _ => true
  end.

(** [branches.filter((f) => f.name == n)[0]] *)
Definition selected_of (n : string) (bs : list Branch) : option Branch :=
  head (List.filter (λ f, String.eqb (branch_name f) n) bs).

(** [this._data.branches?.filter((f) => f.name == n)[0]?.readme] *)
Definition readme_of (old : option (list Branch)) (n : string) : option string :=
  bs ← old; f ← selected_of n bs; branch_readme f.

Definition branches (env : services) (self : repository) (force : bool)
    : M state (list Branch) :=
  old ← inspect data_branches;
  if stale old || force then
    o ← lift (owner env self);
    r ← lift (repo env self);
    _ ← send_call (ListBranches o r);
    found ← lift (repos_listBranches env o r);
    old ← inspect data_branches;
    let branches := map (λ b, MkBranch b.1 b.2 (readme_of old b.1)) found in
    _ ← set_branches branches;
    _ ← updateOne env (externalId self) branches;
    mret branches
  else
    doc ← findOne env (externalId self);
    match doc with
    | None => throw (TypeError "Cannot read properties of null")
    | Some bs => _ ← set_branches bs; mret bs
    end.

(** [selected.readme = text] on the list that [selected] was taken from. *)
Fixpoint set_readme (n text : string) (bs : list Branch) : list Branch :=
  match bs with
  | [] => []
  | f :: rest =>
      if String.eqb (branch_name f) n
      then MkBranch (branch_name f) (branch_commit f) (Some text) :: rest
      else f :: set_readme n text rest
  end.

(** [readme]: [branch] and [force] are the fields of [opt].  The stored
    document casts the list it is assigned, so [selected] is an element of
    the document and not of [this._data.branches]. *)
Definition readme (env : services) (self : repository)
    (branch : option string) (force : bool) : M state string :=
  let branch :=
    if absent branch then or_string (defaultBranch self) "master"
    else default "" branch in
  model ← findOne env (externalId self);
  bs ← branches env self force;
  _ ← set_branches bs;
  match model with
  | None => throw (TypeError "Cannot set properties of null")
  | Some _ =>
      let selected := selected_of branch bs in
      if absent (selected ≫= branch_readme) || force then
        o ← lift (owner env self);
        r ← lift (repo env self);
        let ref := branch_commit <$> selected in
        _ ← send_call (GetReadme o r ref);
        ghRes ← lift (repos_getReadme env o r ref);
        match buffer_decode env ghRes.1 ghRes.2 with
        | None => throw (TypeError "Unknown encoding")
        | Some text =>
            match selected with
            | None => throw (TypeError "Cannot set properties of undefined")
            | Some _ =>
                _ ← save env (externalId self) (set_readme branch text bs);
                mret text
            end
        end
      else mret (default "" (selected ≫= branch_readme))
  end.

End GitHubRepository.

(* ================================================================== *)
(** * The queue processor that removes a cache                          *)
(* ================================================================== *)

Module RemoveCache.

Section Processor.
(** The document of an anonymized repository. *)
Context {Data : Type}.

(** The collaborators: [mongoose.connect], the lookup
    [AnonymizedRepositoryModel.findOne({repoId})] and the method
    [removeCache] of the [Repository] made from a document. *)
Record database := Database {
  mongoose_connect : result unit;
  model_findOne : string → result (option Data);
  removeCache : Data → result unit;
}.

(** What can be seen of a run: the lines on the console, what the span is
    told, and the calls of [removeCache]. *)
Inductive trace :=
  | SetAttribute (key value : string)
  | Log (message : string)
  | CallRemoveCache (repoId : string)
  | RecordException (e : jserror)
  | SpanEnd.

Definition tell (t : trace) : M (list trace) unit :=
  modify (λ log, (log ++ [t])%list).

Definition connect (env : database) : M (list trace) unit :=
  lift (mongoose_connect env).

Definition repo_not_found := JsError "repo_not_found".

(** [getRepository]: the repository is given by its document. *)
Definition getRepository (env : database) (repoId : string)
    : M (list trace) Data :=
  data ← lift (model_findOne env repoId);
  match data with
  | None => throw repo_not_found
  | Some data => mret data
  end.

(** The processor; [repoId] is [job.data.repoId]. *)
Definition processor (env : database) (repoId : string) : M (list trace) unit :=
  _ ← tell (SetAttribute "repoId" repoId);
  _ ← try_catch
        (_ ← connect env;
         _ ← tell (Log ("[QUEUE] Cache of " ++ repoId ++ " is going to be removed..."));
         repo ← getRepository env repoId;
         try_catch
           (_ ← tell (CallRemoveCache repoId); lift (removeCache env repo))
           (λ error, _ ← tell (RecordException error); throw error))
        (λ error, tell (RecordException error));
  _ ← tell (Log ("[QUEUE] Cache of " ++ repoId ++ " is removed."));
  tell SpanEnd.
End Processor.
Arguments database : clear implicits.

(** The errors that were recorded on the span, oldest first. *)
Definition recorded (log : list trace) : list jserror :=
  omap (λ t, match t with RecordException e => Some e | _ => None end) log.

Definition removal_calls (log : list trace) : nat :=
  length (List.filter (λ t, match t with CallRemoveCache _ => true | _ => false end) log).

End RemoveCache.

(* ================================================================== *)
(** * Notions used by the properties                                    *)
(* ================================================================== *)

Import Path Disk FileSystem GitHubStream Fixtures.

(** ** Paths of proper names *)

Fixpoint slash_free (s : string) : bool :=
  match s with
  | EmptyString => true
  | String c s' => negb (Ascii.eqb c slash) && slash_free s'
  end.

(** A name that a directory entry can bear. *)
Definition proper (s : string) : bool :=
  negb (String.eqb s "") && negb (String.eqb s ".")
  && negb (String.eqb s "..") && slash_free s.

Definition pushed (seg : string) : Prop :=
  seg ≠ "" ∧ seg ≠ "." ∧ seg ≠ "..".

(** What a stack can hold: never an empty segment, never [.]. *)
Definition kept (seg : string) : Prop := seg ≠ "" ∧ seg ≠ ".".

(** ** Disks of proper names, the event loop *)

Fixpoint wf_node (n : fsnode) : bool :=
  match n with
  | FsDir _ entries =>
      (fix go (es : list (string * fsnode)) : bool :=
         match es with
         | [] => true
         | (name, c) :: rest => proper name && wf_node c && go rest
         end) entries
  | _ => true
  end.

Fixpoint height (n : fsnode) : nat :=
  match n with
  | FsDir _ entries =>
      S ((fix go (es : list (string * fsnode)) : nat :=
            match es with
            | [] => O
            | (_, c) :: rest => Nat.max (height c) (go rest)
            end) entries)
  | _ => O
  end.

(** Where the cache of a repository lies. *)
Definition base (config_FOLDER : string) (repoPath : string → string)
    (repoId : string) : list string :=
  rev (fold_left (normalize_step false)
         (split config_FOLDER ++ split (repoPath repoId)) []).

(** What holds of the event loop when a function returns or throws. *)
Definition holds_after {A} (I : loop → Prop) (out : outcome loop A) : Prop :=
  match out with
  | Done _ l' => I l'
  | Throw _ l' => I l'
  | Diverge => True
  end.

Definition is_open (e : event) : bool :=
  match e with CreateReadStream _ => true | _ => false end.
Definition opened (evs : list event) : list event := List.filter is_open evs.

(** Every event so far, the ones still queued last. *)
Definition all_events (l : loop) : list event :=
  (events l ++ concat (microtasks l))%list.

(** No [finalize] yet, and one [append] issued or queued for each file
    handed to the callback. *)
Definition appends_pending (l : loop) : Prop :=
  finalizes (all_events l) = O
  ∧ length (appends (all_events l)) = length (opened (all_events l)).

(** A callback that keeps what it is called with. *)
Definition record_entry (path : string) (size : Z) : M loop unit :=
  emit (OnEntry path size).

(** ** Remote calls *)

Definition one_dir_tree (key : string) : Tree :=
  <[key := JObj (<["f" := FileEntry 3 "b1"]> ∅)]> (<["g" := FileEntry 1 "b2"]> ∅).

(** The bytes of a blob response, when it has some: the content decoded
    with its encoding, or nothing at all for an empty file. *)
Definition blob_bytes (env : remote) (b : blob) : option string :=
  if absent (blob_content b) then
    if blob_size b =? 0 then Some "" else None
  else buffer_from env (default "" (blob_content b)) (blob_encoding b).

Definition asked (w : world) (sha : string) : world :=
  World (calls w ++ [GetBlob sha]) (cache w).

Definition raised_by (env : remote) (r : request) (e : jserror) : Prop :=
  match r with
  | GetTree sha recursive => git_getTree env sha recursive = Raise e
  | GetBlob sha => git_getBlob env sha = Raise e
  end.

Definition answered (env : remote) (r : request) : Prop :=
  match r with
  | GetTree sha recursive => ∃ res, git_getTree env sha recursive = Ok res
  | GetBlob sha => ∃ b, git_getBlob env sha = Ok b
  end.

(** An error that is the one a collaborator raised: the remote call issued
    last, every earlier call having been answered; or, every call having
    been answered, the token provider or the fold over a listing. *)
Definition untouched (env : remote) (new : list request) (e : jserror) : Prop :=
  (∃ pre r, new = (pre ++ [r])%list ∧ Forall (answered env) pre
            ∧ raised_by env r e)
  ∨ (Forall (answered env) new
     ∧ (getToken env = Raise e ∨ ∃ l t p, tree2Tree l t p = Raise e)).

Definition tracked {A} (env : remote) (w : world) (out : outcome world A) : Prop :=
  match out with
  | Done _ w' =>
      ∃ new, calls w' = (calls w ++ new)%list ∧ Forall (answered env) new
  | Throw e w' =>
      ∃ new, calls w' = (calls w ++ new)%list ∧ untouched env new e
  | Diverge => True
  end.

(** A function that does what another does wherever that one comes back:
    it was given more fuel. *)
Definition refines {A} (m m' : M world A) : Prop :=
  ∀ w, m w ≠ Diverge → m' w = m w.

(** ** The shape of a folded tree *)

(** A value of a well-formed tree: a file entry, or a directory all of
    whose values are well formed.  An object that has the properties of a
    file entry and children besides is neither. *)
Inductive well_formed : jsval → Prop :=
  | wf_file (size : Z) (sha : string) : well_formed (FileEntry size sha)
  | wf_dir (o : Tree) :
      (∀ k c, o !! k = Some c → well_formed c) → well_formed (JObj o).

Definition well_formed_tree (t : Tree) : Prop :=
  ∀ k c, t !! k = Some c → well_formed c.

(** The same, the file entries being at the key paths listed in [L]. *)
Inductive slot (L : list (list string)) : list string → jsval → Prop :=
  | slot_file (π : list string) (size : Z) (sha : string) :
      π ∈ L → slot L π (FileEntry size sha)
  | slot_dir (π : list string) (o : Tree) :
      (∀ k c, o !! k = Some c → slot L (π ++ [k]) c) → slot L π (JObj o).

(** The keys under which an entry is stored, outermost first. *)
Definition keys (parentPath : string) (e : elem) : list string :=
  map escape (split (join2 parentPath (default "" (elem_path e)))).

Fixpoint is_proper_prefix (x y : list string) : bool :=
  match x, y with
  | [], _ :: _ => true
  | a :: x', b :: y' => String.eqb a b && is_proper_prefix x' y'
  | _, _ => false
  end.

(** No file entry lies on the way to another entry. *)
Definition conflict_free (parentPath : string) (l : list elem) : bool :=
  forallb (λ b,
    absent (elem_path b) || negb (is_type b "blob")
    || forallb (λ e,
         absent (elem_path e)
         || negb (is_proper_prefix (keys parentPath b) (keys parentPath e))) l) l.

Definition listed (e : elem) : bool := negb (absent (elem_path e)).

(** The names that an entry is stored under are all names under which an
    object inherits nothing, respectively names under which nothing has a
    member that it was not given. *)
Definition plain_listing (parentPath : string) (l : list elem) : bool :=
  forallb (λ e,
    absent (elem_path e)
    || forallb own_name
         (split (join2 parentPath (default "" (elem_path e))))) l.

Definition member_free_listing (parentPath : string) (l : list elem) : bool :=
  forallb (λ e,
    absent (elem_path e)
    || forallb member_free
         (split (join2 parentPath (default "" (elem_path e))))) l.

(** The path that [path.join] makes for an entry neither starts nor ends
    with a separator. *)
Definition bounded (parentPath : string) (e : elem) : bool :=
  negb (starts_with_slash (join2 parentPath (default "" (elem_path e))))
  && negb (ends_with_slash (join2 parentPath (default "" (elem_path e)))).

Definition bounded_listing (parentPath : string) (l : list elem) : bool :=
  forallb (λ e, absent (elem_path e) || bounded parentPath e) l.

(** No object of the value has the empty string among its keys. *)
Inductive no_empty_key : jsval → Prop :=
  | nek_num (n : Z) : no_empty_key (JNum n)
  | nek_str (s : string) : no_empty_key (JStr s)
  | nek_obj (o : Tree) :
      o !! "" = None →
      (∀ k c, o !! k = Some c → no_empty_key c) →
      no_empty_key (JObj o).

(** What the fold leaves under [a] for the entries file [a], directory [a],
    file [a/b]. *)
Definition leaf_with_child : jsval :=
  JObj (<["b" := FileEntry 2 "y"]>
          (<["size" := JNum 1]> (<["sha" := JStr "x"]> ∅))).
(** ** A repository behind the remote *)

(** The objects of the revision that is listed: a blob with its size, or a
    tree with its named children. *)
Inductive gitobj :=
  | GBlob (sha : string) (size : Z)
  | GTree (sha : string) (children : list (string * gitobj)).

(** The recursive listing of the children of a tree, paths relative to it;
    [ρ] is the way from the tree that is asked for to the one at hand. *)
Fixpoint listing_of (ρ : list string) (name : string) (o : gitobj) : list elem :=
  match o with
  | GBlob sha size => [blob_entry (join_slash (ρ ++ [name])) sha size]
  | GTree sha children =>
      tree_entry (join_slash (ρ ++ [name])) sha ::
      (fix go (cs : list (string * gitobj)) : list elem :=
         match cs with
         | [] => []
         | (n, c) :: rest => (listing_of (ρ ++ [name]) n c ++ go rest)%list
         end) children
  end.

Fixpoint listing (ρ : list string) (cs : list (string * gitobj)) : list elem :=
  match cs with
  | [] => []
  | (n, c) :: rest => (listing_of ρ n c ++ listing ρ rest)%list
  end.

(** The listing of one level. *)
Definition level_entry (nc : string * gitobj) : elem :=
  match nc.2 with
  | GBlob sha size => blob_entry nc.1 sha size
  | GTree sha _ => tree_entry nc.1 sha
  end.
Definition one_level (cs : list (string * gitobj)) : list elem :=
  map level_entry cs.

(** The tree that stands for an object. *)
Fixpoint denote_obj (o : gitobj) : jsval :=
  match o with
  | GBlob sha size => FileEntry size sha
  | GTree _ children =>
      JObj ((fix go (cs : list (string * gitobj)) : Tree :=
               match cs with
               | [] => ∅
               | (n, c) :: rest => <[escape n := denote_obj c]> (go rest)
               end) children)
  end.

Fixpoint denote (cs : list (string * gitobj)) : Tree :=
  match cs with
  | [] => ∅
  | (n, c) :: rest => <[escape n := denote_obj c]> (denote rest)
  end.

(** The remote serves the objects below [o]: the one-level listing of a tree
    is complete; its recursive listing is complete, or it is flagged as
    truncated and shows some of the children of the tree, each of them with
    everything below it. *)
Fixpoint serves (env : remote) (o : gitobj) : Prop :=
  match o with
  | GBlob _ _ => True
  | GTree sha children =>
      (∃ flag, git_getTree env sha false
               = Ok (Response (one_level children) flag))
      ∧ (git_getTree env sha true = Ok (Response (listing [] children) false)
         ∨ ∃ shown, shown ⊆ children
             ∧ git_getTree env sha true = Ok (Response (listing [] shown) true))
      ∧ (fix all (cs : list (string * gitobj)) : Prop :=
           match cs with
           | [] => True
           | (_, c) :: rest => serves env c ∧ all rest
           end) children
  end.

(** Names are proper, siblings differ after escaping, trees have an
    identifier. *)
Fixpoint proper_tree (o : gitobj) : bool :=
  match o with
  | GBlob _ _ => true
  | GTree sha children =>
      negb (String.eqb sha "")
      && bool_decide (NoDup (map (λ nc, escape nc.1) children))
      && (fix all (cs : list (string * gitobj)) : bool :=
            match cs with
            | [] => true
            | (n, c) :: rest => proper n && proper_tree c && all rest
            end) children
  end.

(** No name of the repository is one under which an object inherits a
    member. *)
Fixpoint plain_tree (o : gitobj) : bool :=
  match o with
  | GBlob _ _ => true
  | GTree _ children =>
      (fix all (cs : list (string * gitobj)) : bool :=
         match cs with
         | [] => true
         | (n, c) :: rest => own_name n && plain_tree c && all rest
         end) children
  end.

Fixpoint depth (o : gitobj) : nat :=
  match o with
  | GBlob _ _ => O
  | GTree _ children =>
      S ((fix go (cs : list (string * gitobj)) : nat :=
            match cs with
            | [] => O
            | (_, c) :: rest => Nat.max (depth c) (go rest)
            end) children)
  end.

(** ** Updates along a path of keys *)

(** The object under a key, empty when there is none. *)
Definition sub (t : Tree) (k : string) : Tree :=
  match t !! k with
  | Some (JObj o) => o
  | _ => ∅
  end.

(** The object at the end of a path of keys. *)
Fixpoint here (X : list string) (t : Tree) : Tree :=
  match X with
  | [] => t
  | k :: X' => here X' (sub t k)
  end.

(** [f] applied at the end of a path of keys, the objects on the way being
    made when they are missing. *)
Fixpoint put (X : list string) (f : Tree → Tree) (t : Tree) : Tree :=
  match X with
  | [] => f t
  | k :: X' => <[k := JObj (put X' f (sub t k))]> t
  end.

Definition no_dollar (k : string) : Prop :=
  match k with
  | String "$" _ => False
  | _ => True
  end.

(** On the way along [X] there are objects only, as far as the way exists,
    and no key of theirs starts with [$]. *)
Fixpoint clear_way (X : list string) (t : Tree) : Prop :=
  match X with
  | [] => True
  | k :: X' =>
      (∀ k', is_Some (t !! k') → no_dollar k')
      ∧ match t !! k with
        | None => True
        | Some (JObj o) => clear_way X' o
        | Some _ => False
        end
  end.

(** The object at the end of [X] is part of [D], the way to it is clear. *)
Definition good (X : list string) (D t : Tree) : Prop :=
  clear_way X t ∧ here X t ⊆ D.

(** The listing of some of the children [cs] folds into a part of what
    stands for all of them. *)
Definition folds (cs : list (string * gitobj)) : Prop :=
  ∀ (P ρ : list string) (shown : list (string * gitobj)) (t : Tree),
    Forall (λ seg, proper seg = true) P →
    Forall (λ seg, proper seg = true) ρ →
    shown ⊆ cs →
    good (map escape (P ++ ρ)) (denote cs) t →
    ∃ t',
      tree2Tree (listing ρ shown) t (join_slash P) = Ok t'
      ∧ good (map escape (P ++ ρ)) (denote cs) t'
      ∧ here (map escape (P ++ ρ)) t ⊆ here (map escape (P ++ ρ)) t'
      ∧ (∀ nc, nc ∈ shown → is_Some (here (map escape (P ++ ρ)) t' !! escape nc.1))
      ∧ ((shown = [] ∧ t' = t)
         ∨ t' = put (map escape (P ++ ρ))
                  (λ _, here (map escape (P ++ ρ)) t') t).

(** What [getTree] does for a tree object whose children are [cs], asked
    for below the path [P]: it comes back, and the object at the end of the
    path is what stands for the children. *)
Definition resolved (env : remote) (fuel : nat) (sha : string)
    (cs : list (string * gitobj)) (P : list string) : Prop :=
  ∀ t w,
    good (map escape P) (denote cs) t →
    ∃ t' w',
      getTree env fuel sha t (join_slash P) w = Done t' w'
      ∧ good (map escape P) (denote cs) t'
      ∧ ((cs = [] ∧ t' = t)
         ∨ t' = put (map escape P) (λ _, denote cs) t).

(** ** Two remotes that truncate *)

Definition lib_dir : list (string * gitobj) := [("a.ts", GBlob "b1" 10)].
Definition src_dir : list (string * gitobj) :=
  [("$lib", GTree "t2" lib_dir); ("main.ts", GBlob "b2" 20)].
Definition top_dir : list (string * gitobj) :=
  [("src", GTree "t1" src_dir); ("README.md", GBlob "b3" 5)].

(** The recursive listing of the root shows the file [README.md] only, that
    of [src] the file [main.ts] only: two levels to resolve. *)
Definition two_levels_api (sha : string) (recursive : bool) : result response :=
  if String.eqb sha "c0" then
    if recursive
    then Ok (Response (listing [] [("README.md", GBlob "b3" 5)]) true)
    else Ok (Response (one_level top_dir) false)
  else if String.eqb sha "t1" then
    if recursive
    then Ok (Response (listing [] [("main.ts", GBlob "b2" 20)]) true)
    else Ok (Response (one_level src_dir) false)
  else if String.eqb sha "t2" then
    if recursive
    then Ok (Response (listing [] lib_dir) false)
    else Ok (Response (one_level lib_dir) false)
  else Raise not_found.

Definition two_levels : remote :=
  remote_of two_levels_api (λ _, Raise not_found).

Definition half_dir : list (string * gitobj) :=
  [("a", GTree "t1" [("x", GBlob "b1" 1); ("y", GBlob "b2" 2)]);
   ("b", GTree "t2" [("z", GBlob "b3" 3)])].

(** The recursive listing of the root is cut in the middle of the directory
    [a]: it shows [a] and [a/x], neither [a/y] nor [b]. *)
Definition cut_inside_api (sha : string) (recursive : bool) : result response :=
  if String.eqb sha "c0" then
    if recursive
    then Ok (Response [tree_entry "a" "t1"; blob_entry "a/x" "b1" 1] true)
    else Ok (Response (one_level half_dir) false)
  else if String.eqb sha "t1" then
    if recursive
    then Ok (Response [blob_entry "x" "b1" 1; blob_entry "y" "b2" 2] false)
    else Ok (Response [blob_entry "x" "b1" 1; blob_entry "y" "b2" 2] false)
  else if String.eqb sha "t2" then
    Ok (Response [blob_entry "z" "b3" 3] false)
  else Raise not_found.

Definition cut_inside : remote :=
  remote_of cut_inside_api (λ _, Raise not_found).

(** A tree as [listFiles] returns it: no key starts with [$]; a value is
    the entry of a file, made of the size and the inode number that [stat]
    reported for some path, or the tree of a directory. *)
Inductive listed_tree (d : disk) : Tree → Prop :=
  | listed_tree_intro (t : Tree) :
      (∀ k v, t !! k = Some v →
         no_dollar k
         ∧ ((∃ p st, stat d p = Ok st
               ∧ v = FileEntry (st_size st) (pretty (st_ino st)))
            ∨ (∃ sub, v = JObj sub ∧ listed_tree d sub))) →
      listed_tree d t.
(** ** The cache on the disk, the repository behind a listing *)

(** What a stream that [read] opens on a path yields: the data of the
    regular file there. *)
Definition content (d : disk) (p : string) : option string :=
  match resolve p (root d) with
  | Ok (FsFile _ data) => Some data
  | _ => None
  end.

(** The child of a tree by its name, and the object at the end of a path of
    names. *)
Fixpoint child (n : string) (cs : list (string * gitobj)) : option gitobj :=
  match cs with
  | [] => None
  | (n', c) :: rest => if String.eqb n' n then Some c else child n rest
  end.

Fixpoint object_at (path : list string) (o : gitobj) : option gitobj :=
  match path with
  | [] => Some o
  | n :: rest =>
      match o with
      | GTree _ cs => c ← child n cs; object_at rest c
      | GBlob _ _ => None
      end
  end.

(** The value that a consumer of a tree reaches by reading one key after
    the other. *)
Fixpoint entry_at (ks : list string) (v : jsval) : option jsval :=
  match ks with
  | [] => Some v
  | k :: rest => next ← js_get v k; entry_at rest next
  end.

(** An outcome that left the content cache alone and sent requests for
    listings only. *)
Definition is_listing_request (r : request) : bool :=
  match r with GetTree _ _ => true | GetBlob _ => false end.

Definition listing_only {A} (w : world) (out : outcome world A) : Prop :=
  match out with
  | Done _ w' | Throw _ w' =>
      cache w' = cache w
      ∧ ∃ new, calls w' = (calls w ++ new)%list
               ∧ forallb is_listing_request new = true
  | Diverge => True
  end.

(** ** Names on the disk *)

Definition no_slash (l : list ascii) : Prop :=
  Forall (λ c, Ascii.eqb c slash = false) l.

(** Nothing stands in the way of a file at the end of the path: what is
    there of the directories leading to it are directories, and its own
    place is not taken by a directory. *)
Fixpoint free_way (segs : list string) (n : fsnode) : bool :=
  match segs with
  | [] => negb (isDirectory (stats_of n))
  | s :: rest =>
      match n with
      | FsDir _ entries =>
          match lookup_entry s entries with
          | Some c => free_way rest c
          | None => true
          end
      | _ => false
      end
  end.

(** The regular files among the entries of a directory, as the archiver is
    to name them: each with the prefix [.]. *)
Definition regular_files (entries : list (string * fsnode))
    : list (string * string) :=
  omap (λ n, match lookup_entry n entries with
             | Some (FsFile _ _) => Some (".", n)
             | _ => None
             end) (map fst entries).

(** ** A repository with two branches *)

Module Samples.
Import GitHubStream GitHubRepository.

Definition demo : repository := Repository "owner/demo" "gh_1" (Some "main").

(** The remote has the branches [main] and [dev]; the readme of [main],
    which is also the one it gives when no ref is named, reads [hello], that
    of [dev] is empty; no other ref has one. *)
Definition demo_services : services :=
  Services (λ _, Some (Some "owner", Some "demo"))
    (λ _ _, Ok [("main", "c1"); ("dev", "c2")])
    (λ _ _ ref,
       match ref with
       | None | Some "c1" => Ok ("hello", "utf-8")
       | Some "c2" => Ok ("", "utf-8")
       | Some _ => Raise not_found
       end)
    (λ content _, Some content)
    None.

(** The repository has its document, no branch is known yet. *)
Definition stored : state := State None {["gh_1" := []]} [].

(** The repository has no document. *)
Definition unsaved : state := State None ∅ [].

(** The same remote, the document store being down. *)
Definition store_error : jserror := JsError "MongoNetworkError".
Definition demo_store_down : services :=
  Services (gh demo_services) (repos_listBranches demo_services)
    (repos_getReadme demo_services) (buffer_decode demo_services)
    (Some store_error).

(** The name of the branch that [readme] looks for. *)
Definition branch_asked (self : repository) (branch : option string) : string :=
  if absent branch then or_string (defaultBranch self) "master"
  else default "" branch.

End Samples.

(** Two lookups that [exists] cannot tell apart: both fail, or both find a
    node of the same kind. *)
Definition same_kind (r' r : result fsnode) : Prop :=
  match r', r with
  | Ok m', Ok m =>
      isDirectory (stats_of m') = isDirectory (stats_of m)
      ∧ isFile (stats_of m') = isFile (stats_of m)
  | Raise _, Raise _ => True
  | _, _ => False
  end.
(* ================================================================== *)
(** * Properties                                                        *)
(* ================================================================== *)

(** ** Paths *)

Example split_ex : Path.split "a/b//c/" = ["a"; "b"; ""; "c"; ""].
Proof. reflexivity. Qed.
Example join_ex1 : Path.join2 "" "a/b" = "a/b". Proof. reflexivity. Qed.
Example join_ex2 : Path.join2 "src/lib" "x/../y//z/" = "src/lib/y/z/". Proof. reflexivity. Qed.
Example join_ex3 : Path.join3 "/data" "repo/original/" "" = "/data/repo/original/". Proof. reflexivity. Qed.
Example join_ex4 : Path.join2 "" "" = ".". Proof. reflexivity. Qed.
Example dirname_ex1 : Path.dirname "a/b.txt" = "a". Proof. reflexivity. Qed.
Example dirname_ex2 : Path.dirname "c.txt" = ".". Proof. reflexivity. Qed.
Example dirname_ex3 : Path.dirname "/a" = "/". Proof. reflexivity. Qed.
Example dirname_ex4 : Path.dirname "a/b/c/" = "a/b". Proof. reflexivity. Qed.
Example dirname_ex5 : Path.dirname "//a" = "//". Proof. reflexivity. Qed.
Example dirname_ex6 : Path.dirname "x//a" = "x/". Proof. reflexivity. Qed.
Example basename_ex : Path.basename "a/b/c.txt/" = "c.txt". Proof. reflexivity. Qed.
Example replace_ex : Path.replace_first "/x" "" "a/x/x" = "a/x". Proof. reflexivity. Qed.
Example escape_ex : Path.escape "$a" = "\$a" ∧ Path.escape "a$" = "a$" ∧ Path.escape "" = "".
Proof. repeat split. Qed.

(** ** [exists] *)

(** C8: [exists] never raises.  It answers [FOLDER] when the cached path
    leads to a directory, [FILE] when it leads to a regular file and
    [NOT_FOUND] in every other case, a failing lookup included: a name on
    the path that is missing or is no directory, and a path that ends with
    a separator and leads to something that is no directory. *)
Theorem exists_never_raises (config_FOLDER : string)
    (repoPath : string → string) (d : disk) (repoId p : string) :
  exists_ config_FOLDER repoPath d repoId p =
    Ok match locate (segments (join3 config_FOLDER (repoPath repoId) p)) (root d) with
       | Ok (FsDir _ _) => FOLDER
       | Ok (FsFile _ _) =>
           if ends_with_slash (join3 config_FOLDER (repoPath repoId) p)
           then NOT_FOUND else FILE
       | Ok (FsSpecial _) => NOT_FOUND
       | Raise _ => NOT_FOUND
       end.
Proof.
  unfold exists_, stat, resolve.
  destruct (locate _ (root d)) as [[i data|i entries|i]|e]; simpl;
    try reflexivity;
    by destruct (ends_with_slash _).
Qed.

Example exists_two_files :
  exists_ sample_FOLDER sample_repoPath two_files "r1" "a" = Ok FOLDER
  ∧ exists_ sample_FOLDER sample_repoPath two_files "r1" "a/" = Ok FOLDER
  ∧ exists_ sample_FOLDER sample_repoPath two_files "r1" "a/b.txt" = Ok FILE
  ∧ exists_ sample_FOLDER sample_repoPath two_files "r1" "a/b.txt/" = Ok NOT_FOUND
  ∧ exists_ sample_FOLDER sample_repoPath two_files "r1" "a/b.txt/x" = Ok NOT_FOUND
  ∧ exists_ sample_FOLDER sample_repoPath two_files "r1" "c.txt/" = Ok NOT_FOUND
  ∧ exists_ sample_FOLDER sample_repoPath two_files "r2" "" = Ok NOT_FOUND.
Proof. repeat split; vm_compute; reflexivity. Qed.

(** ** [listFiles] and [archive] on the two-file cache *)

Example two_files_disk :
  two_files =
    MkDisk
      (FsDir 1
         [("repositories",
           FsDir 2
             [("r1",
               FsDir 3
                 [("original",
                   FsDir 4
                     [("a", FsDir 5 [("b.txt", FsFile 6 "0123456789")]);
                      ("c.txt", FsFile 7 "01234")])])])]) 8.
Proof. vm_compute. reflexivity. Qed.

(** The path that [listFiles] hands to [stat] for the file [b.txt] of the
    directory [a] names [a] twice. *)
Example stat_path_of_nested_file :
  let fullPath := join3 sample_FOLDER (sample_repoPath "r1") "a" in
  let filePath := join2 "a" "b.txt" in
  join2 fullPath filePath = "repositories/r1/original/a/a/b.txt"
  ∧ stat two_files (join2 fullPath filePath) = Raise ENOENT
  ∧ stat two_files (join2 fullPath "b.txt") = Ok (MkStats false true 10 6).
Proof. repeat split; vm_compute; reflexivity. Qed.

(** C3: after the two writes the walk of the root reports [c.txt] with its
    size, but the directory [a] comes out empty: [a/b.txt] is not
    reached. *)
Theorem listFiles_misses_nested_file :
  ∀ fuel, (2 ≤ fuel)%nat →
    listFiles sample_FOLDER sample_repoPath fuel two_files "r1" "" None idle
    = Done (<["a" := JObj ∅]> (<["c.txt" := FileEntry 5 "7"]> ∅)) idle.
Proof.
  intros [|[|fuel]] Hfuel; [lia | lia |].
  vm_compute. reflexivity.
Qed.

Lemma listFiles_misses_nested_file_witness :
  listFiles sample_FOLDER sample_repoPath 2 two_files "r1" "" None idle
  = Done (<["a" := JObj ∅]> (<["c.txt" := FileEntry 5 "7"]> ∅)) idle.
Proof. apply (listFiles_misses_nested_file 2). lia. Defined.

Example two_files_expected :
  files_under "" (cached sample_FOLDER sample_repoPath two_files "r1" "")
  = [("a/b.txt", 10); ("c.txt", 5)].
Proof. vm_compute. reflexivity. Qed.

(** C4: the cache holds two files, the archive of the root gets one entry;
    the archive of the directory [a], which holds one file, gets none. *)
Theorem archive_misses_nested_files :
  ∀ fuel, (2 ≤ fuel)%nat →
    (∃ l, archive sample_FOLDER sample_repoPath fuel two_files "r1" "" false idle
          = Done tt l
        ∧ appended (events l) = [(".", "c.txt")]
        ∧ map fst (files_under ""
                     (cached sample_FOLDER sample_repoPath two_files "r1" ""))
          = ["a/b.txt"; "c.txt"])
    ∧ (∃ l, archive sample_FOLDER sample_repoPath fuel two_files "r1" "a" false idle
            = Done tt l
          ∧ appended (events l) = []
          ∧ map fst (files_under ""
                       (cached sample_FOLDER sample_repoPath two_files "r1" "a"))
            = ["b.txt"]).
Proof.
  intros [|[|fuel]] Hfuel; [lia | lia |].
  split; eexists; (split; [vm_compute; reflexivity |]);
    split; vm_compute; reflexivity.
Qed.

Lemma archive_misses_nested_files_witness :
  ∃ l, archive sample_FOLDER sample_repoPath 2 two_files "r1" "" false idle
       = Done tt l
     ∧ appended (events l) = [(".", "c.txt")].
Proof.
  destruct (archive_misses_nested_files 2 (le_n 2)) as [(l & H1 & H2 & _) _].
  exists l. split; assumption.
Defined.

(** ** The truncation lookup and escaped segments *)

(** The fold stores the directory [$d] under the escaped key, the lookup of
    [getTruncatedTree] asks for the raw segment. *)
Example lookup_uses_raw_segment :
  tree2Tree [tree_entry "$d" "d1"; blob_entry "$d/f" "b1" 3] ∅ ""
    = Ok (<["\$d" := JObj (<["f" := FileEntry 3 "b1"]> ∅)]> ∅)
  ∧ reaches_missing (split (join2 "" "$d"))
      (JObj (<["\$d" := JObj (<["f" := FileEntry 3 "b1"]> ∅)]> ∅)) = true
  ∧ reaches_missing (map escape (split (join2 "" "$d")))
      (JObj (<["\$d" := JObj (<["f" := FileEntry 3 "b1"]> ∅)]> ∅)) = false.
Proof. repeat split; vm_compute; reflexivity. Qed.

(** C2: the subtree [$d], which the recursive fold has inserted with its
    content, is requested once more by the truncation resolution; the same
    listing with the directory named [d] is resolved without that
    request. *)
Theorem escaped_subtree_is_fetched_again :
  ∀ fuel, (2 ≤ fuel)%nat →
    getFiles (one_dir "$d") fuel "root" fresh
    = Done (one_dir_tree "\$d")
        (World [GetTree "root" true; GetTree "root" false; GetTree "d1" true] ∅)
    ∧ getFiles (one_dir "d") fuel "root" fresh
      = Done (one_dir_tree "d")
          (World [GetTree "root" true; GetTree "root" false] ∅).
Proof.
  intros [|[|fuel]] Hfuel; [lia | lia |].
  split; vm_compute; reflexivity.
Qed.

Lemma escaped_subtree_is_fetched_again_witness :
  getFiles (one_dir "$d") 2 "root" fresh
  = Done (one_dir_tree "\$d")
      (World [GetTree "root" true; GetTree "root" false; GetTree "d1" true] ∅).
Proof. apply (escaped_subtree_is_fetched_again 2). lia. Defined.

(** ** [getFileContent] *)

Lemma getFileContent_unfold (env : remote) (file : AnonymizedFile)
    (sha tok : string) (w : world) :
  file_sha file = Some sha → sha ≠ "" → getToken env = Ok tok →
  getFileContent env file w =
    match git_getBlob env sha with
    | Raise e =>
        Throw (if decide (error_status e = Some 403) then file_too_big
               else file_not_accessible) (asked w sha)
    | Ok b =>
        match blob_bytes env b with
        | None => Throw file_not_accessible (asked w sha)
        | Some bytes =>
            match storage_write_fails env (originalCachePath file) with
            | Some _ => Throw file_not_accessible (asked w sha)
            | None =>
                Done (buffer_toString env bytes)
                  (World (calls w ++ [GetBlob sha])
                     (<[originalCachePath file := bytes]> (cache w)))
            end
        end
    end.
Proof.
  intros Hsha Hne Htok.
  unfold getFileContent, absent. rewrite Hsha.
  destruct (String.eqb_spec sha "") as [->|_]; [done|].
  rewrite Htok. simpl.
  unfold mbind, M_bind, bind, lift, ret, try_catch, getFileContent_try.
  unfold mbind, M_bind, bind, issue, modify, lift. simpl.
  destruct (git_getBlob env sha) as [b|e]; simpl.
  - unfold blob_bytes, storage_write, throw, ret, mret, M_ret, ret, modify.
    destruct (absent (blob_content b)); simpl.
    + destruct (blob_size b =? 0); simpl; [|reflexivity].
      destruct (storage_write_fails env _); reflexivity.
    + destruct (buffer_from env _ _); simpl; [|reflexivity].
      destruct (storage_write_fails env _); reflexivity.
  - unfold throw. destruct (decide _); reflexivity.
Qed.

(** C7, as the code has it.  [getFileContent] fails with
    [file_sha_not_provided] when the file has no identifier, with the error
    of the token provider, as it is, when no token is obtained (the token is
    awaited before the [try] block), with [file_too_big] when the blob
    request is rejected with status 403 and with [file_not_accessible] in
    every other failure case.  When it succeeds the stream yields
    [content.toString()], the text that the bytes of the blob decode to, and
    the cache holds the bytes under the file's cache path. *)
Theorem getFileContent_outcomes (env : remote) (file : AnonymizedFile)
    (w : world) :
  (absent (file_sha file) = true →
     getFileContent env file w = Throw file_sha_not_provided w)
  ∧ (∀ e, absent (file_sha file) = false → getToken env = Raise e →
       getFileContent env file w = Throw e w)
  ∧ (∀ tok sha e, getToken env = Ok tok →
       file_sha file = Some sha → sha ≠ "" →
       git_getBlob env sha = Raise e → error_status e = Some 403 →
       getFileContent env file w = Throw file_too_big (asked w sha))
  ∧ (∀ tok sha b bytes, getToken env = Ok tok →
       file_sha file = Some sha → sha ≠ "" →
       git_getBlob env sha = Ok b → blob_bytes env b = Some bytes →
       storage_write_fails env (originalCachePath file) = None →
       getFileContent env file w
       = Done (buffer_toString env bytes)
           (World (calls w ++ [GetBlob sha])
              (<[originalCachePath file := bytes]> (cache w))))
  ∧ (∀ e w', getFileContent env file w = Throw e w' →
       (e = file_sha_not_provided ∧ absent (file_sha file) = true)
       ∨ (getToken env = Raise e ∧ absent (file_sha file) = false)
       ∨ (e = file_too_big
          ∧ ∃ sha e0, file_sha file = Some sha
              ∧ git_getBlob env sha = Raise e0 ∧ error_status e0 = Some 403)
       ∨ e = file_not_accessible)
  ∧ (∀ text w', getFileContent env file w = Done text w' →
       ∃ sha b bytes,
         file_sha file = Some sha ∧ git_getBlob env sha = Ok b
         ∧ blob_bytes env b = Some bytes
         ∧ text = buffer_toString env bytes
         ∧ w' = World (calls w ++ [GetBlob sha])
                  (<[originalCachePath file := bytes]> (cache w)))
  ∧ getFileContent env file w ≠ Diverge.
Proof.
  assert (Hdown : ∀ e, absent (file_sha file) = false → getToken env = Raise e →
            getFileContent env file w = Throw e w).
  { intros e Habs Htok. unfold getFileContent. by rewrite Habs, Htok. }
  split; [|split; [exact Hdown|split; [|split; [|split; [|split]]]]].
  - intros Habs. unfold getFileContent. rewrite Habs. reflexivity.
  - intros tok sha e Htok Hsha Hne Hblob Hst.
    rewrite (getFileContent_unfold env file sha tok w Hsha Hne Htok), Hblob.
    destruct (decide _); [reflexivity | contradiction].
  - intros tok sha b bytes Htok Hsha Hne Hblob Hbytes Hwrite.
    rewrite (getFileContent_unfold env file sha tok w Hsha Hne Htok),
      Hblob, Hbytes, Hwrite. reflexivity.
  - intros e w' Hthrow.
    destruct (absent (file_sha file)) eqn:Habs.
    + left. unfold getFileContent in Hthrow. rewrite Habs in Hthrow.
      inversion Hthrow. done.
    + right. destruct (getToken env) as [tok|e0] eqn:Htok.
      2:{ left. rewrite (Hdown e0 eq_refl eq_refl) in Hthrow.
          by injection Hthrow as -> _. }
      right. unfold absent in Habs.
      destruct (file_sha file) as [sha|] eqn:Hsha; [|done].
      destruct (String.eqb_spec sha "") as [|Hne]; [done|].
      rewrite (getFileContent_unfold env file sha tok w Hsha Hne Htok) in Hthrow.
      destruct (git_getBlob env sha) as [b|e0] eqn:Hblob.
      * right. destruct (blob_bytes env b); [|by inversion Hthrow].
        destruct (storage_write_fails env _); by inversion Hthrow.
      * destruct (decide (error_status e0 = Some 403)) as [Hst|Hst];
          inversion Hthrow; subst; [left | right; reflexivity].
        split; [reflexivity|]. by exists sha, e0.
  - intros text w' Hdone.
    destruct (absent (file_sha file)) eqn:Habs.
    { unfold getFileContent in Hdone. by rewrite Habs in Hdone. }
    destruct (getToken env) as [tok|e0] eqn:Htok.
    2:{ by rewrite (Hdown e0 eq_refl eq_refl) in Hdone. }
    unfold absent in Habs.
    destruct (file_sha file) as [sha|] eqn:Hsha; [|done].
    destruct (String.eqb_spec sha "") as [|Hne]; [done|].
    rewrite (getFileContent_unfold env file sha tok w Hsha Hne Htok) in Hdone.
    destruct (git_getBlob env sha) as [b|e0] eqn:Hblob; [|done].
    destruct (blob_bytes env b) as [bytes|] eqn:Hbytes; [|done].
    destruct (storage_write_fails env _); [done|].
    injection Hdone as <- <-. by exists sha, b, bytes.
  - destruct (absent (file_sha file)) eqn:Habs.
    + unfold getFileContent. rewrite Habs. done.
    + destruct (getToken env) as [tok|e0] eqn:Htok.
      2:{ by rewrite (Hdown e0 eq_refl eq_refl). }
      unfold absent in Habs.
      destruct (file_sha file) as [sha|] eqn:Hsha; [|done].
      destruct (String.eqb_spec sha "") as [|Hne]; [done|].
      rewrite (getFileContent_unfold env file sha tok w Hsha Hne Htok).
      destruct (git_getBlob env sha); [|done].
      destruct (blob_bytes env _); [|done].
      destruct (storage_write_fails env _); done.
Qed.

Lemma getFileContent_outcomes_witness :
  getFileContent hello_blob (File (Some "b1") "r1/original/hello.txt") fresh
  = Done "hello"
      (World [GetBlob "b1"] (<["r1/original/hello.txt" := "hello"]> ∅))
  ∧ getFileContent hello_blob (File (Some "b9") "r1/original/big.bin") fresh
    = Throw file_too_big (World [GetBlob "b9"] ∅)
  ∧ getFileContent hello_blob (File None "r1/original/x") fresh
    = Throw file_sha_not_provided fresh
  ∧ getFileContent token_down (File (Some "b1") "r1/original/hello.txt") fresh
    = Throw token_error fresh.
Proof.
  split; [|split; [|split]].
  - destruct (getFileContent_outcomes hello_blob
                (File (Some "b1") "r1/original/hello.txt") fresh)
      as (_ & _ & _ & Hdone & _).
    apply (Hdone "token" "b1" (Blob (Some "hello") "utf-8" 5)); done.
  - destruct (getFileContent_outcomes hello_blob
                (File (Some "b9") "r1/original/big.bin") fresh)
      as (_ & _ & Hbig & _).
    apply (Hbig "token" "b9" (HttpError 403 "Forbidden")); done.
  - destruct (getFileContent_outcomes hello_blob
                (File None "r1/original/x") fresh) as (Hnone & _).
    apply Hnone. reflexivity.
  - destruct (getFileContent_outcomes token_down
                (File (Some "b1") "r1/original/hello.txt") fresh)
      as (_ & Hdown & _).
    apply Hdown; reflexivity.
Defined.

(** C7 as stated fails twice.  When the token provider fails,
    [getFileContent] throws its error, which is none of the three.  When
    the blob is no UTF-8 text, the stream does not yield the bytes of the
    file: for the one byte 255 it yields the replacement character, while
    the cache gets the byte. *)
Lemma getFileContent_other_outcomes :
  (getFileContent token_down (File (Some "b1") "r1/original/hello.txt") fresh
   = Throw token_error fresh
   ∧ token_error ≠ file_sha_not_provided
   ∧ token_error ≠ file_too_big
   ∧ token_error ≠ file_not_accessible)
  ∧ (blob_bytes binary_blob (Blob (Some "/w==") "base64" 1) = Some byte_255
     ∧ getFileContent binary_blob (File (Some "b1") "r1/original/x.bin") fresh
       = Done replacement_character
           (World [GetBlob "b1"] (<["r1/original/x.bin" := byte_255]> ∅))
     ∧ replacement_character ≠ byte_255).
Proof. repeat split; done. Qed.

(** ** Errors of the remote calls *)

Lemma tracked_bind {A B} (env : remote) (m : M world A) (k : A → M world B)
    (w : world) :
  tracked env w (m w) →
  (∀ a w1, m w = Done a w1 → tracked env w1 (k a w1)) →
  tracked env w ((m ≫= k) w).
Proof.
  intros Hm Hk. unfold mbind, M_bind, bind.
  destruct (m w) as [a w1|e w1|] eqn:Hmw; [|exact Hm|exact I].
  destruct Hm as (new1 & Hc1 & Hans1).
  specialize (Hk a w1 eq_refl).
  destruct (k a w1) as [b w2|e w2|]; [| |exact I].
  - destruct Hk as (new2 & Hc2 & Hans2).
    exists (new1 ++ new2)%list. split.
    + rewrite Hc2, Hc1. by rewrite <- app_assoc.
    + by apply Forall_app.
  - destruct Hk as (new2 & Hc2 & Hun).
    exists (new1 ++ new2)%list. split.
    + rewrite Hc2, Hc1. by rewrite <- app_assoc.
    + destruct Hun as [(pre & r & -> & Hpre & Hr)|[Hans2 Hown]].
      * left. exists (new1 ++ pre)%list, r.
        split; [by rewrite <- app_assoc|]. split; [|done].
        by apply Forall_app.
      * right. split; [by apply Forall_app|done].
Qed.

Lemma tracked_ret {A} (env : remote) (a : A) (w : world) :
  tracked env w (ret a w).
Proof. exists []. split; [by rewrite app_nil_r | constructor]. Qed.

Lemma tracked_token (env : remote) (w : world) :
  tracked env w (lift (getToken env) w).
Proof.
  destruct (getToken env) as [tok|e] eqn:Htok; simpl.
  - apply (tracked_ret env tok).
  - exists []. split; [by rewrite app_nil_r|]. right. split; [constructor|by left].
Qed.

Lemma tracked_fold (env : remote) (l : list elem) (t : Tree) (p : string)
    (w : world) :
  tracked env w (lift (tree2Tree l t p) w).
Proof.
  destruct (tree2Tree l t p) as [t'|e] eqn:Hfold; simpl.
  - apply (tracked_ret env t').
  - exists []. split; [by rewrite app_nil_r|]. right.
    split; [constructor|]. right. eauto.
Qed.

(** One request: it is logged, then answered or refused. *)
Lemma tracked_request {B} (env : remote) (sha : string) (recursive : bool)
    (k : response → M world B) (w : world) :
  (∀ res w1, git_getTree env sha recursive = Ok res →
     calls w1 = (calls w ++ [GetTree sha recursive])%list →
     tracked env w1 (k res w1)) →
  tracked env w
    ((issue (GetTree sha recursive) ≫= λ _,
      lift (git_getTree env sha recursive) ≫= k) w).
Proof.
  intros Hk.
  unfold mbind, M_bind, bind, issue, modify; simpl.
  destruct (git_getTree env sha recursive) as [res|e] eqn:Hres; simpl.
  - set (w1 := World (calls w ++ [GetTree sha recursive]) (cache w)) in *.
    specialize (Hk res w1 eq_refl eq_refl).
    assert (Hone : answered env (GetTree sha recursive)) by (simpl; eauto).
    destruct (k res w1) as [b w2|e w2|]; [| |exact I].
    + destruct Hk as (new & Hc & Hans).
      exists (GetTree sha recursive :: new). split.
      * rewrite Hc. simpl. by rewrite <- app_assoc.
      * by constructor.
    + destruct Hk as (new & Hc & Hun).
      exists (GetTree sha recursive :: new). split.
      * rewrite Hc. simpl. by rewrite <- app_assoc.
      * destruct Hun as [(pre & r & -> & Hpre & Hr)|[Hans Hown]].
        -- left. exists (GetTree sha recursive :: pre), r.
           split; [done|]. split; [|done]. by constructor.
        -- right. split; [by constructor|done].
  - exists [GetTree sha recursive]. split; [done|].
    left. exists [], (GetTree sha recursive).
    split; [done|]. split; [constructor | exact Hres].
Qed.

Section TrackedLoop.
Context (env : remote).
Context (getTree_rec : string → Tree → string → M world Tree).
Context (Hrec : ∀ sha t p w, tracked env w (getTree_rec sha t p w)).

Lemma tracked_getTruncatedTree_elem (p : string) (t : Tree) (e : elem)
    (w : world) :
  tracked env w (getTruncatedTree_elem getTree_rec p t e w).
Proof.
  unfold getTruncatedTree_elem.
  repeat match goal with
         | |- context [if ?b then _ else _] => destruct b
         end;
    try apply (tracked_ret env t); apply Hrec.
Qed.

Lemma tracked_getTruncatedTree_loop (l : list elem) (p : string) :
  ∀ (t : Tree) (w : world),
    tracked env w (getTruncatedTree_loop getTree_rec l p t w).
Proof.
  induction l as [|e l IH]; intros t w; simpl.
  - apply (tracked_ret env t).
  - apply tracked_bind; [apply tracked_getTruncatedTree_elem|].
    intros t1 w1 _. apply IH.
Qed.

Lemma tracked_getTruncatedTree (sha : string) (t : Tree) (p : string)
    (w : world) :
  tracked env w (getTruncatedTree env getTree_rec sha t p w).
Proof.
  unfold getTruncatedTree.
  apply tracked_bind; [apply tracked_token|]. intros _ w1 _.
  apply tracked_request. intros res w2 _ _.
  apply tracked_bind; [apply tracked_getTruncatedTree_loop|].
  intros t1 w3 _. apply tracked_fold.
Qed.
End TrackedLoop.

Lemma tracked_getTree (env : remote) (fuel : nat) :
  ∀ sha t p w, tracked env w (getTree env fuel sha t p w).
Proof.
  induction fuel as [|fuel IH]; intros sha t p w; [exact I|].
  simpl.
  apply tracked_bind; [apply tracked_token|]. intros _ w1 _.
  apply tracked_request. intros res w2 _ _.
  apply tracked_bind; [apply tracked_fold|]. intros t1 w3 _.
  destruct (res_truncated res).
  - by apply tracked_getTruncatedTree.
  - apply (tracked_ret env t1).
Qed.

(** *** More fuel *)

Lemma refines_refl {A} (m : M world A) : refines m m.
Proof. by intros w _. Qed.

Lemma refines_bind {A B} (m m' : M world A) (k k' : A → M world B) :
  refines m m' → (∀ a, refines (k a) (k' a)) →
  refines (m ≫= k) (m' ≫= k').
Proof.
  intros Hm Hk w. unfold mbind, M_bind, bind.
  destruct (m w) as [a w1|e w1|] eqn:Hmw; [| |done].
  - intros Hdone. rewrite (Hm w), Hmw by (by rewrite Hmw). by apply Hk.
  - intros _. by rewrite (Hm w), Hmw by (by rewrite Hmw).
Qed.

Section MoreFuel.
Context (env : remote).
Context (rec rec' : string → Tree → string → M world Tree).
Context (Hrec : ∀ sha t p, refines (rec sha t p) (rec' sha t p)).

Lemma refines_getTruncatedTree_loop (l : list elem) (p : string) :
  ∀ t, refines (getTruncatedTree_loop rec l p t)
         (getTruncatedTree_loop rec' l p t).
Proof.
  induction l as [|e l IH]; intros t; simpl; [apply refines_refl|].
  apply refines_bind; [|done].
  unfold getTruncatedTree_elem.
  repeat match goal with
         | |- context [if ?b then _ else _] => destruct b
         end;
    first [apply refines_refl | apply Hrec].
Qed.

Lemma refines_getTruncatedTree (sha : string) (t : Tree) (p : string) :
  refines (getTruncatedTree env rec sha t p)
    (getTruncatedTree env rec' sha t p).
Proof.
  unfold getTruncatedTree.
  apply refines_bind; [apply refines_refl|]. intros _.
  apply refines_bind; [apply refines_refl|]. intros _.
  apply refines_bind; [apply refines_refl|]. intros res.
  apply refines_bind; [apply refines_getTruncatedTree_loop|]. intros t1.
  apply refines_refl.
Qed.
End MoreFuel.

Lemma getTree_more_fuel (env : remote) (fuel : nat) :
  ∀ sha t p, refines (getTree env fuel sha t p) (getTree env (S fuel) sha t p).
Proof.
  induction fuel as [|fuel IH]; intros sha t p; [by intros w|].
  change (getTree env (S (S fuel)) sha t p)
    with (_ ← lift (getToken env);
          _ ← issue (GetTree sha true);
          ghRes ← lift (git_getTree env sha true);
          tree ← lift (tree2Tree (res_tree ghRes) t p);
          if res_truncated ghRes
          then getTruncatedTree env (getTree env (S fuel)) sha tree p
          else mret tree).
  change (getTree env (S fuel) sha t p)
    with (_ ← lift (getToken env);
          _ ← issue (GetTree sha true);
          ghRes ← lift (git_getTree env sha true);
          tree ← lift (tree2Tree (res_tree ghRes) t p);
          if res_truncated ghRes
          then getTruncatedTree env (getTree env fuel) sha tree p
          else mret tree).
  apply refines_bind; [apply refines_refl|]. intros _.
  apply refines_bind; [apply refines_refl|]. intros _.
  apply refines_bind; [apply refines_refl|]. intros res.
  apply refines_bind; [apply refines_refl|]. intros t1.
  destruct (res_truncated res); [|apply refines_refl].
  by apply refines_getTruncatedTree.
Qed.

Lemma getTree_fuel_le (env : remote) (fuel fuel' : nat) :
  (fuel ≤ fuel')%nat →
  ∀ sha t p, refines (getTree env fuel sha t p) (getTree env fuel' sha t p).
Proof.
  induction 1 as [|fuel' Hle IH]; intros sha t p; [apply refines_refl|].
  intros w Hw. rewrite <- (IH sha t p w Hw).
  apply getTree_more_fuel. by rewrite (IH sha t p w Hw).
Qed.

(** C6, as the code has it.  No listing call of [getFiles] is tried again
    and none of their errors is kept from the caller.  When [getFiles]
    returns, every request it has sent was answered.  When it throws, the
    error is the one of the request sent last, every earlier request having
    been answered; or every request was answered and the error is that of
    the token provider or of the fold.  What it does with enough fuel it
    does with more.  The error of the first listing and that of the listing
    of one level are thrown as soon as they are raised.  [getFileContent]
    issues its one request and tries nothing again either, but it replaces
    the error of the request: by [file_too_big] when the status is 403, by
    [file_not_accessible] otherwise. *)
Theorem remote_errors_surface (env : remote) :
  (∀ fuel commit w t w',
     getFiles env fuel commit w = Done t w' →
     ∃ new, calls w' = (calls w ++ new)%list ∧ Forall (answered env) new)
  ∧ (∀ fuel commit w e w',
       getFiles env fuel commit w = Throw e w' →
       ∃ new, calls w' = (calls w ++ new)%list
         ∧ ((∃ pre r, new = (pre ++ [r])%list ∧ Forall (answered env) pre
                      ∧ raised_by env r e)
            ∨ (Forall (answered env) new
               ∧ (getToken env = Raise e
                  ∨ ∃ l t p, tree2Tree l t p = Raise e))))
  ∧ (∀ fuel fuel' commit w,
       (fuel ≤ fuel')%nat → getFiles env fuel commit w ≠ Diverge →
       getFiles env fuel' commit w = getFiles env fuel commit w)
  ∧ (∀ tok fuel commit w e,
       getToken env = Ok tok →
       git_getTree env commit true = Raise e →
       getFiles env (S fuel) commit w
       = Throw e (World (calls w ++ [GetTree commit true]) (cache w)))
  ∧ (∀ tok fuel commit w l t e,
       getToken env = Ok tok →
       git_getTree env commit true = Ok (Response l true) →
       tree2Tree l ∅ "" = Ok t →
       git_getTree env commit false = Raise e →
       getFiles env (S fuel) commit w
       = Throw e (World (calls w ++ [GetTree commit true; GetTree commit false])
                    (cache w)))
  ∧ (∀ tok file sha w e,
       getToken env = Ok tok →
       file_sha file = Some sha → sha ≠ "" →
       git_getBlob env sha = Raise e →
       getFileContent env file w
       = Throw (if decide (error_status e = Some 403) then file_too_big
                else file_not_accessible) (asked w sha)).
Proof.
  split; [|split; [|split; [|split; [|split]]]].
  - intros fuel commit w t w' Hdone.
    pose proof (tracked_getTree env fuel commit ∅ "" w) as Htr.
    unfold getFiles in Hdone. by rewrite Hdone in Htr.
  - intros fuel commit w e w' Hthrow.
    pose proof (tracked_getTree env fuel commit ∅ "" w) as Htr.
    unfold getFiles in Hthrow. by rewrite Hthrow in Htr.
  - intros fuel fuel' commit w Hle Hw.
    by apply (getTree_fuel_le env fuel fuel' Hle commit ∅ "" w).
  - intros tok fuel commit w e Htok Hraise. unfold getFiles. simpl.
    rewrite Htok. unfold mbind, M_bind, bind, issue, modify. simpl.
    rewrite Hraise. reflexivity.
  - intros tok fuel commit w l t e Htok Hfirst Hfold Hraise.
    unfold getFiles. simpl.
    rewrite Htok. unfold mbind, M_bind, bind, issue, modify. simpl.
    rewrite Hfirst. simpl. rewrite Hfold. simpl.
    unfold getTruncatedTree. rewrite Htok.
    unfold mbind, M_bind, bind, issue, modify. simpl.
    rewrite Hraise. simpl. by rewrite <- app_assoc.
  - intros tok file sha w e Htok Hsha Hne Hraise.
    rewrite (getFileContent_unfold env file sha tok w Hsha Hne Htok), Hraise.
    reflexivity.
Qed.

(** A remote whose listing of one level is down. *)
Example one_level_down :
  ∃ api,
    getFiles (remote_of api (λ _, Raise not_found)) 2 "root" fresh
    = Throw server_error (World [GetTree "root" true; GetTree "root" false] ∅)
    ∧ api "root" false = Raise server_error.
Proof.
  exists (λ (sha : string) (recursive : bool),
            if recursive then Ok (Response [blob_entry "g" "b2" 1] true)
            else Raise server_error).
  split; reflexivity.
Qed.

Lemma remote_errors_surface_witness :
  getFiles blobs_down 1 "root" fresh
  = Throw server_error (World [GetTree "root" true] ∅)
  ∧ getFiles two_levels 4 "c0" fresh = getFiles two_levels 3 "c0" fresh
  ∧ getFileContent blobs_down (File (Some "b1") "r1/original/x") fresh
    = Throw file_not_accessible (World [GetBlob "b1"] ∅).
Proof.
  split; [|split].
  - destruct (remote_errors_surface blobs_down)
      as (_ & _ & _ & Hlisting & _).
    apply (Hlisting "token"); reflexivity.
  - destruct (remote_errors_surface two_levels) as (_ & _ & Hmore & _).
    apply Hmore; [lia|]. vm_compute. discriminate.
  - destruct (remote_errors_surface blobs_down)
      as (_ & _ & _ & _ & _ & Hblob).
    apply (Hblob "token" (File (Some "b1") "r1/original/x") "b1" fresh
             server_error); done.
Defined.

(** C6 as stated fails for [getFileContent]: the remote answers the blob
    request with a server error, the caller gets [file_not_accessible]. *)
Lemma remote_error_is_replaced :
  git_getBlob blobs_down "b1" = Raise server_error
  ∧ error_status server_error ≠ Some 403
  ∧ getFileContent blobs_down (File (Some "b1") "r1/original/x") fresh
    = Throw file_not_accessible (World [GetBlob "b1"] ∅)
  ∧ file_not_accessible ≠ server_error.
Proof. repeat split; done. Qed.
(** ** Paths made of proper names *)

Lemma split_nonempty (s : string) : split s ≠ [].
Proof.
  induction s as [|c s IH]; simpl; [done|].
  destruct (Ascii.eqb c slash); [done|].
  destruct (split s); done.
Qed.

Lemma split_app_slash (a b : string) :
  split (a ++ String slash b) = (split a ++ split b)%list.
Proof.
  induction a as [|c a IH]; simpl.
  - reflexivity.
  - destruct (Ascii.eqb c slash).
    + by rewrite IH.
    + rewrite IH. pose proof (split_nonempty a) as Hne.
      destruct (split a); [done|reflexivity].
Qed.

Lemma split_slash_free (s : string) : slash_free s = true → split s = [s].
Proof.
  induction s as [|c s IH]; simpl; [done|].
  intros [Hc Hs]%andb_prop.
  destruct (Ascii.eqb c slash); [done|].
  by rewrite (IH Hs).
Qed.

Lemma split_segments_slash_free (s : string) :
  Forall (λ seg, slash_free seg = true) (split s).
Proof.
  induction s as [|c s IH]; simpl.
  - by constructor.
  - destruct (Ascii.eqb c slash) eqn:Hc.
    + by constructor.
    + pose proof (split_nonempty s) as Hne.
      destruct (split s) as [|w ws]; [done|].
      inversion IH; subst. constructor; [|done].
      simpl. by rewrite Hc.
Qed.

Lemma join_slash_cons (x y : string) (r : list string) :
  join_slash (x :: y :: r) = x ++ String slash (join_slash (y :: r)).
Proof. reflexivity. Qed.

Lemma split_join_slash (R : list string) :
  R ≠ [] → Forall (λ seg, slash_free seg = true) R →
  split (join_slash R) = R.
Proof.
  induction R as [|x [|y r] IH]; intros Hne Hall; [done| |].
  - simpl. apply split_slash_free. by inversion Hall.
  - rewrite join_slash_cons, split_app_slash.
    inversion Hall; subst.
    rewrite split_slash_free by done.
    by rewrite IH.
Qed.

Lemma split_join_parts (parts : list string) :
  parts ≠ [] → split (join_slash parts) = concat (map split parts).
Proof.
  induction parts as [|x [|y r] IH]; intros Hne; [done| |].
  - simpl. by rewrite app_nil_r.
  - rewrite join_slash_cons, split_app_slash, IH by done. reflexivity.
Qed.

(** *** Normalization *)

Lemma proper_pushed (seg : string) : proper seg = true → pushed seg.
Proof.
  unfold proper, pushed. intros H.
  repeat (apply andb_prop in H as [H ?]).
  repeat split; intros ->; done.
Qed.

Lemma proper_slash_free (seg : string) : proper seg = true → slash_free seg = true.
Proof. unfold proper. intros H. by apply andb_prop in H as [_ ?]. Qed.

Lemma normalize_step_pushed (allow : bool) (stack : list string) (seg : string) :
  pushed seg → normalize_step allow stack seg = seg :: stack.
Proof.
  intros (H1 & H2 & H3). unfold normalize_step.
  destruct (String.eqb_spec seg ""); [done|].
  destruct (String.eqb_spec seg "."); [done|].
  destruct (String.eqb_spec seg ".."); done.
Qed.

Lemma normalize_step_empty (allow : bool) (stack : list string) :
  normalize_step allow stack "" = stack.
Proof. reflexivity. Qed.

Lemma fold_normalize_pushed (allow : bool) (l stack : list string) :
  Forall pushed l →
  fold_left (normalize_step allow) l stack = (rev l ++ stack)%list.
Proof.
  revert stack. induction l as [|seg l IH]; intros stack Hall; [done|].
  inversion Hall; subst. simpl.
  rewrite normalize_step_pushed by done.
  rewrite IH by done. by rewrite <- app_assoc.
Qed.

Lemma normalize_step_kept (allow : bool) (stack : list string) (seg : string) :
  Forall kept stack → Forall kept (normalize_step allow stack seg).
Proof.
  intros Hst. unfold normalize_step.
  destruct (String.eqb_spec seg ""); [done|].
  destruct (String.eqb_spec seg "."); [done|].
  destruct (String.eqb_spec seg "..") as [->|].
  - destruct stack as [|top below].
    + destruct allow; [|done]. by repeat constructor.
    + destruct (String.eqb top "..").
      * by constructor.
      * by inversion Hst.
  - by constructor.
Qed.

Lemma fold_normalize_kept (allow : bool) (l stack : list string) :
  Forall kept stack → Forall kept (fold_left (normalize_step allow) l stack).
Proof.
  revert stack. induction l as [|seg l IH]; intros stack Hst; [done|].
  simpl. apply IH. by apply normalize_step_kept.
Qed.

(** Without leave to climb above the root no [..] is kept either. *)
Lemma normalize_step_rooted (stack : list string) (seg : string) :
  Forall pushed stack → Forall pushed (normalize_step false stack seg).
Proof.
  intros Hst. unfold normalize_step.
  destruct (String.eqb_spec seg ""); [done|].
  destruct (String.eqb_spec seg "."); [done|].
  destruct (String.eqb_spec seg "..") as [->|].
  - destruct stack as [|top below]; [done|].
    inversion Hst as [|? ? (_ & _ & Htop) Hbelow]; subst.
    destruct (String.eqb_spec top ".."); done.
  - by constructor.
Qed.

Lemma fold_normalize_rooted (l stack : list string) :
  Forall pushed stack → Forall pushed (fold_left (normalize_step false) l stack).
Proof.
  revert stack. induction l as [|seg l IH]; intros stack Hst; [done|].
  simpl. apply IH. by apply normalize_step_rooted.
Qed.

Lemma normalize_step_from (allow : bool) (stack : list string) (seg : string)
    (P : string → Prop) :
  Forall P stack → P seg → Forall P (normalize_step allow stack seg).
Proof.
  intros Hst Hseg. unfold normalize_step.
  repeat match goal with
         | |- context [if ?b then _ else _] => destruct b
         | |- context [match ?l with [] => _ | _ :: _ => _ end] =>
             destruct l
         end;
    first [ done | by constructor | by repeat constructor
          | by inversion Hst ].
Qed.

Lemma fold_normalize_from (allow : bool) (l stack : list string)
    (P : string → Prop) :
  Forall P stack → Forall P l →
  Forall P (fold_left (normalize_step allow) l stack).
Proof.
  revert stack. induction l as [|seg l IH]; intros stack Hst Hl; [done|].
  inversion Hl; subst. simpl. apply IH; [|done].
  by apply normalize_step_from.
Qed.

(** Resolving a relative path that was resolved already, from any place,
    leads where resolving the path itself leads. *)
Lemma resolve_resolved (l st acc : list string) :
  Forall kept st →
  fold_left (normalize_step false) (rev (fold_left (normalize_step true) l st)) acc
  = fold_left (normalize_step false) l
      (fold_left (normalize_step false) (rev st) acc).
Proof.
  revert st. induction l as [|seg l IH]; intros st Hst; [done|].
  simpl. rewrite IH by (by apply normalize_step_kept).
  f_equal.
  destruct (String.eqb_spec seg "") as [->|Hne]; [reflexivity|].
  destruct (String.eqb_spec seg ".") as [->|Hnd]; [reflexivity|].
  destruct (String.eqb_spec seg "..") as [->|Hndd].
  - destruct st as [|top below]; [reflexivity|].
    simpl normalize_step at 1.
    destruct (String.eqb_spec top "..") as [->|Htop].
    + simpl. rewrite ?fold_left_app. reflexivity.
    + inversion Hst as [|? ? (Ht1 & Ht2) _]; subst.
      simpl rev. rewrite !fold_left_app. simpl.
      rewrite (normalize_step_pushed false _ top) by (by repeat split).
      unfold normalize_step. simpl.
      destruct (String.eqb_spec top ".."); done.
  - assert (Hp : pushed seg) by (by repeat split).
    rewrite !normalize_step_pushed by exact Hp.
    simpl rev. rewrite fold_left_app. simpl.
    by rewrite normalize_step_pushed.
Qed.

Lemma fold_normalize_skip_empty (allow : bool) (l stack : list string) :
  fold_left (normalize_step allow) ("" :: l) stack
  = fold_left (normalize_step allow) l stack.
Proof. reflexivity. Qed.

Lemma fold_normalize_skip_last (allow : bool) (l stack : list string) :
  fold_left (normalize_step allow) (l ++ [""]) stack
  = fold_left (normalize_step allow) l stack.
Proof. by rewrite fold_left_app. Qed.

Lemma join_slash_empty (l : list string) :
  Forall kept l → join_slash l = "" → l = [].
Proof.
  destruct l as [|x [|y r]]; [done| |]; intros Hall Hj.
  - inversion Hall as [|? ? [Hx _] _]; subst. simpl in Hj. done.
  - inversion Hall as [|? ? [Hx _] _]; subst.
    rewrite join_slash_cons in Hj. destruct x; done.
Qed.

Lemma segments_root_like :
  segments "/" = [] ∧ segments "./" = [] ∧ segments "." = [].
Proof. repeat split. Qed.

(** [path.normalize] does not change where a path leads. *)
Lemma segments_normalize (J : string) :
  segments (normalize J) = segments J.
Proof.
  unfold segments. f_equal. unfold normalize.
  destruct (String.eqb_spec J "") as [->|HJ]; [reflexivity|].
  unfold normalizeString.
  set (st := fold_left (normalize_step (negb (starts_with_slash J))) (split J) []).
  assert (Hkept : Forall kept st) by (by apply fold_normalize_kept).
  assert (Hfree : Forall (λ seg, slash_free seg = true) (rev st)).
  { apply Forall_rev, fold_normalize_from; [done|].
    apply split_segments_slash_free. }
  assert (Hback : fold_left (normalize_step false) (rev st) []
                  = fold_left (normalize_step false) (split J) []).
  { subst st. destruct (starts_with_slash J); simpl negb.
    - rewrite fold_normalize_pushed.
      + by rewrite rev_involutive, app_nil_r.
      + apply Forall_rev. by apply fold_normalize_rooted.
    - by rewrite resolve_resolved. }
  destruct (String.eqb_spec (join_slash (rev st)) "") as [Hp|Hp].
  - apply join_slash_empty in Hp; [|by apply Forall_rev].
    rewrite <- Hback, Hp.
    destruct (starts_with_slash J); [reflexivity|].
    destruct (ends_with_slash J); reflexivity.
  - assert (Hne : rev st ≠ []) by (intros Heq; by rewrite Heq in Hp).
    rewrite <- Hback.
    assert (Hsplit : ∀ post : bool,
      fold_left (normalize_step false)
        (split (if post then join_slash (rev st) ++ "/" else join_slash (rev st))) []
      = fold_left (normalize_step false) (rev st) []).
    { intros [|].
      - rewrite split_app_slash, split_join_slash by done.
        simpl split. by rewrite fold_left_app.
      - by rewrite split_join_slash. }
    destruct (starts_with_slash J); [|apply Hsplit].
    change ("/" ++ ?q) with (String slash q). simpl split.
    rewrite ?Ascii.eqb_refl. simpl fold_left. apply Hsplit.
Qed.

Lemma fold_normalize_parts (args acc : list string) :
  fold_left (normalize_step false) (concat (map split (filter (λ a, a ≠ "") args))) acc
  = fold_left (normalize_step false) (concat (map split args)) acc.
Proof.
  revert acc. induction args as [|a args IH]; intros acc; [done|].
  rewrite filter_cons. destruct (decide (a ≠ "")) as [Ha|Ha].
  - simpl. rewrite !fold_left_app. apply IH.
  - apply dec_stable in Ha as ->. simpl. apply IH.
Qed.

(** Where a joined path leads: through the components of its arguments,
    in order. *)
Lemma segments_join (args : list string) :
  segments (join args)
  = rev (fold_left (normalize_step false) (concat (map split args)) []).
Proof.
  unfold join. rewrite <- fold_normalize_parts.
  destruct (filter (λ a, a ≠ "") args) as [|x parts] eqn:Hparts.
  - reflexivity.
  - rewrite segments_normalize. unfold segments.
    by rewrite split_join_parts.
Qed.

Lemma ends_with_slash_cons (c : ascii) (s : string) :
  s ≠ "" → ends_with_slash (String c s) = ends_with_slash s.
Proof. destruct s; done. Qed.

Lemma ends_with_slash_app (a b : string) :
  b ≠ "" → ends_with_slash (a ++ b) = ends_with_slash b.
Proof.
  intros Hb. induction a as [|c a IH]; [done|].
  change (String c a ++ b) with (String c (a ++ b)).
  rewrite ends_with_slash_cons; [done|]. destruct a; [done|]. done.
Qed.

Lemma ends_with_slash_free (s : string) :
  slash_free s = true → ends_with_slash s = false.
Proof.
  induction s as [|c s IH]; [done|]. simpl slash_free.
  intros [Hc Hs]%andb_prop.
  destruct s as [|c' s].
  - simpl. by destruct (Ascii.eqb c slash).
  - rewrite ends_with_slash_cons by done. by apply IH.
Qed.

Lemma join_slash_nonempty (R : list string) :
  R ≠ [] → Forall (λ seg, proper seg = true) R → join_slash R ≠ "".
Proof.
  destruct R as [|x [|y r]]; [done| |]; intros _ Hall;
    inversion Hall as [|? ? Hx _]; subst;
    apply proper_pushed in Hx as (Hx & _).
  - done.
  - rewrite join_slash_cons. by destruct x.
Qed.

Lemma ends_with_slash_join (R : list string) :
  Forall (λ seg, proper seg = true) R → ends_with_slash (join_slash R) = false.
Proof.
  induction R as [|x [|y r] IH]; intros Hall; [done| |].
  - simpl. apply ends_with_slash_free, proper_slash_free. by inversion Hall.
  - inversion Hall; subst. rewrite join_slash_cons.
    rewrite ends_with_slash_app by done.
    rewrite ends_with_slash_cons by (by apply join_slash_nonempty).
    by apply IH.
Qed.

Lemma starts_with_slash_join (R : list string) :
  Forall (λ seg, proper seg = true) R → starts_with_slash (join_slash R) = false.
Proof.
  destruct R as [|x r]; [done|]. intros Hall.
  inversion Hall as [|? ? Hx _]; subst.
  assert (Hhd : starts_with_slash x = false).
  { unfold proper in Hx. destruct x as [|c x]; [done|].
    simpl in *. destruct (Ascii.eqb c slash); [|done].
    by rewrite andb_false_r in Hx. }
  destruct r as [|y r]; [done|].
  rewrite join_slash_cons. destruct x; done.
Qed.

Lemma string_app_assoc (a b c : string) : (a ++ b) ++ c = a ++ (b ++ c).
Proof.
  induction a as [|x a IH]; [done|].
  change (String x ((a ++ b) ++ c) = String x (a ++ (b ++ c))). by f_equal.
Qed.

Lemma join_slash_app (P Q : list string) :
  P ≠ [] → Q ≠ [] →
  join_slash (P ++ Q) = join_slash P ++ String slash (join_slash Q).
Proof.
  intros HP HQ. induction P as [|x [|y r] IH]; [done| |].
  - destruct Q; [done|]. reflexivity.
  - change ((x :: y :: r) ++ Q)%list with (x :: y :: (r ++ Q)%list).
    rewrite !join_slash_cons.
    change (y :: (r ++ Q)%list) with ((y :: r) ++ Q)%list.
    rewrite IH by done.
    by rewrite string_app_assoc.
Qed.

(** A path of proper names is in normal form. *)
Lemma normalize_proper (R : list string) :
  R ≠ [] → Forall (λ seg, proper seg = true) R →
  normalize (join_slash R) = join_slash R.
Proof.
  intros Hne Hall. unfold normalize.
  destruct (String.eqb_spec (join_slash R) "") as [He|_].
  { by apply join_slash_nonempty in He. }
  rewrite starts_with_slash_join, ends_with_slash_join by done.
  unfold normalizeString.
  rewrite split_join_slash; [|done|].
  2: { eapply Forall_impl; [exact Hall|]. apply proper_slash_free. }
  rewrite fold_normalize_pushed.
  2: { eapply Forall_impl; [exact Hall|]. apply proper_pushed. }
  rewrite app_nil_r, rev_involutive.
  destruct (String.eqb_spec (join_slash R) "") as [He|_]; [|done].
  by apply join_slash_nonempty in He.
Qed.

(** Joining two paths of proper names puts the names one after the
    other. *)
Lemma join2_proper (P Q : list string) :
  Q ≠ [] →
  Forall (λ seg, proper seg = true) P → Forall (λ seg, proper seg = true) Q →
  join2 (join_slash P) (join_slash Q) = join_slash (P ++ Q).
Proof.
  intros HQ HP HQp. unfold join2, join.
  pose proof (join_slash_nonempty Q HQ HQp) as HQne.
  destruct P as [|x P'].
  - simpl join_slash at 1. rewrite filter_cons_False by (intros H; by apply H).
    rewrite filter_cons_True by done. rewrite filter_nil.
    change (normalize (join_slash Q) = join_slash Q).
    by apply normalize_proper.
  - pose proof (join_slash_nonempty (x :: P') ltac:(done) HP) as HPne.
    rewrite !filter_cons_True by done. rewrite filter_nil.
    change (join_slash [join_slash (x :: P'); join_slash Q])
      with (join_slash (x :: P') ++ String slash (join_slash Q)).
    rewrite <- join_slash_app by done.
    apply normalize_proper; [done|]. by apply Forall_app.
Qed.

Lemma split_join_proper (R : list string) :
  R ≠ [] → Forall (λ seg, proper seg = true) R → split (join_slash R) = R.
Proof.
  intros Hne Hall. apply split_join_slash; [done|].
  eapply Forall_impl; [exact Hall|]. apply proper_slash_free.
Qed.

Lemma escape_no_dollar (p : string) :
  match escape p with String "$" _ => False | _ => True end.
Proof.
  destruct p as [|c p]; [done|]. unfold escape.
  destruct (Ascii.ascii_dec c "$") as [->|Hc]; [done|].
  destruct c as [[] [] [] [] [] [] [] []]; done.
Qed.

(** ** The walk of [listFiles] *)

Lemma lookup_entry_wf (i : N) (entries : list (string * fsnode))
    (name : string) (c : fsnode) :
  wf_node (FsDir i entries) = true → lookup_entry name entries = Some c →
  wf_node c = true ∧ (height c < height (FsDir i entries))%nat.
Proof.
  simpl. induction entries as [|[n c'] rest IH]; [done|].
  intros Hwf Hlook. simpl in Hlook.
  apply andb_prop in Hwf as [[Hn Hc]%andb_prop Hrest].
  destruct (String.eqb n name).
  - inversion Hlook; subst. split; [done|]. lia.
  - destruct (IH Hrest Hlook) as [? ?]. split; [done|]. lia.
Qed.

Lemma entries_proper (i : N) (entries : list (string * fsnode)) (name : string) :
  wf_node (FsDir i entries) = true → name ∈ map fst entries →
  proper name = true ∧ is_Some (lookup_entry name entries).
Proof.
  simpl. induction entries as [|[n c] rest IH]; intros Hwf Hin.
  - by apply elem_of_nil in Hin.
  - apply andb_prop in Hwf as [[Hn Hc]%andb_prop Hrest].
    simpl. destruct (String.eqb_spec n name) as [->|Hne].
    + split; [done|]. by eexists.
    + apply elem_of_cons in Hin as [Heq|Hin]; [by subst|].
      by apply IH.
Qed.

Lemma locate_wf (segs : list string) :
  ∀ n m, wf_node n = true → locate segs n = Ok m → wf_node m = true.
Proof.
  induction segs as [|s segs IH]; intros n m Hwf Hloc; simpl in Hloc.
  - by inversion Hloc; subst.
  - destruct n as [|i entries|]; try done.
    destruct (lookup_entry s entries) as [c|] eqn:Hlook; [|done].
    apply (IH c m); [|done]. by eapply lookup_entry_wf.
Qed.

Lemma locate_app (a b : list string) (n : fsnode) :
  locate (a ++ b) n = (m ← locate a n; locate b m).
Proof.
  revert n. induction a as [|s a IH]; intros n; [done|].
  simpl. destruct n as [|i entries|]; try done.
  destruct (lookup_entry s entries); [apply IH|done].
Qed.

Section WalkFacts.
Context (config_FOLDER : string) (repoPath : string → string).
Context (d : disk) (repoId : string).

Lemma segments_fullPath (D : list string) :
  Forall (λ seg, proper seg = true) D →
  segments (join3 config_FOLDER (repoPath repoId) (join_slash D))
  = (base config_FOLDER repoPath repoId ++ D)%list.
Proof.
  intros HD. unfold join3. rewrite segments_join. unfold base.
  simpl concat. rewrite app_nil_r, app_assoc, fold_left_app.
  destruct D as [|x D'].
  - simpl. by rewrite app_nil_r.
  - rewrite split_join_proper by done.
    rewrite fold_normalize_pushed.
    + by rewrite rev_app_distr, rev_involutive.
    + eapply Forall_impl; [exact HD|]. apply proper_pushed.
Qed.

Lemma filePath_proper (D : list string) (file : string) :
  Forall (λ seg, proper seg = true) D → proper file = true →
  join2 (join_slash D) file = join_slash (D ++ [file]).
Proof.
  intros HD Hf. apply (join2_proper D [file]); [done|done|].
  by constructor.
Qed.
End WalkFacts.

Lemma await_ok {A B} (r : result A) (a : A) (k : A → M loop B) (l : loop) :
  r = Ok a → (await r ≫= k) l = k a (drain l).
Proof. by intros ->. Qed.

Lemma await_raise {A B} (r : result A) (e : jserror) (k : A → M loop B)
    (l : loop) :
  r = Raise e → (await r ≫= k) l = Throw e (drain l).
Proof. by intros ->. Qed.

Lemma height_locate (segs : list string) :
  ∀ n m, locate segs n = Ok m → (height m ≤ height n)%nat.
Proof.
  induction segs as [|s segs IH]; intros n m Hloc; simpl in Hloc.
  - by inversion Hloc.
  - destruct n as [|i entries|]; try done.
    destruct (lookup_entry s entries) as [c|] eqn:Hlook; [|done].
    specialize (IH c m Hloc).
    assert (height c < height (FsDir i entries))%nat; [|lia].
    clear -Hlook. simpl. induction entries as [|[n c'] rest IH']; [done|].
    simpl in Hlook. destruct (String.eqb n s).
    + inversion Hlook; subst. lia.
    + specialize (IH' Hlook). lia.
Qed.

Lemma holds_after_bind {A B} (I : loop → Prop) (m : M loop A)
    (k : A → M loop B) (l : loop) :
  holds_after I (m l) →
  (∀ a l1, I l1 → holds_after I (k a l1)) →
  holds_after I ((m ≫= k) l).
Proof.
  intros Hm Hk. unfold mbind, M_bind, bind.
  destruct (m l) as [a l1|e l1|]; [by apply Hk|done|done].
Qed.

Lemma holds_after_try {A} (I : loop → Prop) (m : M loop A)
    (h : jserror → M loop A) (l : loop) :
  holds_after I (m l) →
  (∀ e l1, I l1 → holds_after I (h e l1)) →
  holds_after I (try_catch m h l).
Proof.
  intros Hm Hh. unfold try_catch.
  destruct (m l) as [a l1|e l1|]; [done|by apply Hh|done].
Qed.

Lemma holds_after_await {A} (I : loop → Prop) (r : result A) (l : loop) :
  (∀ l, I l → I (drain l)) → I l → holds_after I (await r l).
Proof. intros Hdrain Hl. destruct r; simpl; by apply Hdrain. Qed.

Section Walk.
Context (config_FOLDER : string) (repoPath : string → string).
Context (d : disk) (repoId : string).
Context (onEntry : option (string → Z → M loop unit)).


Section Invariant.
Context (I : loop → Prop).
Context (Hdrain : ∀ l, I l → I (drain l)).
Context (Hcall : ∀ f p s l, onEntry = Some f → I l → holds_after I (f p s l)).

Lemma listFiles_entry_preserves
    (rec : string → M loop Tree) (dir fullPath : string)
    (output : Tree) (file : string) (l : loop) :
  (∀ p l, I l → holds_after I (rec p l)) →
  I l → holds_after I (listFiles_entry d onEntry rec dir fullPath output file l).
Proof.
  intros Hrec Hl. unfold listFiles_entry.
  apply holds_after_try; [|done].
  apply holds_after_bind; [by apply holds_after_await|].
  intros stats l1 Hl1.
  destruct (isDirectory stats).
  - apply holds_after_bind; [by apply Hrec|]. intros sub l2 Hl2.
    apply holds_after_bind; [by apply Hdrain|]. by intros.
  - destruct (isFile stats); [|done].
    apply holds_after_bind; [|by intros].
    destruct onEntry as [f|] eqn:Hf; [by apply Hcall|done].
Qed.

Lemma listFiles_loop_preserves
    (rec : string → M loop Tree) (dir fullPath : string)
    (files : list string) :
  (∀ p l, I l → holds_after I (rec p l)) →
  ∀ output l, I l →
    holds_after I (listFiles_loop d onEntry rec dir fullPath files output l).
Proof.
  intros Hrec. induction files as [|file files IH]; intros output l Hl.
  - done.
  - simpl. apply holds_after_bind.
    + by apply listFiles_entry_preserves.
    + intros out l1 Hl1. by apply IH.
Qed.

Lemma listFiles_preserves (fuel : nat) :
  ∀ dir l, I l → holds_after I (listFiles config_FOLDER repoPath fuel d repoId dir onEntry l).
Proof.
  induction fuel as [|fuel IH]; intros dir l Hl; [done|].
  simpl. apply holds_after_bind; [by apply holds_after_await|].
  intros files l1 Hl1. apply listFiles_loop_preserves; [|done].
  intros p l2 Hl2. by apply IH.
Qed.
End Invariant.

(** The walk of one directory never throws: whatever goes wrong with an
    entry is caught. *)
Lemma listFiles_entry_caught
    (rec : string → M loop Tree) (dir fullPath : string)
    (output : Tree) (file : string) (l : loop) :
  ∀ e l', listFiles_entry d onEntry rec dir fullPath output file l ≠ Throw e l'.
Proof.
  intros e l'. unfold listFiles_entry, try_catch.
  match goal with |- match ?x with _ => _ end ≠ _ => destruct x end; done.
Qed.

Lemma listFiles_loop_caught
    (rec : string → M loop Tree) (dir fullPath : string)
    (files : list string) :
  ∀ output l e l',
    listFiles_loop d onEntry rec dir fullPath files output l ≠ Throw e l'.
Proof.
  induction files as [|file files IH]; intros output l e l'; [done|].
  simpl. unfold mbind, M_bind, bind.
  destruct (listFiles_entry _ _ _ _ _ _ _ _) as [out l1|e1 l1|] eqn:Hentry.
  - apply IH.
  - by apply listFiles_entry_caught in Hentry.
  - done.
Qed.

Context (Htotal : ∀ f p s l, onEntry = Some f → f p s l ≠ Diverge).

Lemma listFiles_entry_returns
    (rec : string → M loop Tree) (dir fullPath : string)
    (output : Tree) (file : string) (l : loop) :
  (∀ l1, rec (join2 dir file) l1 ≠ Diverge) →
  listFiles_entry d onEntry rec dir fullPath output file l ≠ Diverge.
Proof.
  intros Hrec. unfold listFiles_entry, try_catch.
  destruct (stat d _) as [stats|e] eqn:Hstat.
  - rewrite (await_ok _ stats) by done.
    destruct (isDirectory stats) eqn:Hdir.
    + specialize (Hrec (drain l)).
      unfold mbind, M_bind, bind.
      destruct (rec _ _); done.
    + destruct (isFile stats); [|done].
      unfold mbind, M_bind, bind.
      destruct onEntry as [f|] eqn:Hf; [|done].
      specialize (Htotal f (join2 dir file) (st_size stats) (drain l) eq_refl).
      destruct (f _ _ _); done.
  - by rewrite (await_raise _ e).
Qed.

Lemma listFiles_loop_returns
    (rec : string → M loop Tree) (dir fullPath : string)
    (files : list string) :
  (∀ file output l, file ∈ files →
     listFiles_entry d onEntry rec dir fullPath output file l ≠ Diverge) →
  ∀ output l,
    listFiles_loop d onEntry rec dir fullPath files output l ≠ Diverge.
Proof.
  induction files as [|file files IH]; intros Hentry output l; [done|].
  simpl. unfold mbind, M_bind, bind.
  destruct (listFiles_entry _ _ _ _ _ _ _ _) as [out l1|e1 l1|] eqn:Hfile.
  - apply IH. intros f o l2 Hin. apply Hentry. by right.
  - done.
  - exfalso. revert Hfile. apply Hentry. by left.
Qed.

Context (Hwf : wf_node (root d) = true).

(** On a disk of proper names the walk comes back, the fuel being more
    than the height of the directory it starts from. *)
Lemma listFiles_returns (fuel : nat) :
  ∀ D l,
    Forall (λ seg, proper seg = true) D →
    match locate (base config_FOLDER repoPath repoId ++ D) (root d) with
    | Ok node => (height node < fuel)%nat
    | Raise _ => (0 < fuel)%nat
    end →
    listFiles config_FOLDER repoPath fuel d repoId (join_slash D) onEntry l ≠ Diverge.
Proof.
  induction fuel as [|fuel IH]; intros D l HD Hfuel.
  { destruct (locate _ _); lia. }
  simpl. unfold readdir.
  rewrite segments_fullPath by done.
  destruct (locate _ (root d)) as [node|e] eqn:Hloc.
  2: { by rewrite (await_raise _ e). }
  destruct node as [i data|i entries|i];
    [by rewrite (await_raise _ ENOTDIR)| |by rewrite (await_raise _ ENOTDIR)].
  rewrite (await_ok _ (map fst entries)) by done.
  apply listFiles_loop_returns.
  intros file output l1 Hin.
  assert (Hnode : wf_node (FsDir i entries) = true) by (by eapply locate_wf).
  destruct (entries_proper i entries file Hnode Hin) as [Hproper [c Hc]].
  destruct (lookup_entry_wf i entries file c Hnode Hc) as [_ Hlt].
  apply listFiles_entry_returns. intros l2.
  rewrite filePath_proper by done.
  apply IH.
  - apply Forall_app. split; [done|]. by constructor.
  - rewrite app_assoc, locate_app, Hloc. simpl. rewrite Hc. lia.
Qed.
End Walk.

(** ** [archive]: the order of [append] and [finalize] *)

Lemma all_events_drain (l : loop) : all_events (drain l) = all_events l.
Proof. unfold all_events, drain. simpl. by rewrite app_nil_r. Qed.

Lemma appends_pending_drain (l : loop) :
  appends_pending l → appends_pending (drain l).
Proof. unfold appends_pending. by rewrite all_events_drain. Qed.

Lemma appends_pending_onEntry (config_FOLDER : string)
    (repoPath : string → string) (repoId fullPath : string)
    (fileTransformer : bool) (p : string) (s : Z) (l : loop) :
  appends_pending l →
  holds_after appends_pending
    (archive_onEntry config_FOLDER repoPath repoId fullPath fileTransformer p s l).
Proof.
  intros [Hfin Happ]. unfold archive_onEntry, read. simpl.
  unfold appends_pending, all_events, finalizes, appends, opened in *. simpl.
  rewrite concat_app. simpl concat.
  rewrite !List.filter_app, !length_app in *.
  destruct fileTransformer; simpl; lia.
Qed.

Lemma listFiles_unfold (config_FOLDER : string) (repoPath : string → string)
    (fuel : nat) (d : disk) (repoId dir : string)
    (onEntry : option (string → Z → M loop unit)) (l : loop) :
  listFiles config_FOLDER repoPath (S fuel) d repoId dir onEntry l =
    let fullPath := join3 config_FOLDER (repoPath repoId) dir in
    match readdir d fullPath with
    | Ok files =>
        listFiles_loop d onEntry
          (λ filePath, listFiles config_FOLDER repoPath fuel d repoId filePath onEntry)
          dir fullPath files ∅ (drain l)
    | Raise e => Throw e (drain l)
    end.
Proof. simpl. by destruct (readdir d _). Qed.

(** The walk of a directory that can be read comes back with a tree. *)
Lemma listFiles_done (config_FOLDER : string) (repoPath : string → string)
    (d : disk) (repoId : string) (onEntry : option (string → Z → M loop unit))
    (fuel : nat) (D : list string) (files : list string) (l : loop) :
  (∀ f p s l, onEntry = Some f → f p s l ≠ Diverge) →
  wf_node (root d) = true →
  Forall (λ seg, proper seg = true) D →
  (height (root d) < fuel)%nat →
  readdir d (join3 config_FOLDER (repoPath repoId) (join_slash D)) = Ok files →
  ∃ T l', listFiles config_FOLDER repoPath fuel d repoId (join_slash D) onEntry l
          = Done T l'.
Proof.
  intros Htotal Hwf HD Hfuel Hread.
  pose proof (listFiles_returns config_FOLDER repoPath d repoId onEntry
                Htotal Hwf fuel D l HD) as Hret.
  destruct fuel as [|fuel]; [lia|].
  assert (Hne : listFiles config_FOLDER repoPath (S fuel) d repoId
                  (join_slash D) onEntry l ≠ Diverge).
  { apply Hret.
    destruct (locate _ (root d)) as [node|e] eqn:Hloc; [|lia].
    apply height_locate in Hloc. lia. }
  rewrite listFiles_unfold in *. simpl in *. rewrite Hread in *.
  destruct (listFiles_loop _ _ _ _ _ _ _ _) as [T l'|e l'|] eqn:Hloop.
  - by exists T, l'.
  - by apply listFiles_loop_caught in Hloop.
  - done.
Qed.

(** C5, as the code has it.  When the directory to archive can be read,
    [finalize] is the last thing that happens and it happens once: every
    file handed to the callback has had its [append] by then and nothing is
    left in the queue.  When it cannot be read, [archive] throws the error
    of [readdir] and there is no [finalize]. *)
Theorem archive_finalizes_last (config_FOLDER : string)
    (repoPath : string → string) (d : disk) (repoId : string)
    (D : list string) (fileTransformer : bool) (fuel : nat) :
  wf_node (root d) = true →
  Forall (λ seg, proper seg = true) D →
  (height (root d) < fuel)%nat →
  match readdir d (join3 config_FOLDER (repoPath repoId) (join_slash D)) with
  | Ok _ =>
      ∃ evs,
        archive config_FOLDER repoPath fuel d repoId (join_slash D)
          fileTransformer idle
        = Done tt (Loop [] (evs ++ [Finalize]))
        ∧ finalizes evs = O
        ∧ length (appends evs) = length (opened evs)
  | Raise e =>
      archive config_FOLDER repoPath fuel d repoId (join_slash D)
        fileTransformer idle
      = Throw e idle
  end.
Proof.
  intros Hwf HD Hfuel.
  set (fullPath := join3 config_FOLDER (repoPath repoId) (join_slash D)).
  set (cb := archive_onEntry config_FOLDER repoPath repoId fullPath fileTransformer).
  destruct (readdir d fullPath) as [files|e] eqn:Hread.
  - assert (Htotal : ∀ f p s l, Some cb = Some f → f p s l ≠ Diverge)
      by (intros f p s l [= <-]; done).
    destruct (listFiles_done config_FOLDER repoPath d repoId (Some cb)
                fuel D files idle Htotal Hwf HD Hfuel Hread)
      as (T & l1 & Hdone).
    pose proof (listFiles_preserves config_FOLDER repoPath d repoId (Some cb)
                  appends_pending appends_pending_drain) as Hinv.
    specialize (Hinv ltac:(intros f p s l [= <-]; apply appends_pending_onEntry)
                  fuel (join_slash D) idle ltac:(done)).
    rewrite Hdone in Hinv. destruct Hinv as [Hfin Happ].
    exists (all_events l1). split; [|done].
    unfold archive. fold fullPath. fold cb.
    unfold mbind, M_bind, bind at 1. rewrite Hdone.
    unfold bind, enqueue, modify, drain, all_events. simpl.
    rewrite concat_app. simpl. by rewrite app_assoc.
  - unfold archive. fold fullPath. fold cb.
    destruct fuel as [|fuel]; [lia|].
    unfold mbind, M_bind, bind at 1.
    rewrite listFiles_unfold. simpl. fold fullPath. by rewrite Hread.
Qed.

Lemma archive_finalizes_last_witness :
  ∃ evs,
    archive sample_FOLDER sample_repoPath 6 two_files "r1" "" true idle
    = Done tt (Loop [] (evs ++ [Finalize]))
    ∧ finalizes evs = O
    ∧ length (appends evs) = length (opened evs).
Proof.
  apply (archive_finalizes_last sample_FOLDER sample_repoPath two_files "r1"
           [] true 6).
  - reflexivity.
  - constructor.
  - vm_compute. lia.
Defined.

(** C5 as stated fails when the directory cannot be read: the archive of a
    repository that has no cache throws, and [finalize] is not emitted. *)
Lemma archive_without_finalize :
  archive sample_FOLDER sample_repoPath 6 empty_disk "r1" "" true idle
  = Throw ENOENT idle
  ∧ finalizes (events idle) = O.
Proof. split; vm_compute; reflexivity. Qed.

(** ** What [listFiles] stores and what it hands to the callback *)

Lemma escape_dollar (rest : string) :
  escape (String "$" rest) = String "\" (String "$" rest).
Proof. reflexivity. Qed.

Section Entries.
Context (config_FOLDER : string) (repoPath : string → string).
Context (d : disk) (repoId : string).
Context (rec : string → M loop Tree) (dir fullPath : string).
Context (ev : event).
Context (Hrec : ∀ p l, ev ∈ events l → holds_after (λ l', ev ∈ events l') (rec p l)).

Lemma seen_drain (l : loop) : ev ∈ events l → ev ∈ events (drain l).
Proof. unfold drain. simpl. intros H. apply elem_of_app. by left. Qed.

Lemma seen_record (f : string → Z → M loop unit) (p : string) (s : Z)
    (l : loop) :
  Some record_entry = Some f → ev ∈ events l →
  holds_after (λ l', ev ∈ events l') (f p s l).
Proof. intros [= <-] H. simpl. apply elem_of_app. by left. Qed.

(** One round of the loop sets at most the key of its file. *)
Lemma listFiles_entry_output (output : Tree) (g : string) (l : loop)
    (out : Tree) (l1 : loop) :
  listFiles_entry d (Some record_entry) rec dir fullPath output g l
    = Done out l1 →
  out = output ∨ ∃ v, out = <[escape g := v]> output.
Proof.
  unfold listFiles_entry, try_catch.
  destruct (stat d _) as [stats|e] eqn:Hstat.
  - rewrite (await_ok _ stats) by done.
    destruct (isDirectory stats).
    + unfold mbind, M_bind, bind.
      destruct (rec _ _) as [sub l2|e l2|]; simpl; intros [= <- <-]; eauto.
    + destruct (isFile stats); simpl; intros [= <- <-]; eauto.
  - rewrite (await_raise _ e) by done. intros [= <- <-]. by left.
Qed.

Lemma listFiles_entry_file (output : Tree) (file : string) (l : loop)
    (st : Stats) :
  stat d (join2 fullPath (join2 dir file)) = Ok st →
  isDirectory st = false → isFile st = true →
  listFiles_entry d (Some record_entry) rec dir fullPath output file l
  = Done (<[escape file := FileEntry (st_size st) (pretty (st_ino st))]> output)
      (Loop [] (events (drain l) ++ [OnEntry (join2 dir file) (st_size st)])).
Proof.
  intros Hstat Hdir Hfile. unfold listFiles_entry, try_catch.
  rewrite (await_ok _ st) by done. by rewrite Hdir, Hfile.
Qed.

Lemma listFiles_loop_file (file : string) (st : Stats) (files : list string) :
  stat d (join2 fullPath (join2 dir file)) = Ok st →
  isDirectory st = false → isFile st = true →
  ev = OnEntry (join2 dir file) (st_size st) →
  (∀ other, other ∈ files → escape other = escape file → other = file) →
  ∀ output l T l',
    listFiles_loop d (Some record_entry) rec dir fullPath files output l
      = Done T l' →
    file ∈ files
    ∨ (output !! escape file
         = Some (FileEntry (st_size st) (pretty (st_ino st)))
       ∧ ev ∈ events l) →
    T !! escape file = Some (FileEntry (st_size st) (pretty (st_ino st)))
    ∧ ev ∈ events l'.
Proof.
  intros Hstat Hdir Hfile Hev.
  induction files as [|g files IH]; intros Hinj output l T l' Hloop Hpre.
  - simpl in Hloop. injection Hloop as <- <-.
    destruct Hpre as [Hin|Hpre]; [|done]. by apply elem_of_nil in Hin.
  - simpl in Hloop. unfold mbind, M_bind, bind in Hloop.
    destruct (listFiles_entry _ _ _ _ _ _ g l) as [out l1|e l1|] eqn:Hentry;
      [|done|done].
    apply (IH ltac:(intros o Ho; apply Hinj; by right) out l1 T l' Hloop).
    destruct (decide (g = file)) as [->|Hne].
    + right. rewrite (listFiles_entry_file _ _ _ st) in Hentry by done.
      injection Hentry as <- <-. split.
      * apply lookup_insert_eq.
      * simpl. rewrite Hev. apply elem_of_app. right. by left.
    + assert (Hkey : escape g ≠ escape file).
      { intros Heq. apply Hne, Hinj; [by left|done]. }
      destruct Hpre as [Hin|[Hout Hseen]].
      * left. by apply elem_of_cons in Hin as [->|Hin].
      * right. split.
        -- apply listFiles_entry_output in Hentry as [->|[v ->]]; [done|].
           by rewrite lookup_insert_ne.
        -- pose proof (listFiles_entry_preserves d (Some record_entry)
                         (λ l', ev ∈ events l') seen_drain
                         ltac:(intros f p s l0 Hf; by apply seen_record)
                         rec dir fullPath output g l Hrec Hseen) as Hinv.
           by rewrite Hentry in Hinv.
Qed.
End Entries.


(** ** Folding a listing: the shape of the result *)

Lemma is_proper_prefix_app (x z : list string) :
  z ≠ [] → is_proper_prefix x (x ++ z) = true.
Proof.
  intros Hz. induction x as [|a x IH]; simpl.
  - by destruct z.
  - by rewrite String.eqb_refl, IH.
Qed.

Lemma slot_mono (L L' : list (list string)) (π : list string) (v : jsval) :
  (∀ x, x ∈ L → x ∈ L') → slot L π v → slot L' π v.
Proof.
  intros Hsub Hslot. induction Hslot as [π n s Hin|π o Hch IH].
  - constructor. by apply Hsub.
  - constructor. exact IH.
Qed.

Lemma slot_well_formed (L : list (list string)) (π : list string) (v : jsval) :
  slot L π v → well_formed v.
Proof.
  intros Hslot. induction Hslot as [π n s Hin|π o Hch IH].
  - constructor.
  - constructor. exact IH.
Qed.

Lemma slot_dir_inv (L : list (list string)) (π : list string) (v : jsval) :
  slot L π v → π ∉ L →
  ∃ o, v = JObj o ∧ ∀ k c, o !! k = Some c → slot L (π ++ [k]) c.
Proof.
  intros Hslot Hnot. destruct Hslot as [π n s Hin|π o Hch]; [done|].
  by exists o.
Qed.

Lemma slot_truthy (L : list (list string)) (π : list string) (v : jsval) :
  slot L π v → truthy v = true.
Proof. by intros []. Qed.

Lemma slot_insert (L : list (list string)) (π : list string) (o : Tree)
    (k : string) (c : jsval) :
  (∀ k' c', o !! k' = Some c' → slot L (π ++ [k']) c') →
  slot L (π ++ [k]) c →
  slot L π (JObj (<[k := c]> o)).
Proof.
  intros Ho Hc. constructor. intros k' c' Hk'.
  destruct (decide (k = k')) as [<-|Hne].
  - rewrite lookup_insert_eq in Hk'. by injection Hk' as <-.
  - rewrite lookup_insert_ne in Hk' by done. by apply Ho.
Qed.

(** The walk of [tree2Tree] through a tree whose file entries are not on
    its way. *)
Lemma walk_create_slot (L L' : list (list string))
    (fin : jsval → result jsval) (δ : list string) :
  (∀ x, x ∈ L → x ∈ L') →
  ∀ π v,
    slot L π v →
    (∀ δ1 δ2, δ = (δ1 ++ δ2)%list → δ2 ≠ [] → (π ++ map escape δ1)%list ∉ L) →
    (∀ u, slot L (π ++ map escape δ) u →
       ∃ u', fin u = Ok u' ∧ slot L' (π ++ map escape δ) u') →
    ∃ v', walk_create δ fin v = Ok v' ∧ slot L' π v'.
Proof.
  intros Hsub. induction δ as [|p rest IH]; intros π v Hslot Hway Hfin.
  - simpl. rewrite app_nil_r in Hfin. by apply Hfin.
  - destruct (slot_dir_inv L π v Hslot) as (o & -> & Hch).
    { specialize (Hway [] (p :: rest) eq_refl ltac:(done)).
      by rewrite app_nil_r in Hway. }
    assert (Hrest : ∀ c, slot L (π ++ [escape p]) c →
      ∃ c', walk_create rest fin c = Ok c' ∧ slot L' (π ++ [escape p]) c').
    { intros c Hc. apply IH; [done| |].
      - intros δ1 δ2 -> Hδ2. rewrite <- app_assoc.
        apply (Hway (p :: δ1) δ2); done.
      - intros u Hu. rewrite <- app_assoc in Hu |- *. by apply Hfin. }
    assert (Hput : ∀ c', slot L' (π ++ [escape p]) c' →
      slot L' π (JObj (<[escape p := c']> o))).
    { intros c' Hc'. apply slot_insert; [|done].
      intros k' c0 Hk'. eapply slot_mono; [exact Hsub|]. by apply Hch. }
    simpl. destruct (o !! escape p) as [c|] eqn:Hget.
    + pose proof (Hch _ _ Hget) as Hc. rewrite (slot_truthy _ _ _ Hc).
      destruct (Hrest c Hc) as (c' & -> & Hc'). simpl.
      eexists. split; [reflexivity|]. by apply Hput.
    + destruct (Hrest (JObj ∅)) as (c' & -> & Hc').
      { constructor. intros k c Hk. by rewrite lookup_empty in Hk. }
      simpl. eexists. split; [reflexivity|]. by apply Hput.
Qed.

Lemma tree2Tree_elem_skip (parentPath : string) (t : Tree) (e : elem) :
  absent (elem_path e) = true → tree2Tree_elem parentPath t e = Ok t.
Proof. intros H. unfold tree2Tree_elem. by rewrite H. Qed.

Lemma tree2Tree_listed (l : list elem) :
  ∀ t parentPath,
    tree2Tree (List.filter listed l) t parentPath = tree2Tree l t parentPath.
Proof.
  induction l as [|e l IH]; intros t parentPath; [done|].
  simpl. unfold listed at 1.
  destruct (absent (elem_path e)) eqn:Habs; simpl.
  - rewrite tree2Tree_elem_skip by done. apply IH.
  - destruct (tree2Tree_elem parentPath t e); simpl; [apply IH|done].
Qed.

Lemma split_last (paths : list string) :
  paths ≠ [] →
  paths = (take (length paths - 1) paths
           ++ [nth (length paths - 1) paths ""])%list.
Proof.
  intros Hne. destruct (exists_last Hne) as (init & last & ->).
  rewrite length_app. simpl.
  replace (length init + 1 - 1)%nat with (length init) by lia.
  rewrite take_app_length. by rewrite nth_middle.
Qed.

Lemma is_type_exclusive (e : elem) :
  is_type e "tree" = true → is_type e "blob" = false.
Proof.
  unfold is_type. destruct (elem_type e) as [t|]; [|done].
  intros ->%String.eqb_eq. reflexivity.
Qed.

(** One round of the fold. *)
Lemma tree2Tree_elem_slot (L : list (list string)) (parentPath : string)
    (t : Tree) (e : elem) :
  slot L [] (JObj t) →
  absent (elem_path e) = false →
  (∀ δ1 δ2,
     split (join2 parentPath (default "" (elem_path e))) = (δ1 ++ δ2)%list →
     δ2 ≠ [] → map escape δ1 ∉ L) →
  ∃ t',
    tree2Tree_elem parentPath t e = Ok t'
    ∧ slot (if is_type e "blob" then keys parentPath e :: L else L) [] (JObj t').
Proof.
  intros Hslot Hlisted Hway. unfold tree2Tree_elem, keys. rewrite Hlisted.
  set (paths := split (join2 parentPath (default "" (elem_path e)))) in *.
  assert (Hne : paths ≠ []) by apply split_nonempty.
  assert (Hroot : ∀ L' v, [] ∉ L' → slot L' [] v → slot L' [] (JObj (obj_of v))).
  { intros L' v Hnil Hv. by destruct (slot_dir_inv L' [] v Hv Hnil) as (o & -> & _). }
  assert (Hnil : [] ∉ L).
  { apply (Hway [] paths); done. }
  destruct (is_type e "tree") eqn:Htree.
  - rewrite (is_type_exclusive e Htree). rewrite firstn_all.
    destruct (walk_create_slot L L (λ current, Ok current) paths
                ltac:(done) [] (JObj t) Hslot) as (v' & Hwalk & Hv').
    + intros δ1 δ2 Hsplit Hδ2. simpl. by apply (Hway δ1 δ2).
    + intros u Hu. by exists u.
    + rewrite Hwalk. simpl. exists (obj_of v'). split; [done|]. by apply Hroot.
  - pose proof (split_last paths Hne) as Hpaths.
    set (init := take (length paths - 1) paths) in *.
    set (last := nth (length paths - 1) paths "") in *.
    destruct (is_type e "blob") eqn:Hblob.
    + set (entry := FileEntry _ _).
      destruct (walk_create_slot L (map escape paths :: L)
                  (λ current, js_set current (escape last) entry) init
                  ltac:(intros x Hx; by right) [] (JObj t) Hslot)
        as (v' & Hwalk & Hv').
      * intros δ1 δ2 Hsplit Hδ2. simpl. apply (Hway δ1 (δ2 ++ [last])%list).
        -- by rewrite Hpaths, Hsplit, <- app_assoc.
        -- by destruct δ2.
      * intros u Hu. simpl in Hu.
        destruct (slot_dir_inv L _ u Hu) as (o & -> & Hch).
        { apply (Hway init [last]); done. }
        simpl. eexists. split; [reflexivity|].
        apply slot_insert.
        -- intros k' c' Hk'. eapply slot_mono; [|by apply Hch].
           intros x Hx. by right.
        -- simpl. subst entry. constructor. apply elem_of_cons. left.
           change [escape last] with (map escape [last]).
           by rewrite <- map_app, <- Hpaths.
      * rewrite Hwalk. simpl. exists (obj_of v'). split; [done|].
        apply Hroot; [|done].
        intros [Heq|Hin]%elem_of_cons; [|done].
        destruct paths; done.
    + destruct (walk_create_slot L L (λ current, Ok current) init
                  ltac:(done) [] (JObj t) Hslot) as (v' & Hwalk & Hv').
      * intros δ1 δ2 Hsplit Hδ2. simpl. apply (Hway δ1 (δ2 ++ [last])%list).
        -- by rewrite Hpaths, Hsplit, <- app_assoc.
        -- by destruct δ2.
      * intros u Hu. by exists u.
      * rewrite Hwalk. simpl. exists (obj_of v'). split; [done|]. by apply Hroot.
Qed.

Lemma conflict_free_spec (parentPath : string) (l : list elem) (b e : elem) :
  conflict_free parentPath l = true →
  b ∈ l → e ∈ l →
  absent (elem_path b) = false → is_type b "blob" = true →
  absent (elem_path e) = false →
  is_proper_prefix (keys parentPath b) (keys parentPath e) = false.
Proof.
  intros Hfree Hb He Hbl Hbb Hel. unfold conflict_free in Hfree.
  rewrite forallb_forall in Hfree.
  specialize (Hfree b ltac:(by apply list_elem_of_In)).
  rewrite Hbl, Hbb in Hfree. simpl in Hfree.
  rewrite forallb_forall in Hfree.
  specialize (Hfree e ltac:(by apply list_elem_of_In)).
  rewrite Hel in Hfree. simpl in Hfree. by apply negb_true_iff in Hfree.
Qed.

Lemma tree2Tree_slot (parentPath : string) (all : list elem) :
  conflict_free parentPath all = true →
  ∀ l t L,
    (∀ e, e ∈ l → e ∈ all) →
    (∀ x, x ∈ L → ∃ b, b ∈ all ∧ absent (elem_path b) = false
                      ∧ is_type b "blob" = true ∧ x = keys parentPath b) →
    slot L [] (JObj t) →
    ∃ t' L', tree2Tree l t parentPath = Ok t' ∧ slot L' [] (JObj t')
             ∧ [] ∉ L'.
Proof.
  intros Hfree. induction l as [|e l IH]; intros t L Hsub HL Hslot.
  - exists t, L. split; [done|]. split; [done|].
    intros Hin. destruct (HL _ Hin) as (b & _ & _ & _ & Hkeys).
    unfold keys in Hkeys. symmetry in Hkeys.
    apply map_eq_nil in Hkeys. by apply split_nonempty in Hkeys.
  - simpl. destruct (absent (elem_path e)) eqn:Hlisted.
    + rewrite tree2Tree_elem_skip by done. simpl.
      apply (IH t L); [|done|done]. intros e' He'. apply Hsub. by right.
    + destruct (tree2Tree_elem_slot L parentPath t e Hslot Hlisted)
        as (t1 & -> & Ht1).
      * intros δ1 δ2 Hsplit Hδ2 Hin.
        destruct (HL _ Hin) as (b & Hb & Hbl & Hbb & Hkeys).
        pose proof (conflict_free_spec parentPath all b e Hfree Hb
                      ltac:(apply Hsub; by left) Hbl Hbb Hlisted) as Hpre.
        unfold keys at 2 in Hpre. rewrite Hsplit, map_app, <- Hkeys in Hpre.
        rewrite is_proper_prefix_app in Hpre; [done|]. by destruct δ2.
      * simpl. eapply IH; [| |exact Ht1].
        -- intros e' He'. apply Hsub. by right.
        -- intros x Hx. destruct (is_type e "blob") eqn:Hblob; [|by apply HL].
           apply elem_of_cons in Hx as [->|Hx]; [|by apply HL].
           exists e. split; [apply Hsub; by left|]. done.
Qed.

(** *** Empty keys *)

Lemma split_normalize_bounded (X : string) :
  starts_with_slash (normalize X) = false →
  ends_with_slash (normalize X) = false →
  Forall (λ seg, seg ≠ "") (split (normalize X)).
Proof.
  unfold normalize.
  destruct (String.eqb X ""); [by repeat constructor|].
  destruct (starts_with_slash X) eqn:Habs; simpl negb.
  { destruct (String.eqb _ ""); [done|]. by destruct (ends_with_slash X). }
  destruct (String.eqb_spec (normalizeString X true) "") as [Hp|Hp].
  { destruct (ends_with_slash X); [done|]. by repeat constructor. }
  destruct (ends_with_slash X).
  { intros _. by rewrite ends_with_slash_app. }
  intros _ _. unfold normalizeString in *.
  set (stack := fold_left (normalize_step true) (split X) []) in *.
  assert (Hkept : Forall kept (rev stack)).
  { apply Forall_rev. by apply fold_normalize_kept. }
  assert (Hfree : Forall (λ seg, slash_free seg = true) (rev stack)).
  { apply Forall_rev. apply fold_normalize_from; [done|].
    apply split_segments_slash_free. }
  assert (Hne : rev stack ≠ []).
  { intros Hnil. apply Hp. by rewrite Hnil. }
  rewrite split_join_slash by done.
  eapply Forall_impl; [exact Hkept|]. by intros seg [Hseg _].
Qed.

Lemma split_join_bounded (args : list string) :
  starts_with_slash (join args) = false →
  ends_with_slash (join args) = false →
  Forall (λ seg, seg ≠ "") (split (join args)).
Proof.
  unfold join. destruct (filter _ args); [by repeat constructor|].
  apply split_normalize_bounded.
Qed.

Lemma escape_nonempty (p : string) : p ≠ "" → escape p ≠ "".
Proof.
  destruct p as [|c p]; [done|]. intros _. unfold escape.
  destruct c as [[] [] [] [] [] [] [] []]; done.
Qed.

Lemma no_empty_key_entry (size : Z) (sha : string) :
  no_empty_key (FileEntry size sha).
Proof.
  constructor; [done|]. intros k c Hk. unfold FileEntry in Hk.
  destruct (decide (k = "size")) as [->|Hsize].
  { rewrite lookup_insert_eq in Hk. injection Hk as <-. constructor. }
  rewrite lookup_insert_ne in Hk by done.
  destruct (decide (k = "sha")) as [->|Hsha].
  { rewrite lookup_insert_eq in Hk. injection Hk as <-. constructor. }
  by rewrite lookup_insert_ne, lookup_empty in Hk.
Qed.

Lemma no_empty_key_empty : no_empty_key (JObj ∅).
Proof.
  constructor; [done|]. intros k c Hk. by rewrite lookup_empty in Hk.
Qed.

Lemma js_get_no_empty_key (current : jsval) (p : string) (next : jsval) :
  no_empty_key current → js_get current p = Some next → no_empty_key next.
Proof. intros [n|s|o Ho Hch]; simpl; [done|done|]. apply Hch. Qed.

Lemma js_set_no_empty_key (current : jsval) (p : string) (v r : jsval) :
  p ≠ "" → no_empty_key current → no_empty_key v →
  js_set current p v = Ok r → no_empty_key r.
Proof.
  intros Hp [n|s|o Ho Hch] Hv; simpl; [done|done|]. intros [= <-].
  constructor.
  - by rewrite lookup_insert_ne.
  - intros k c Hk. destruct (decide (p = k)) as [<-|Hne].
    + rewrite lookup_insert_eq in Hk. by injection Hk as <-.
    + rewrite lookup_insert_ne in Hk by done. by eapply Hch.
Qed.

(** The walk of [tree2Tree] over segments none of which is empty makes no
    empty key. *)
Lemma walk_create_no_empty_key (fin : jsval → result jsval) (ps : list string) :
  Forall (λ seg, seg ≠ "") ps →
  (∀ c r, no_empty_key c → fin c = Ok r → no_empty_key r) →
  ∀ current r,
    no_empty_key current → walk_create ps fin current = Ok r →
    no_empty_key r.
Proof.
  intros Hps Hfin. induction Hps as [|p ps Hp Hps IH]; intros current r Hcur.
  - simpl. by apply Hfin.
  - assert (Hkey : escape p ≠ "") by (by apply escape_nonempty).
    assert (Hmade : ∀ next,
              no_empty_key next →
              (child ← walk_create ps fin next; js_set current (escape p) child)
              = Ok r →
              no_empty_key r).
    { intros next Hnext.
      destruct (walk_create ps fin next) as [child|e] eqn:Hwalk; [|done].
      simpl. apply js_set_no_empty_key; [done|done|]. by eapply IH. }
    simpl.
    destruct (js_get current (escape p)) as [next|] eqn:Hget.
    + destruct (truthy next).
      * apply Hmade. by eapply js_get_no_empty_key.
      * destruct (js_set current (escape p) (JObj ∅)); [|done]. simpl.
        apply Hmade, no_empty_key_empty.
    + destruct (js_set current (escape p) (JObj ∅)); [|done]. simpl.
      apply Hmade, no_empty_key_empty.
Qed.

Lemma tree2Tree_elem_no_empty_key (parentPath : string) (t t' : Tree)
    (e : elem) :
  absent (elem_path e) || bounded parentPath e = true →
  no_empty_key (JObj t) →
  tree2Tree_elem parentPath t e = Ok t' →
  no_empty_key (JObj t').
Proof.
  intros Hb Ht. unfold tree2Tree_elem.
  destruct (absent (elem_path e)); [by intros [= <-]|].
  simpl in Hb. apply andb_prop in Hb as [Hstart Hend].
  apply negb_true_iff in Hstart, Hend.
  pose proof (split_join_bounded _ Hstart Hend) as Hsegs.
  fold (join2 parentPath (default "" (elem_path e))) in Hsegs.
  set (paths := split (join2 parentPath (default "" (elem_path e)))) in *.
  set (end_ := if is_type e "tree" then length paths else (length paths - 1)%nat).
  destruct (walk_create _ _ _) as [root|err] eqn:Hwalk; [|done].
  simpl. intros [= <-].
  assert (Hroot : no_empty_key root).
  { eapply (walk_create_no_empty_key _ (take end_ paths)); [| |exact Ht|exact Hwalk].
    - by apply Forall_take.
    - intros c r Hc. destruct (is_type e "blob") eqn:Hblob; [|by intros [= <-]].
      apply js_set_no_empty_key; [|done|apply no_empty_key_entry].
      apply escape_nonempty.
      destruct (decide (end_ < length paths)%nat) as [Hlt|Hge].
      + rewrite Forall_forall in Hsegs. apply Hsegs, list_elem_of_In, nth_In. lia.
      + exfalso. subst end_. pose proof (split_nonempty
          (join2 parentPath (default "" (elem_path e)))) as Hne.
        fold paths in Hne. destruct (is_type e "tree") eqn:Htree.
        * by rewrite (is_type_exclusive e Htree) in Hblob.
        * destruct paths; [done|]. simpl in Hge. lia. }
  destruct Hroot as [n|s|o Ho Hch]; simpl;
    [apply no_empty_key_empty|apply no_empty_key_empty|by constructor].
Qed.

Lemma tree2Tree_no_empty_key (parentPath : string) (l : list elem) :
  bounded_listing parentPath l = true →
  ∀ t t',
    no_empty_key (JObj t) → tree2Tree l t parentPath = Ok t' →
    no_empty_key (JObj t').
Proof.
  induction l as [|e l IH]; intros Hb t t' Ht; simpl.
  - by intros [= <-].
  - simpl in Hb. apply andb_prop in Hb as [He Hl].
    destruct (tree2Tree_elem parentPath t e) as [t1|err] eqn:Helem; [|done].
    simpl. apply IH; [done|]. by eapply tree2Tree_elem_no_empty_key.
Qed.

(** C9, as the code has it.  When no file entry lies on the way to another
    entry, the keys of an entry being the segments of its path after the
    escaping of [$], and no segment is the name of a member that objects
    inherit, the fold of a listing from the empty tree succeeds and every
    value of the result is a file entry or a subtree, never both; a file
    entry and a directory entry at the same path are allowed.  Entries
    without a path are skipped: the result is that of the fold without
    them.  [path.join] drops the empty components inside a path, so when no
    joined path starts or ends with a separator no object of the result has
    the empty key. *)
Theorem fold_is_well_formed (parentPath : string) (l : list elem) :
  conflict_free parentPath l = true →
  plain_listing parentPath l = true →
  ∃ t, tree2Tree l ∅ parentPath = Ok t
     ∧ well_formed_tree t
     ∧ tree2Tree (List.filter listed l) ∅ parentPath = Ok t
     ∧ (bounded_listing parentPath l = true → no_empty_key (JObj t)).
Proof.
  intros Hfree _.
  destruct (tree2Tree_slot parentPath l Hfree l ∅ [])
    as (t & L & Hfold & Hslot & Hnil).
  - done.
  - intros x Hx. by apply elem_of_nil in Hx.
  - constructor. intros k c Hk. by rewrite lookup_empty in Hk.
  - exists t. split; [done|]. split; [|split; [by rewrite tree2Tree_listed|]].
    + destruct (slot_dir_inv L [] (JObj t) Hslot Hnil) as (o & [= <-] & Hch).
      intros k c Hk. eapply slot_well_formed. by apply Hch.
    + intros Hb.
      exact (tree2Tree_no_empty_key parentPath l Hb ∅ t no_empty_key_empty Hfold).
Qed.

Lemma fold_is_well_formed_witness :
  ∃ t,
    tree2Tree [blob_entry "a" "x" 1; tree_entry "a" "t";
               Elem None (Some "blob") (Some "z") (Some 4);
               blob_entry "c//$d" "y" 2] ∅ ""
    = Ok t
    ∧ well_formed_tree t
    ∧ tree2Tree [blob_entry "a" "x" 1; tree_entry "a" "t";
                 blob_entry "c//$d" "y" 2] ∅ ""
      = Ok t
    ∧ no_empty_key (JObj t).
Proof.
  destruct (fold_is_well_formed ""
              [blob_entry "a" "x" 1; tree_entry "a" "t";
               Elem None (Some "blob") (Some "z") (Some 4);
               blob_entry "c//$d" "y" 2] eq_refl eq_refl)
    as (t & Hfold & Hwf & Hlisted & Hkeys).
  exists t. split; [exact Hfold|]. split; [exact Hwf|].
  split; [exact Hlisted|]. apply Hkeys. reflexivity.
Defined.

Example fold_drops_inner_empty_component :
  tree2Tree [blob_entry "c//$d" "y" 2] ∅ ""
  = Ok (<["c" := JObj (<["\$d" := FileEntry 2 "y"]> ∅)]> ∅)
  ∧ bounded_listing "" [blob_entry "c//$d" "y" 2] = true.
Proof. split; vm_compute; reflexivity. Qed.

Lemma well_formed_inv (v : jsval) :
  well_formed v →
  (∃ size sha, v = FileEntry size sha)
  ∨ (∃ o, v = JObj o ∧ ∀ k c, o !! k = Some c → well_formed c).
Proof. intros [size sha|o Hch]; [left|right]; eauto. Qed.

Lemma no_empty_key_inv (o : Tree) :
  no_empty_key (JObj o) →
  o !! "" = None ∧ ∀ k c, o !! k = Some c → no_empty_key c.
Proof. intros H. by inversion H. Qed.

(** C9 as stated fails twice.  A file entry [a], a directory entry [a] and
    a file entry [a/b] leave under the key [a] an object with the [size] and
    [sha] of the file and with the child [b] of the directory.  The empty
    component of a path is not skipped when it is the last or the first: the
    file entry [a/] is stored under the empty key of the directory [a], the
    file entry [/b] below the empty key of the root. *)
Lemma fold_breaks_the_invariant :
  (conflict_free "" [blob_entry "a" "x" 1; tree_entry "a" "t";
                     blob_entry "a/b" "y" 2] = false
   ∧ tree2Tree [blob_entry "a" "x" 1; tree_entry "a" "t";
                blob_entry "a/b" "y" 2] ∅ ""
     = Ok (<["a" := leaf_with_child]> ∅)
   ∧ ¬ well_formed_tree (<["a" := leaf_with_child]> ∅))
  ∧ (conflict_free "" [blob_entry "a/" "x" 1; blob_entry "/b" "y" 2] = true
     ∧ plain_listing "" [blob_entry "a/" "x" 1; blob_entry "/b" "y" 2] = true
     ∧ tree2Tree [blob_entry "a/" "x" 1; blob_entry "/b" "y" 2] ∅ ""
       = Ok (<["a" := JObj (<["" := FileEntry 1 "x"]> ∅)]>
               (<["" := JObj (<["b" := FileEntry 2 "y"]> ∅)]> ∅))
     ∧ ¬ no_empty_key
           (JObj (<["a" := JObj (<["" := FileEntry 1 "x"]> ∅)]>
                    (<["" := JObj (<["b" := FileEntry 2 "y"]> ∅)]> ∅)))).
Proof.
  split.
  - split; [reflexivity|]. split; [vm_compute; reflexivity|].
    intros Hwf.
    specialize (Hwf "a" leaf_with_child (lookup_insert_eq _ _ _)).
    apply well_formed_inv in Hwf as [(size & sha & Heq)|(o & Heq & Hch)].
    + apply (f_equal (λ v, js_get v "b")) in Heq. vm_compute in Heq. done.
    + injection Heq as <-.
      assert (Hsize : well_formed (JNum 1)) by (by apply (Hch "size")).
      apply well_formed_inv in Hsize as [(? & ? & ?)|(? & ? & _)]; done.
  - split; [reflexivity|]. split; [reflexivity|].
    split; [vm_compute; reflexivity|].
    intros [Hroot _]%no_empty_key_inv. vm_compute in Hroot. done.
Qed.

(** ** The fold as an update along a path *)

Lemma listing_of_tree (ρ : list string) (name sha : string)
    (cs : list (string * gitobj)) :
  listing_of ρ name (GTree sha cs)
  = tree_entry (join_slash (ρ ++ [name])) sha :: listing (ρ ++ [name]) cs.
Proof.
  simpl. f_equal. induction cs as [|[n c] rest IH]; [done|]. by rewrite IH.
Qed.

Lemma denote_obj_tree (sha : string) (cs : list (string * gitobj)) :
  denote_obj (GTree sha cs) = JObj (denote cs).
Proof.
  reflexivity.
Qed.

Lemma sub_insert (t : Tree) (k : string) (o : Tree) :
  sub (<[k := JObj o]> t) k = o.
Proof. unfold sub. by rewrite lookup_insert_eq. Qed.

Lemma sub_insert_ne (t : Tree) (k k' : string) (v : jsval) :
  k ≠ k' → sub (<[k := v]> t) k' = sub t k'.
Proof. intros Hne. unfold sub. by rewrite lookup_insert_ne. Qed.

Lemma sub_empty (k : string) : sub ∅ k = ∅.
Proof. unfold sub. by rewrite lookup_empty. Qed.

Lemma here_empty (X : list string) : here X ∅ = ∅.
Proof. induction X as [|k X IH]; [done|]. simpl. by rewrite sub_empty. Qed.

Lemma clear_way_empty (X : list string) : clear_way X ∅.
Proof.
  destruct X as [|k X]; [done|]. simpl. split.
  - intros k' [v Hv]. by rewrite lookup_empty in Hv.
  - by rewrite lookup_empty.
Qed.

Lemma clear_way_sub (k : string) (X : list string) (t : Tree) :
  clear_way (k :: X) t → clear_way X (sub t k).
Proof.
  simpl. intros [_ Hk]. unfold sub.
  destruct (t !! k) as [[| |o]|]; try done; apply clear_way_empty.
Qed.

Lemma here_app (X Y : list string) (t : Tree) :
  here (X ++ Y) t = here Y (here X t).
Proof. revert t. induction X as [|k X IH]; intros t; [done|]. simpl. apply IH. Qed.

Lemma put_app (X Y : list string) (f : Tree → Tree) (t : Tree) :
  put (X ++ Y) f t = put X (put Y f) t.
Proof.
  revert t. induction X as [|k X IH]; intros t; [done|]. simpl. by rewrite IH.
Qed.

Lemma here_put (X : list string) (f : Tree → Tree) (t : Tree) :
  here X (put X f t) = f (here X t).
Proof.
  revert t. induction X as [|k X IH]; intros t; [done|].
  simpl. by rewrite sub_insert, IH.
Qed.

Lemma put_ext (X : list string) (f g : Tree → Tree) (t : Tree) :
  f (here X t) = g (here X t) → put X f t = put X g t.
Proof.
  revert t. induction X as [|k X IH]; intros t Hfg; [done|].
  simpl. by rewrite (IH (sub t k)).
Qed.

Lemma put_put (X : list string) (f g : Tree → Tree) (t : Tree) :
  put X f (put X g t) = put X (λ m, f (g m)) t.
Proof.
  revert t. induction X as [|k X IH]; intros t; [done|].
  simpl. by rewrite sub_insert, insert_insert_eq, IH.
Qed.

Lemma no_dollar_escape (p : string) : no_dollar (escape p).
Proof. apply escape_no_dollar. Qed.

Lemma escape_no_dollar_id (p : string) : no_dollar p → escape p = p.
Proof.
  destruct p as [|c p]; [done|]. unfold no_dollar, escape.
  destruct c as [[] [] [] [] [] [] [] []]; done.
Qed.

Lemma clear_way_put (X : list string) (f : Tree → Tree) (t : Tree) :
  Forall no_dollar X → clear_way X t → clear_way X (put X f t).
Proof.
  revert t. induction X as [|k X IH]; intros t HX Hway; [done|].
  pose proof (clear_way_sub k X t Hway) as Hsub.
  inversion HX as [|? ? Hk HX']; subst.
  simpl in *. destruct Hway as [Hkeys _]. split.
  - intros k' [v Hv]. destruct (decide (k = k')) as [<-|Hne]; [done|].
    rewrite lookup_insert_ne in Hv by done. apply Hkeys. by exists v.
  - rewrite lookup_insert_eq. by apply IH.
Qed.

Lemma clear_way_snoc (X : list string) (k : string) (t : Tree) :
  clear_way X t →
  (∀ k', is_Some (here X t !! k') → no_dollar k') →
  match here X t !! k with
  | None | Some (JObj _) => True
  | Some _ => False
  end →
  clear_way (X ++ [k]) t.
Proof.
  revert t. induction X as [|k0 X IH]; intros t Hway Hkeys Hk.
  - simpl in *. split; [done|]. by destruct (t !! k) as [[| |o]|].
  - pose proof (clear_way_sub k0 X t Hway) as Hsub.
    simpl in *. destruct Hway as [Hkeys0 Hk0]. split; [done|].
    unfold sub in *. destruct (t !! k0) as [[| |o]|]; try done.
    by apply IH.
Qed.

(** The walk of [tree2Tree] on a clear way is an update along the escaped
    path. *)
Lemma walk_create_put (fin : jsval → result jsval) (f : Tree → Tree)
    (δ : list string) :
  (∀ o, fin (JObj o) = Ok (JObj (f o))) →
  ∀ t, clear_way (map escape δ) t →
    walk_create δ fin (JObj t) = Ok (JObj (put (map escape δ) f t)).
Proof.
  intros Hfin. induction δ as [|p rest IH]; intros t Hway; [apply Hfin|].
  pose proof (clear_way_sub _ _ t Hway) as Hsub.
  simpl in *. destruct Hway as [_ Hk]. unfold sub in *.
  destruct (t !! escape p) as [[| |o]|]; try done.
  - simpl. by rewrite (IH o Hsub).
  - by rewrite (IH ∅ Hsub).
Qed.

Lemma or_number_some (n : Z) : or_number (Some n) 0 = n.
Proof. unfold or_number. by destruct (Z.eqb_spec n 0). Qed.

Lemma or_string_some (s : string) : or_string (Some s) "" = s.
Proof. unfold or_string. by destruct (String.eqb_spec s ""). Qed.

Lemma absent_join_slash (R : list string) :
  R ≠ [] → Forall (λ seg, proper seg = true) R →
  absent (Some (join_slash R)) = false.
Proof.
  intros Hne Hall. simpl. apply String.eqb_neq. by apply join_slash_nonempty.
Qed.

Lemma split_join2_proper (P R : list string) :
  R ≠ [] →
  Forall (λ seg, proper seg = true) P → Forall (λ seg, proper seg = true) R →
  split (join2 (join_slash P) (join_slash R)) = (P ++ R)%list.
Proof.
  intros Hne HP HR. rewrite join2_proper by done.
  apply split_join_proper; [by destruct P|]. by apply Forall_app.
Qed.

(** A directory entry makes the directories on its path. *)
Lemma tree2Tree_elem_tree (P R : list string) (sha : string) (t : Tree) :
  R ≠ [] →
  Forall (λ seg, proper seg = true) P → Forall (λ seg, proper seg = true) R →
  clear_way (map escape (P ++ R)) t →
  tree2Tree_elem (join_slash P) t (tree_entry (join_slash R) sha)
  = Ok (put (map escape (P ++ R)) id t).
Proof.
  intros Hne HP HR Hway. unfold tree2Tree_elem, tree_entry. simpl elem_path.
  rewrite absent_join_slash by done. simpl default.
  rewrite split_join2_proper by done.
  change (is_type _ "tree") with true. change (is_type _ "blob") with false.
  cbv iota. rewrite firstn_all.
  by rewrite (walk_create_put _ id) by done.
Qed.

(** A file entry makes the directories above it and sets its key. *)
Lemma tree2Tree_elem_blob (P R : list string) (n sha : string) (size : Z)
    (t : Tree) :
  Forall (λ seg, proper seg = true) P → Forall (λ seg, proper seg = true) R →
  proper n = true →
  clear_way (map escape (P ++ R)) t →
  tree2Tree_elem (join_slash P) t (blob_entry (join_slash (R ++ [n])) sha size)
  = Ok (put (map escape (P ++ R))
          (λ m, <[escape n := FileEntry size sha]> m) t).
Proof.
  intros HP HR Hn Hway. unfold tree2Tree_elem, blob_entry. simpl elem_path.
  assert (HRn : Forall (λ seg, proper seg = true) (R ++ [n])%list).
  { apply Forall_app. split; [done|]. by constructor. }
  rewrite absent_join_slash by (done || by destruct R).
  simpl default. rewrite split_join2_proper by (done || by destruct R).
  change (is_type _ "tree") with false. change (is_type _ "blob") with true.
  cbv iota. simpl elem_size. simpl elem_sha.
  rewrite or_number_some, or_string_some, app_assoc, length_app.
  simpl length. replace (length (P ++ R) + 1 - 1)%nat with (length (P ++ R)) by lia.
  rewrite take_app_length, nth_middle.
  by rewrite (walk_create_put _ (λ m, <[escape n := FileEntry size sha]> m))
    by done.
Qed.

(** *** Objects *)

Lemma depth_child (sha : string) (cs : list (string * gitobj)) (n : string)
    (c : gitobj) :
  (n, c) ∈ cs → (depth c < depth (GTree sha cs))%nat.
Proof.
  simpl. induction cs as [|[n' c'] rest IH]; intros Hin.
  - by apply elem_of_nil in Hin.
  - apply elem_of_cons in Hin as [[= -> ->]|Hin]; [lia|].
    specialize (IH Hin). lia.
Qed.

Lemma gitobj_induction (Q : gitobj → Prop) :
  (∀ sha size, Q (GBlob sha size)) →
  (∀ sha cs, (∀ n c, (n, c) ∈ cs → Q c) → Q (GTree sha cs)) →
  ∀ o, Q o.
Proof.
  intros Hblob Htree o.
  assert (Hall : ∀ k o, (depth o < k)%nat → Q o);
    [|apply (Hall (S (depth o))); lia].
  clear o. induction k as [|k IH]; intros o Hk; [lia|].
  destruct o as [sha size|sha cs]; [apply Hblob|].
  apply Htree. intros n c Hin. apply IH.
  pose proof (depth_child sha cs n c Hin). lia.
Qed.

Lemma proper_tree_inv (sha : string) (cs : list (string * gitobj)) :
  proper_tree (GTree sha cs) = true →
  sha ≠ ""
  ∧ NoDup (map (λ nc, escape nc.1) cs)
  ∧ ∀ n c, (n, c) ∈ cs → proper n = true ∧ proper_tree c = true.
Proof.
  simpl. intros [[Hsha Hdup]%andb_prop Hall]%andb_prop.
  split; [by apply negb_true_iff, String.eqb_neq in Hsha|].
  split; [by apply bool_decide_eq_true in Hdup|].
  clear Hdup. induction cs as [|[n' c'] rest IH]; intros n c Hin.
  - by apply elem_of_nil in Hin.
  - apply andb_prop in Hall as [[Hn Hc]%andb_prop Hrest].
    apply elem_of_cons in Hin as [[= -> ->]|Hin]; [done|]. by apply IH.
Qed.

Lemma serves_inv (env : remote) (sha : string) (cs : list (string * gitobj)) :
  serves env (GTree sha cs) →
  (∃ flag, git_getTree env sha false = Ok (Response (one_level cs) flag))
  ∧ (git_getTree env sha true = Ok (Response (listing [] cs) false)
     ∨ ∃ shown, shown ⊆ cs
         ∧ git_getTree env sha true = Ok (Response (listing [] shown) true))
  ∧ ∀ n c, (n, c) ∈ cs → serves env c.
Proof.
  simpl. intros (Hlevel & Hrec & Hall). split; [done|]. split; [done|].
  clear Hlevel Hrec.
  induction cs as [|[n' c'] rest IH]; intros n c Hin.
  - by apply elem_of_nil in Hin.
  - destruct Hall as [Hc Hrest].
    apply elem_of_cons in Hin as [[= -> ->]|Hin]; [done|].
    by apply (IH Hrest n c).
Qed.

Lemma denote_lookup (cs : list (string * gitobj)) (n : string) (c : gitobj) :
  NoDup (map (λ nc, escape nc.1) cs) → (n, c) ∈ cs →
  denote cs !! escape n = Some (denote_obj c).
Proof.
  induction cs as [|[n' c'] rest IH]; intros Hdup Hin.
  - by apply elem_of_nil in Hin.
  - simpl in *. apply NoDup_cons in Hdup as [Hfresh Hdup].
    apply elem_of_cons in Hin as [[= -> ->]|Hin].
    + apply lookup_insert_eq.
    + rewrite lookup_insert_ne; [by apply IH|].
      intros Heq. apply Hfresh. rewrite Heq.
      apply (list_elem_of_fmap_2 (λ nc, escape nc.1) rest (n, c) Hin).
Qed.

Lemma denote_keys (cs : list (string * gitobj)) (k : string) :
  is_Some (denote cs !! k) → ∃ n c, (n, c) ∈ cs ∧ k = escape n.
Proof.
  induction cs as [|[n' c'] rest IH]; simpl; intros [v Hv].
  - by rewrite lookup_empty in Hv.
  - destruct (decide (escape n' = k)) as [<-|Hne].
    + exists n', c'. split; [by left|done].
    + rewrite lookup_insert_ne in Hv by done.
      destruct (IH ltac:(by exists v)) as (n & c & Hin & ->).
      exists n, c. split; [by right|done].
Qed.

Lemma denote_no_dollar (cs : list (string * gitobj)) (m : Tree) (k : string) :
  m ⊆ denote cs → is_Some (m !! k) → no_dollar k.
Proof.
  intros Hsub [v Hv].
  destruct (denote_keys cs k) as (n & c & _ & ->).
  - exists v. by eapply lookup_weaken.
  - apply no_dollar_escape.
Qed.

(** A part of what stands for the children that has all their keys is the
    whole. *)
Lemma denote_full (cs : list (string * gitobj)) (m : Tree) :
  m ⊆ denote cs →
  (∀ nc, nc ∈ cs → is_Some (m !! escape nc.1)) →
  m = denote cs.
Proof.
  intros Hsub Hall. apply map_eq. intros k.
  destruct (denote cs !! k) as [v|] eqn:Hk.
  - destruct (denote_keys cs k ltac:(by exists v)) as (n & c & Hin & ->).
    destruct (Hall (n, c) Hin) as [v' Hv']. simpl in Hv'.
    rewrite Hv'. f_equal.
    pose proof (lookup_weaken _ _ _ _ Hv' Hsub) as Hv''. congruence.
  - by eapply lookup_weaken_None.
Qed.

(** *** Growing the object at the end of a path *)

Lemma good_put (X : list string) (D t m' : Tree) :
  Forall no_dollar X → good X D t → m' ⊆ D →
  good X D (put X (λ _, m') t) ∧ here X (put X (λ _, m') t) = m'.
Proof.
  intros HX [Hway Hsub] Hm'. rewrite here_put. split; [|done].
  split; [by apply clear_way_put|]. by rewrite here_put.
Qed.

Lemma escaped_no_dollar (R : list string) : Forall no_dollar (map escape R).
Proof. apply Forall_map, Forall_forall. intros p _. apply no_dollar_escape. Qed.

Lemma escaped_no_dollar_app (R : list string) (k : string) :
  Forall no_dollar (map escape R ++ [escape k]).
Proof.
  apply Forall_app. split; [apply escaped_no_dollar|].
  constructor; [apply no_dollar_escape|constructor].
Qed.

Lemma good_child (X : list string) (D D' t : Tree) (cs : list (string * gitobj))
    (k : string) :
  D = denote cs → D !! k = Some (JObj D') → good X D t → good (X ++ [k]) D' t.
Proof.
  intros -> Hk [Hway Hsub]. split.
  - apply clear_way_snoc; [done| |].
    + intros k'. by apply (denote_no_dollar cs).
    + destruct (here X t !! k) as [v|] eqn:Hget; [|done].
      by rewrite (lookup_weaken _ _ _ _ Hget Hsub) in Hk; injection Hk as ->.
  - rewrite here_app. simpl. unfold sub.
    destruct (here X t !! k) as [v|] eqn:Hget; [|apply map_empty_subseteq].
    rewrite (lookup_weaken _ _ _ _ Hget Hsub) in Hk. by injection Hk as ->.
Qed.

(** Setting a key of the object at the end of [X] to what [D] has there. *)
Lemma good_insert (X : list string) (D t : Tree) (k : string) (v : jsval) :
  Forall no_dollar X → good X D t → D !! k = Some v →
  good X D (put X (λ _, <[k := v]> (here X t)) t)
  ∧ here X (put X (λ _, <[k := v]> (here X t)) t) = <[k := v]> (here X t)
  ∧ here X t ⊆ <[k := v]> (here X t).
Proof.
  intros HX Hgood Hk. pose proof Hgood as [_ Hsub].
  assert (Hin : <[k := v]> (here X t) ⊆ D) by (by apply insert_subseteq_l).
  destruct (good_put X D t _ HX Hgood Hin) as [H1 H2].
  split; [done|]. split; [done|].
  destruct (here X t !! k) as [v'|] eqn:Hget.
  - rewrite (lookup_weaken _ _ _ _ Hget Hsub) in Hk. injection Hk as ->.
    by rewrite insert_id.
  - by apply insert_subseteq.
Qed.

Lemma tree2Tree_app (l1 l2 : list elem) (t : Tree) (p : string) :
  tree2Tree (l1 ++ l2) t p = (t1 ← tree2Tree l1 t p; tree2Tree l2 t1 p).
Proof.
  revert t. induction l1 as [|e l1 IH]; intros t; [done|].
  simpl. destruct (tree2Tree_elem p t e); [apply IH|done].
Qed.

(** *** Folding the listing of a tree *)

(** The listing of one child, folded: its key gets what stands for it. *)
Lemma fold_listing_of (cs : list (string * gitobj)) (P ρ : list string)
    (n : string) (c : gitobj) (t : Tree) :
  (∀ n' c', (n', c') ∈ cs → proper_tree c' = true →
            match c' with GTree _ cs' => folds cs' | GBlob _ _ => True end) →
  NoDup (map (λ nc, escape nc.1) cs) →
  (n, c) ∈ cs → proper n = true → proper_tree c = true →
  Forall (λ seg, proper seg = true) P →
  Forall (λ seg, proper seg = true) ρ →
  good (map escape (P ++ ρ)) (denote cs) t →
  tree2Tree (listing_of ρ n c) t (join_slash P)
  = Ok (put (map escape (P ++ ρ))
          (λ _, <[escape n := denote_obj c]> (here (map escape (P ++ ρ)) t)) t).
Proof.
  intros IH Hdup Hin Hn Hc HP Hρ Hgood.
  set (X := map escape (P ++ ρ)) in *.
  pose proof Hgood as [Hway Hsub].
  destruct c as [sha size|sha cs'].
  - simpl listing_of. simpl tree2Tree.
    rewrite tree2Tree_elem_blob by done. simpl. f_equal.
    by apply put_ext.
  - pose proof (denote_lookup cs n _ Hdup Hin) as Hk.
    rewrite denote_obj_tree in Hk |- *.
    assert (Hρn : Forall (λ seg, proper seg = true) (ρ ++ [n])%list).
    { apply Forall_app. split; [done|]. by constructor. }
    assert (HX' : map escape (P ++ (ρ ++ [n])) = (X ++ [escape n])%list).
    { subst X. by rewrite app_assoc, map_app. }
    pose proof (good_child X _ _ t cs _ eq_refl Hk Hgood) as [Hway' Hsub'].
    rewrite listing_of_tree. simpl tree2Tree.
    rewrite tree2Tree_elem_tree; [|by destruct ρ|done|done|by rewrite HX'].
    simpl. rewrite HX'.
    destruct (IH n _ Hin Hc P (ρ ++ [n])%list cs'
                (put (X ++ [escape n]) id t) HP Hρn ltac:(done))
      as (t2 & -> & [Hway2 Hsub2] & _ & Hcover & Hform).
    { rewrite HX'. split.
      - apply clear_way_put; [apply escaped_no_dollar_app|done].
      - by rewrite here_put. }
    rewrite HX' in *.
    pose proof (denote_full cs' _ Hsub2 Hcover) as Hfull.
    f_equal.
    assert (Ht2 : t2 = put (X ++ [escape n]) (λ _, denote cs') t).
    { destruct Hform as [[_ ->]| ->].
      - apply put_ext. rewrite here_put in Hfull. done.
      - rewrite Hfull. by rewrite put_put. }
    rewrite Ht2, put_app. apply put_ext. simpl. done.
Qed.

Lemma folds_step (cs : list (string * gitobj)) :
  (∀ n' c', (n', c') ∈ cs → proper_tree c' = true →
            match c' with GTree _ cs' => folds cs' | GBlob _ _ => True end) →
  NoDup (map (λ nc, escape nc.1) cs) →
  (∀ n c, (n, c) ∈ cs → proper n = true ∧ proper_tree c = true) →
  folds cs.
Proof.
  intros IH Hdup Hnames P ρ shown.
  induction shown as [|[n c] shown IHshown]; intros t HP Hρ Hsub Hgood.
  { exists t. split; [done|]. split; [done|]. split; [done|].
    split; [|by left]. intros nc Hnc. by apply elem_of_nil in Hnc. }
  set (X := map escape (P ++ ρ)) in *.
  assert (Hin : (n, c) ∈ cs) by (apply Hsub; by left).
  destruct (Hnames n c Hin) as [Hn Hc].
  pose proof (denote_lookup cs n c Hdup Hin) as Hk.
  destruct (good_insert X (denote cs) t (escape n) (denote_obj c)
              (escaped_no_dollar _) Hgood Hk) as (Hgood1 & Hhere1 & Hgrow1).
  set (t1 := put X (λ _, <[escape n := denote_obj c]> (here X t)) t) in *.
  destruct (IHshown t1 HP Hρ ltac:(intros x Hx; apply Hsub; by right) Hgood1)
    as (t' & Hfold & Hgood' & Hgrow' & Hcover' & Hform').
  exists t'. split; [|split; [done|split; [|split]]].
  - simpl listing. rewrite tree2Tree_app.
    rewrite (fold_listing_of cs P ρ n c t) by done. exact Hfold.
  - trans (here X t1); [by rewrite Hhere1|done].
  - intros nc [->|Hnc]%elem_of_cons; [|by apply Hcover'].
    exists (denote_obj c). eapply lookup_weaken; [|exact Hgrow'].
    rewrite Hhere1. apply lookup_insert_eq.
  - right. destruct Hform' as [[_ ->]|Hput].
    + by rewrite Hhere1.
    + rewrite Hput at 1. unfold t1. by rewrite put_put.
Qed.

Lemma folds_children (o : gitobj) :
  proper_tree o = true →
  match o with GTree _ cs => folds cs | GBlob _ _ => True end.
Proof.
  induction o as [sha size|sha cs IH] using gitobj_induction; intros Hproper.
  - done.
  - destruct (proper_tree_inv sha cs Hproper) as (_ & Hdup & Hnames).
    apply folds_step; [|done|done].
    intros n c Hin Hc. by apply (IH n c).
Qed.

(** *** The lookup of the truncation resolution *)

(** When the lookup finds the directory [n], its key is there. *)
Lemma reaches_missing_found (cs : list (string * gitobj)) (n : string)
    (P : list string) :
  ∀ t,
    good (map escape P) (denote cs) t →
    reaches_missing (P ++ [n]) (JObj t) = false →
    is_Some (here (map escape P) t !! escape n).
Proof.
  induction P as [|p P IH]; intros t [Hway Hsub] Hfound; simpl in *.
  - destruct (t !! n) as [v|] eqn:Hn; [|done].
    assert (Hesc : escape n = n).
    { apply escape_no_dollar_id, (denote_no_dollar cs t); [done|by exists v]. }
    rewrite Hesc, Hn. by exists v.
  - destruct Hway as [Hkeys Hp].
    destruct (t !! p) as [v|] eqn:Hget; [|done].
    assert (Hesc : escape p = p).
    { apply escape_no_dollar_id, Hkeys. by exists v. }
    rewrite Hesc in *. unfold sub in *. rewrite Hget in *.
    destruct v as [| |o]; try done. simpl in Hfound.
    by apply IH.
Qed.

Lemma grown_trans (X : list string) (t t1 t2 : Tree) :
  (t1 = t ∨ t1 = put X (λ _, here X t1) t) →
  (t2 = t1 ∨ t2 = put X (λ _, here X t2) t1) →
  t2 = t ∨ t2 = put X (λ _, here X t2) t.
Proof.
  intros [->|H1] [->|H2]; [by left|by right|by right|].
  right. rewrite H2 at 1. rewrite H1. by rewrite put_put.
Qed.

(** What a directory entry of the one-level listing does once the
    directory is settled: there with its content, or empty. *)
Lemma fold_level_entry (cs : list (string * gitobj)) (P : list string)
    (n : string) (c : gitobj) (t : Tree) :
  NoDup (map (λ nc, escape nc.1) cs) →
  (n, c) ∈ cs → proper n = true →
  Forall (λ seg, proper seg = true) P →
  good (map escape P) (denote cs) t →
  match c with
  | GTree _ cs' => is_Some (here (map escape P) t !! escape n) ∨ cs' = []
  | GBlob _ _ => True
  end →
  tree2Tree_elem (join_slash P) t (level_entry (n, c))
  = Ok (put (map escape P)
          (λ _, <[escape n := denote_obj c]> (here (map escape P) t)) t).
Proof.
  intros Hdup Hin Hn HP Hgood Hsettled.
  set (X := map escape P) in *.
  pose proof Hgood as [Hway Hsub].
  pose proof (denote_lookup cs n c Hdup Hin) as Hk.
  destruct c as [sha size|sha cs']; unfold level_entry; simpl.
  - change n with (join_slash ([] ++ [n])).
    rewrite tree2Tree_elem_blob; rewrite ?app_nil_r; try done.
    f_equal. by apply put_ext.
  - rewrite denote_obj_tree in Hk.
    pose proof (good_child X _ _ t cs _ eq_refl Hk Hgood) as [Hway' Hsub'].
    change n with (join_slash [n]).
    rewrite tree2Tree_elem_tree; [|done|done|by repeat constructor|].
    2: { by rewrite map_app. }
    f_equal. rewrite map_app, put_app. apply put_ext. simpl.
    f_equal. f_equal. unfold sub.
    destruct (here X t !! escape n) as [v|] eqn:Hget.
    + rewrite (lookup_weaken _ _ _ _ Hget Hsub) in Hk. by injection Hk as ->.
    + destruct Hsettled as [[v Hv]| ->]; [congruence|done].
Qed.

(** The second fold of [getTruncatedTree], over the one-level listing. *)
Lemma fold_one_level (cs : list (string * gitobj)) (P : list string) :
  NoDup (map (λ nc, escape nc.1) cs) →
  (∀ n c, (n, c) ∈ cs → proper n = true ∧ proper_tree c = true) →
  Forall (λ seg, proper seg = true) P →
  ∀ todo t,
    todo ⊆ cs →
    good (map escape P) (denote cs) t →
    (∀ n sha cs', (n, GTree sha cs') ∈ todo →
       is_Some (here (map escape P) t !! escape n) ∨ cs' = []) →
    ∃ t',
      tree2Tree (one_level todo) t (join_slash P) = Ok t'
      ∧ good (map escape P) (denote cs) t'
      ∧ here (map escape P) t ⊆ here (map escape P) t'
      ∧ (∀ nc, nc ∈ todo → is_Some (here (map escape P) t' !! escape nc.1))
      ∧ ((todo = [] ∧ t' = t)
         ∨ t' = put (map escape P) (λ _, here (map escape P) t') t).
Proof.
  intros Hdup Hnames HP. set (X := map escape P).
  induction todo as [|[n c] todo IH]; intros t Hsub Hgood Hsettled.
  { exists t. split; [done|]. split; [done|]. split; [done|].
    split; [|by left]. intros nc Hnc. by apply elem_of_nil in Hnc. }
  assert (Hin : (n, c) ∈ cs) by (apply Hsub; by left).
  destruct (Hnames n c Hin) as [Hn Hc].
  pose proof (denote_lookup cs n c Hdup Hin) as Hk.
  destruct (good_insert X (denote cs) t (escape n) (denote_obj c)
              (escaped_no_dollar _) Hgood Hk) as (Hgood1 & Hhere1 & Hgrow1).
  set (t1 := put X (λ _, <[escape n := denote_obj c]> (here X t)) t) in *.
  destruct (IH t1) as (t' & Hfold & Hgood' & Hgrow' & Hcover' & Hform').
  { intros x Hx. apply Hsub. by right. }
  { done. }
  { intros n' sha' cs' Hin'.
    destruct (Hsettled n' sha' cs' ltac:(by right)) as [[v Hv]|Hempty];
      [left|by right].
    exists v. eapply lookup_weaken; [exact Hv|]. by rewrite Hhere1. }
  exists t'. split; [|split; [done|split; [|split]]].
  - simpl. rewrite (fold_level_entry cs P n c t); try done.
    destruct c as [sha size|sha cs']; [done|].
    apply (Hsettled n sha cs'). by left.
  - trans (here X t1); [by rewrite Hhere1|done].
  - intros nc [->|Hnc]%elem_of_cons; [|by apply Hcover'].
    exists (denote_obj c). eapply lookup_weaken; [|exact Hgrow'].
    rewrite Hhere1. apply lookup_insert_eq.
  - right. destruct Hform' as [[_ ->]|Hput].
    + by rewrite Hhere1.
    + rewrite Hput at 1. unfold t1. by rewrite put_put.
Qed.

(** *** The truncation resolution *)

Lemma getTruncatedTree_elem_blob (rec : string → Tree → string → M world Tree)
    (p : string) (t : Tree) (n sha : string) (size : Z) :
  getTruncatedTree_elem rec p t (blob_entry n sha size) = mret t.
Proof. unfold getTruncatedTree_elem. simpl. by destruct (String.eqb n ""). Qed.

Lemma getTruncatedTree_elem_tree (rec : string → Tree → string → M world Tree)
    (P : list string) (t : Tree) (n sha : string) :
  Forall (λ seg, proper seg = true) P → proper n = true → sha ≠ "" →
  getTruncatedTree_elem rec (join_slash P) t (tree_entry n sha)
  = if reaches_missing (P ++ [n]) (JObj t)
    then rec sha t (join_slash (P ++ [n]))
    else mret t.
Proof.
  intros HP Hn Hsha. unfold getTruncatedTree_elem, tree_entry. simpl.
  assert (Hnn : String.eqb n "" = false).
  { apply String.eqb_neq. by apply proper_pushed in Hn as (? & _). }
  rewrite Hnn. rewrite (filePath_proper P n) by done.
  rewrite split_join_proper; [|by destruct P|].
  2: { apply Forall_app. split; [done|]. by constructor. }
  apply String.eqb_neq in Hsha. by rewrite Hsha.
Qed.

Section Resolution.
Context (env : remote) (tok : string) (Htok : getToken env = Ok tok).
Context (rec : string → Tree → string → M world Tree).
Context (cs : list (string * gitobj)) (P : list string).
Context (Hdup : NoDup (map (λ nc, escape nc.1) cs)).
Context (Hnames : ∀ n c, (n, c) ∈ cs → proper n = true ∧ proper_tree c = true).
Context (HP : Forall (λ seg, proper seg = true) P).
(** What the recursive call does for the directories among [cs]. *)
Context (Hrec : ∀ n sha' cs' t w,
  (n, GTree sha' cs') ∈ cs →
  good (map escape (P ++ [n])) (denote cs') t →
  ∃ t' w',
    rec sha' t (join_slash (P ++ [n])) w = Done t' w'
    ∧ good (map escape (P ++ [n])) (denote cs') t'
    ∧ ((cs' = [] ∧ t' = t)
       ∨ t' = put (map escape (P ++ [n])) (λ _, denote cs') t)).

Lemma getTruncatedTree_loop_settles (todo : list (string * gitobj)) :
  ∀ t w,
    todo ⊆ cs →
    good (map escape P) (denote cs) t →
    ∃ t' w',
      getTruncatedTree_loop rec (one_level todo) (join_slash P) t w = Done t' w'
      ∧ good (map escape P) (denote cs) t'
      ∧ here (map escape P) t ⊆ here (map escape P) t'
      ∧ (t' = t ∨ t' = put (map escape P) (λ _, here (map escape P) t') t)
      ∧ (∀ n sha' cs', (n, GTree sha' cs') ∈ todo →
           is_Some (here (map escape P) t' !! escape n) ∨ cs' = []).
Proof.
  set (X := map escape P).
  induction todo as [|[n c] todo IH]; intros t w Hsub Hgood.
  { exists t, w. split; [done|]. split; [done|]. split; [done|].
    split; [by left|]. intros n sha' cs' Hin. by apply elem_of_nil in Hin. }
  assert (Hin : (n, c) ∈ cs) by (apply Hsub; by left).
  destruct (Hnames n c Hin) as [Hn Hc].
  assert (Hstep : ∃ t1 w1,
    getTruncatedTree_elem rec (join_slash P) t (level_entry (n, c)) w = Done t1 w1
    ∧ good X (denote cs) t1
    ∧ here X t ⊆ here X t1
    ∧ (t1 = t ∨ t1 = put X (λ _, here X t1) t)
    ∧ match c with
      | GTree _ cs' => is_Some (here X t1 !! escape n) ∨ cs' = []
      | GBlob _ _ => True
      end).
  { destruct c as [sha size|sha' cs']; unfold level_entry; simpl.
    - rewrite getTruncatedTree_elem_blob. exists t, w.
      split; [done|]. split; [done|]. split; [done|]. split; [by left|done].
    - destruct (proper_tree_inv sha' cs' Hc) as (Hsha & _ & _).
      rewrite getTruncatedTree_elem_tree by done.
      destruct (reaches_missing (P ++ [n]) (JObj t)) eqn:Hmiss.
      + pose proof (denote_lookup cs n _ Hdup Hin) as Hk.
        rewrite denote_obj_tree in Hk.
        destruct (Hrec n sha' cs' t w Hin) as (t1 & w1 & Hcall & Hgood1 & Hform).
        { rewrite map_app.
          exact (good_child X (denote cs) (denote cs') t cs (escape n)
                   eq_refl Hk Hgood). }
        exists t1, w1. split; [done|].
        destruct Hform as [[-> ->]|Hput].
        * split; [done|]. split; [done|]. split; [by left|by right].
        * destruct (good_insert X (denote cs) t (escape n) (JObj (denote cs'))
                      (escaped_no_dollar _) Hgood Hk) as (Hg & Hh & Hgrow).
          assert (Ht1 : t1 = put X (λ _, <[escape n := JObj (denote cs')]> (here X t)) t).
          { rewrite Hput, map_app, put_app. by apply put_ext. }
          rewrite Ht1. split; [done|]. rewrite Hh. split; [done|].
          split; [by right|]. left. rewrite lookup_insert_eq. by eexists.
      + exists t, w. split; [done|]. split; [done|]. split; [done|].
        split; [by left|]. left.
        by apply (reaches_missing_found cs). }
  destruct Hstep as (t1 & w1 & Hcall & Hgood1 & Hgrow1 & Hform1 & Hsettled1).
  destruct (IH t1 w1) as (t' & w' & Hloop & Hgood' & Hgrow' & Hform' & Hsettled').
  { intros x Hx. apply Hsub. by right. }
  { done. }
  exists t', w'. split; [|split; [done|split; [by etrans|split]]].
  - simpl. unfold mbind, M_bind, bind. by rewrite Hcall.
  - by apply (grown_trans X t t1 t').
  - intros n' sha' cs' [[= -> <-]|Hin']%elem_of_cons; [|by eapply Hsettled'].
    destruct Hsettled1 as [[v Hv]|Hempty]; [left|by right].
    exists v. by eapply lookup_weaken.
Qed.

(** [getTruncatedTree] completes the object at the end of the path. *)
Lemma getTruncatedTree_completes (sha : string) (flag : bool) (t : Tree)
    (w : world) :
  git_getTree env sha false = Ok (Response (one_level cs) flag) →
  good (map escape P) (denote cs) t →
  ∃ t' w',
    getTruncatedTree env rec sha t (join_slash P) w = Done t' w'
    ∧ good (map escape P) (denote cs) t'
    ∧ here (map escape P) t' = denote cs
    ∧ ((cs = [] ∧ t' = t)
       ∨ t' = put (map escape P) (λ _, denote cs) t).
Proof.
  intros Hlevel Hgood. set (X := map escape P) in *.
  unfold getTruncatedTree. rewrite Htok, Hlevel.
  unfold mbind, M_bind, bind, lift, ret, issue, modify. simpl.
  destruct (getTruncatedTree_loop_settles cs t
              (World (calls w ++ [GetTree sha false]) (cache w)))
    as (t2 & w2 & Hloop & Hgood2 & Hgrow2 & Hform2 & Hsettled); [done|done|].
  fold X in Hloop, Hgood2, Hgrow2, Hform2, Hsettled. rewrite Hloop.
  destruct (fold_one_level cs P Hdup Hnames HP cs t2 ltac:(done) Hgood2 Hsettled)
    as (t3 & Hfold & Hgood3 & Hgrow3 & Hcover & Hform3).
  fold X in Hfold, Hgood3, Hgrow3, Hcover, Hform3. rewrite Hfold.
  exists t3, w2. split; [done|]. split; [done|].
  pose proof Hgood3 as [_ Hsub3].
  pose proof (denote_full cs _ Hsub3 Hcover) as Hfull.
  split; [done|].
  destruct Hform3 as [[-> ->]|Hput3].
  - left. split; [done|]. simpl in Hloop. by injection Hloop as ->.
  - right. rewrite Hfull in Hput3.
    destruct Hform2 as [->|Hput2]; [done|].
    rewrite Hput3, Hput2. by rewrite put_put.
Qed.
End Resolution.

(** *** [getTree] *)

Lemma getTree_step (env : remote) (tok : string) (fuel : nat) (sha : string)
    (t : Tree) (p : string) (w : world) (res : response) :
  getToken env = Ok tok → git_getTree env sha true = Ok res →
  getTree env (S fuel) sha t p w =
    match tree2Tree (res_tree res) t p with
    | Ok t1 =>
        if res_truncated res
        then getTruncatedTree env (getTree env fuel) sha t1 p
               (World (calls w ++ [GetTree sha true]) (cache w))
        else Done t1 (World (calls w ++ [GetTree sha true]) (cache w))
    | Raise e => Throw e (World (calls w ++ [GetTree sha true]) (cache w))
    end.
Proof.
  intros Htok Hres. simpl. rewrite Htok, Hres.
  unfold mbind, M_bind, bind, lift, ret, issue, modify. simpl.
  destruct (tree2Tree _ _ _); [|done]. by destruct (res_truncated res).
Qed.

Lemma getTree_resolves (env : remote) (tok : string) :
  getToken env = Ok tok →
  ∀ o, serves env o → proper_tree o = true →
    match o with
    | GBlob _ _ => True
    | GTree sha cs =>
        ∀ fuel P, (depth o ≤ fuel)%nat →
          Forall (λ seg, proper seg = true) P →
          resolved env fuel sha cs P
    end.
Proof.
  intros Htok.
  induction o as [sha size|sha cs IH] using gitobj_induction; [done|].
  intros Hserves Hproper fuel P Hfuel HP t w Hgood.
  destruct (proper_tree_inv sha cs Hproper) as (_ & Hdup & Hnames).
  destruct (serves_inv env sha cs Hserves) as ([flag Hlevel] & Hrec & Hchildren).
  pose proof (folds_children (GTree sha cs) Hproper) as Hfolds. simpl in Hfolds.
  destruct fuel as [|fuel]; [simpl in Hfuel; lia|].
  set (X := map escape P) in *.
  assert (HX : map escape (P ++ []) = X) by (by rewrite app_nil_r).
  destruct Hrec as [Hfull|(shown & Hshown & Hcut)].
  - rewrite (getTree_step env tok fuel sha t _ w _ Htok Hfull). simpl.
    destruct (Hfolds P [] cs t HP ltac:(done) ltac:(done))
      as (t1 & -> & Hgood1 & _ & Hcover & Hform); [by rewrite HX|].
    rewrite HX in *. eexists _, _. split; [done|]. split; [done|].
    pose proof Hgood1 as [_ Hsub1].
    rewrite (denote_full cs _ Hsub1 Hcover) in Hform.
    destruct Hform as [[-> ->]|Hput]; [by left|by right].
  - rewrite (getTree_step env tok fuel sha t _ w _ Htok Hcut). simpl.
    destruct (Hfolds P [] shown t HP ltac:(done) Hshown)
      as (t1 & Hfold & Hgood1 & _ & _ & Hform); [by rewrite HX|].
    rewrite HX in *. rewrite Hfold.
    destruct (getTruncatedTree_completes env tok Htok (getTree env fuel) cs P
                Hdup Hnames HP) with (sha := sha) (flag := flag) (t := t1)
      (w := World (calls w ++ [GetTree sha true]) (cache w))
      as (t3 & w3 & Hcall & Hgood3 & _ & Hform3); [|done|done|].
    { intros n sha' cs' t' w' Hin Hgood'.
      destruct (Hnames n _ Hin) as [Hn Hc].
      apply (IH n _ Hin (Hchildren n _ Hin) Hc fuel (P ++ [n])%list).
      - pose proof (depth_child sha cs n _ Hin). lia.
      - apply Forall_app. split; [done|]. by constructor.
      - done. }
    fold X in Hcall, Hgood3, Hform3.
    exists t3, w3. split; [done|]. split; [done|].
    destruct Hform3 as [[-> ->]|Hput3].
    + left. split; [done|].
      assert (shown = []) as ->.
      { destruct shown as [|x shown]; [done|].
        specialize (Hshown x ltac:(by left)). by apply elem_of_nil in Hshown. }
      simpl in Hfold. by injection Hfold as ->.
    + right. destruct Hform as [[_ ->]|Hput1]; [done|].
      rewrite Hput3, Hput1. by rewrite put_put.
Qed.

(** C1, as the code has it.  For a remote that serves a repository of
    proper names, whose truncated listings show whole children only,
    [getFiles] comes back with the tree that the fold of the complete
    recursive listing gives.  The names of the repository are names under
    which an object inherits nothing: the lookup of [getTruncatedTree]
    takes a directory named [constructor] or [__proto__] for one that is
    there already, which [js_get] does not render. *)
Theorem getFiles_resolves_truncation (env : remote) (tok : string)
    (commit : string) (cs : list (string * gitobj)) (fuel : nat) (w : world) :
  getToken env = Ok tok →
  serves env (GTree commit cs) →
  proper_tree (GTree commit cs) = true →
  plain_tree (GTree commit cs) = true →
  (depth (GTree commit cs) ≤ fuel)%nat →
  ∃ t w',
    getFiles env fuel commit w = Done t w'
    ∧ tree2Tree (listing [] cs) ∅ "" = Ok t.
Proof.
  intros Htok Hserves Hproper _ Hfuel.
  assert (Hgood : good (map escape []) (denote cs) ∅).
  { split; [done|]. apply map_empty_subseteq. }
  destruct (getTree_resolves env tok Htok (GTree commit cs) Hserves Hproper
              fuel [] Hfuel ltac:(done) ∅ w Hgood)
    as (t & w' & Hcall & _ & Hform).
  exists t, w'. split; [done|].
  pose proof (folds_children (GTree commit cs) Hproper) as Hfolds.
  destruct (Hfolds [] [] cs ∅ ltac:(done) ltac:(done) ltac:(done) Hgood)
    as (t' & Hfold & [_ Hsub] & _ & Hcover & _).
  change (join_slash []) with "" in Hfold. rewrite Hfold. f_equal.
  pose proof (denote_full cs _ Hsub Hcover) as Hfull. simpl in Hfull, Hform.
  rewrite Hfull. by destruct Hform as [[-> ->]| ->].
Qed.

Lemma getFiles_resolves_truncation_witness :
  ∃ t w',
    getFiles two_levels 3 "c0" fresh = Done t w'
    ∧ tree2Tree (listing [] top_dir) ∅ "" = Ok t.
Proof.
  apply (getFiles_resolves_truncation two_levels "token" "c0" top_dir 3 fresh).
  - reflexivity.
  - simpl. split; [by eexists|]. split.
    { right. exists [("README.md", GBlob "b3" 5)]. split; [|reflexivity].
      intros x Hx. apply list_elem_of_singleton in Hx as ->. right. by left. }
    split; [|done].
    split; [by eexists|]. split.
    { right. exists [("main.ts", GBlob "b2" 20)]. split; [|reflexivity].
      intros x Hx. apply list_elem_of_singleton in Hx as ->. right. by left. }
    split; [|done].
    split; [by eexists|]. split; [by left|done].
  - reflexivity.
  - reflexivity.
  - simpl. lia.
Defined.

Example two_levels_calls :
  ∃ t, getFiles two_levels 3 "c0" fresh
       = Done t (World [GetTree "c0" true; GetTree "c0" false;
                        GetTree "t1" true; GetTree "t1" false;
                        GetTree "t2" true] ∅).
Proof. eexists. vm_compute. reflexivity. Qed.

(** C1 as stated fails when a truncated listing is cut inside a directory:
    [a] is there, so it is taken to be complete, and [a/y] is never
    listed. *)
Lemma truncation_inside_a_directory :
  getFiles cut_inside 3 "c0" fresh
  = Done (<["a" := JObj (<["x" := FileEntry 1 "b1"]> ∅)]>
            (<["b" := JObj (<["z" := FileEntry 3 "b3"]> ∅)]> ∅))
      (World [GetTree "c0" true; GetTree "c0" false; GetTree "t2" true] ∅)
  ∧ tree2Tree (listing [] half_dir) ∅ ""
    = Ok (<["a" := JObj (<["x" := FileEntry 1 "b1"]>
                           (<["y" := FileEntry 2 "b2"]> ∅))]>
            (<["b" := JObj (<["z" := FileEntry 3 "b3"]> ∅)]> ∅))
  ∧ (<["a" := JObj (<["x" := FileEntry 1 "b1"]> ∅)]>
       (<["b" := JObj (<["z" := FileEntry 3 "b3"]> ∅)]> ∅) : Tree)
    ≠ <["a" := JObj (<["x" := FileEntry 1 "b1"]> (<["y" := FileEntry 2 "b2"]> ∅))]>
        (<["b" := JObj (<["z" := FileEntry 3 "b3"]> ∅)]> ∅).
Proof.
  split; [vm_compute; reflexivity|]. split; [vm_compute; reflexivity|].
  intros Heq.
  apply (f_equal (λ t : Tree, sub t "a" !! "y")) in Heq.
  vm_compute in Heq. done.
Qed.

(** *** Every entry of the tree *)

Lemma listed_tree_empty (d : disk) : listed_tree d ∅.
Proof. constructor. intros k v Hk. by rewrite lookup_empty in Hk. Qed.

Lemma listed_tree_insert (d : disk) (t : Tree) (file : string) (v : jsval) :
  listed_tree d t →
  ((∃ p st, stat d p = Ok st ∧ v = FileEntry (st_size st) (pretty (st_ino st)))
   ∨ (∃ sub, v = JObj sub ∧ listed_tree d sub)) →
  listed_tree d (<[escape file := v]> t).
Proof.
  intros [t' Ht] Hv. constructor. intros k v' Hk.
  destruct (decide (escape file = k)) as [<-|Hne].
  - rewrite lookup_insert_eq in Hk. injection Hk as <-.
    split; [apply no_dollar_escape|done].
  - rewrite lookup_insert_ne in Hk by done. by apply Ht.
Qed.

Section Listed.
Context (d : disk) (onEntry : option (string → Z → M loop unit)).
Context (rec : string → M loop Tree).
Context (Hrec : ∀ p l sub l', rec p l = Done sub l' → listed_tree d sub).

Lemma listFiles_entry_listed (dir fullPath : string) (output : Tree)
    (file : string) (l : loop) (out : Tree) (l1 : loop) :
  listed_tree d output →
  listFiles_entry d onEntry rec dir fullPath output file l = Done out l1 →
  listed_tree d out.
Proof.
  intros Hout. unfold listFiles_entry, try_catch.
  destruct (stat d _) as [stats|e] eqn:Hstat.
  - rewrite (await_ok _ stats) by done.
    destruct (isDirectory stats).
    + unfold mbind, M_bind, bind, modify, mret, M_ret, ret.
      destruct (rec _ _) as [sub l2|e l2|] eqn:Hsub; simpl.
      * intros Heq. replace out with (<[escape file := JObj sub]> output)
          by congruence.
        apply listed_tree_insert; [done|].
        right. exists sub. split; [done|]. by eapply Hrec.
      * intros Heq. by replace out with output by congruence.
      * done.
    + destruct (isFile stats).
      * assert (Hset : listed_tree d
          (<[escape file := FileEntry (st_size stats) (pretty (st_ino stats))]>
             output)).
        { apply listed_tree_insert; [done|].
          left. by exists (join2 fullPath (join2 dir file)), stats. }
        unfold mbind, M_bind, bind, modify, mret, M_ret, ret.
        destruct onEntry as [f|].
        -- destruct (f _ _ _) as [[] l2|e l2|]; simpl; intros Heq;
             [by replace out with
                   (<[escape file := FileEntry (st_size stats)
                                       (pretty (st_ino stats))]> output)
                   by congruence
             |by replace out with output by congruence
             |done].
        -- simpl. intros Heq.
           by replace out with
                (<[escape file := FileEntry (st_size stats)
                                    (pretty (st_ino stats))]> output)
                by congruence.
      * unfold mret, M_ret, ret.
        intros Heq. by replace out with output by congruence.
  - rewrite (await_raise _ e) by done. unfold mret, M_ret, ret.
    intros Heq. by replace out with output by congruence.
Qed.

Lemma listFiles_loop_listed (dir fullPath : string) (files : list string) :
  ∀ output l out l1,
    listed_tree d output →
    listFiles_loop d onEntry rec dir fullPath files output l = Done out l1 →
    listed_tree d out.
Proof.
  induction files as [|file files IH]; intros output l out l1 Hout Hloop.
  - simpl in Hloop. unfold mret, M_ret, ret in Hloop.
    by replace out with output by congruence.
  - simpl in Hloop. unfold mbind, M_bind, bind in Hloop.
    destruct (listFiles_entry _ _ _ _ _ _ file l) as [o l2|e l2|] eqn:Hentry;
      [|done|done].
    eapply IH; [|exact Hloop]. by eapply listFiles_entry_listed.
Qed.
End Listed.

Lemma listFiles_listed (config_FOLDER : string) (repoPath : string → string)
    (d : disk) (repoId : string) (onEntry : option (string → Z → M loop unit))
    (fuel : nat) :
  ∀ dir l t l',
    listFiles config_FOLDER repoPath fuel d repoId dir onEntry l = Done t l' →
    listed_tree d t.
Proof.
  induction fuel as [|fuel IH]; intros dir l t l' Hdone; [done|].
  rewrite listFiles_unfold in Hdone. simpl in Hdone.
  destruct (readdir d _) as [files|e]; [|done].
  eapply listFiles_loop_listed; [|apply listed_tree_empty|exact Hdone].
  intros p l0 t0 l0' Hsub. exact (IH p l0 t0 l0' Hsub).
Qed.

(** What the walk of a directory stores for a name whose doubled path
    [join(fullPath, join(dir, file))] is that of a regular file: the key is
    the escaped name, a leading [$] getting a backslash in front, the entry
    has the size and, in decimal, the inode number that [stat] reported for
    that path; the callback is handed the raw path and the size.  In the
    whole tree no key starts with [$] and the [sha] of every file entry is
    the inode number of some [stat]. *)
Lemma listFiles_walk_entry (config_FOLDER : string)
    (repoPath : string → string) (d : disk) (repoId : string)
    (D : list string) (fuel : nat) (files : list string) (file : string)
    (st : Stats) :
  let dir := join_slash D in
  let fullPath := join3 config_FOLDER (repoPath repoId) dir in
  wf_node (root d) = true →
  Forall (λ seg, proper seg = true) D →
  (height (root d) < fuel)%nat →
  readdir d fullPath = Ok files →
  file ∈ files →
  stat d (join2 fullPath (join2 dir file)) = Ok st →
  isDirectory st = false → isFile st = true →
  (∀ other, other ∈ files → escape other = escape file → other = file) →
  ∃ T l',
    listFiles config_FOLDER repoPath fuel d repoId dir (Some record_entry) idle
      = Done T l'
    ∧ T !! escape file = Some (FileEntry (st_size st) (pretty (st_ino st)))
    ∧ OnEntry (join2 dir file) (st_size st) ∈ events l'
    ∧ (∀ rest, file = String "$" rest → escape file = String "\" file)
    ∧ listed_tree d T.
Proof.
  intros dir fullPath Hwf HD Hfuel Hread Hin Hstat Hdir Hfile Hinj.
  assert (Htotal : ∀ f p s l, Some record_entry = Some f → f p s l ≠ Diverge)
    by (intros f p s l [= <-]; done).
  destruct (listFiles_done config_FOLDER repoPath d repoId (Some record_entry)
              fuel D files idle Htotal Hwf HD Hfuel Hread) as (T & l' & Hdone).
  exists T, l'. split; [done|].
  destruct fuel as [|fuel]; [lia|].
  rewrite listFiles_unfold in Hdone. simpl in Hdone.
  fold dir fullPath in Hdone. rewrite Hread in Hdone.
  assert (Hrec : ∀ p l,
    OnEntry (join2 dir file) (st_size st) ∈ events l →
    holds_after (λ l', OnEntry (join2 dir file) (st_size st) ∈ events l')
      (listFiles config_FOLDER repoPath fuel d repoId p (Some record_entry) l)).
  { intros p l Hl.
    apply (listFiles_preserves config_FOLDER repoPath d repoId
             (Some record_entry) (λ l', _ ∈ events l')); [| |done].
    - apply seen_drain.
    - intros f p' s l0 Hf. by apply seen_record. }
  destruct (listFiles_loop_file d _ dir fullPath _ Hrec file st files
              Hstat Hdir Hfile eq_refl Hinj ∅ (drain idle) T l' Hdone
              (or_introl Hin)) as [HT Hev].
  split; [done|]. split; [done|]. split; [by intros rest ->|].
  apply (listFiles_listed config_FOLDER repoPath d repoId (Some record_entry)
           (S fuel) dir idle T l').
  rewrite listFiles_unfold. simpl. fold dir fullPath. by rewrite Hread.
Qed.

(** The archive of the same cache names its entry by the raw path. *)
Example archive_dollar_file :
  ∃ l, archive sample_FOLDER sample_repoPath 5 dollar_file "r1" "" false idle
       = Done tt l
     ∧ appended (events l) = [(".", "$notes.txt")].
Proof. eexists. split; vm_compute; reflexivity. Qed.

(** C10: below the root the entry of a file does not carry the inode
    number of that file.  The cache holds [a/b.txt], 3 bytes, inode 6, and
    [a/a/b.txt], 5 bytes, inode 8.  The walk of the root stores under
    [a], [b.txt] the size 5 and the [sha] ["8"] of the other file, and hands
    the path [a/b.txt] to the callback with that size; for [a/a/b.txt]
    there is no entry. *)
Theorem listFiles_entry_of_another_file :
  stat nested_twice (join3 sample_FOLDER (sample_repoPath "r1") "a/b.txt")
  = Ok (MkStats false true 3 6)
  ∧ stat nested_twice (join3 sample_FOLDER (sample_repoPath "r1") "a/a/b.txt")
    = Ok (MkStats false true 5 8)
  ∧ ∃ l',
      listFiles sample_FOLDER sample_repoPath 5 nested_twice "r1" ""
        (Some record_entry) idle
      = Done (<["a" := JObj (<["b.txt" := FileEntry 5 "8"]> ∅)]> ∅) l'
      ∧ events l' = [OnEntry "a/b.txt" 5].
Proof.
  split; [reflexivity|]. split; [reflexivity|].
  eexists. split; vm_compute; reflexivity.
Qed.



(** ** The lookup never finds a directory whose name starts with [$] *)

Lemma walk_create_root_keys (ps : list string) (fin : jsval → result jsval)
    (t : Tree) (v' : jsval) :
  (∀ o v, fin (JObj o) = Ok v →
     ∃ o', v = JObj o' ∧ ∀ k, is_Some (o' !! k) → is_Some (o !! k) ∨ no_dollar k) →
  walk_create ps fin (JObj t) = Ok v' →
  ∃ t', v' = JObj t' ∧ ∀ k, is_Some (t' !! k) → is_Some (t !! k) ∨ no_dollar k.
Proof.
  intros Hfin Hwalk. destruct ps as [|p rest]; [by apply Hfin|].
  assert (Hset : ∀ child, ∃ t', (Ok (JObj (<[escape p := child]> t)) : result jsval)
                                 = Ok (JObj t')
    ∧ ∀ k, is_Some (t' !! k) → is_Some (t !! k) ∨ no_dollar k).
  { intros child. eexists. split; [done|]. intros k Hk.
    destruct (decide (escape p = k)) as [<-|Hne]; [right; apply no_dollar_escape|].
    left. by rewrite lookup_insert_ne in Hk. }
  simpl in Hwalk.
  destruct (t !! escape p) as [next|]; [destruct (truthy next)|].
  - destruct (walk_create rest fin next) as [child|e]; [|done]. simpl in Hwalk.
    destruct (Hset child) as (t' & _ & Hkeys). exists (<[escape p := child]> t).
    split; [congruence|]. intros k Hk.
    destruct (decide (escape p = k)) as [<-|Hne]; [right; apply no_dollar_escape|].
    left. by rewrite lookup_insert_ne in Hk.
  - destruct (walk_create rest fin (JObj ∅)) as [child|e]; [|done]. simpl in Hwalk.
    exists (<[escape p := child]> t).
    split; [congruence|]. intros k Hk.
    destruct (decide (escape p = k)) as [<-|Hne]; [right; apply no_dollar_escape|].
    left. by rewrite lookup_insert_ne in Hk.
  - destruct (walk_create rest fin (JObj ∅)) as [child|e]; [|done]. simpl in Hwalk.
    exists (<[escape p := child]> t).
    split; [congruence|]. intros k Hk.
    destruct (decide (escape p = k)) as [<-|Hne]; [right; apply no_dollar_escape|].
    left. by rewrite lookup_insert_ne in Hk.
Qed.

Lemma tree2Tree_elem_root_keys (parentPath : string) (t t' : Tree) (e : elem) :
  (∀ k, is_Some (t !! k) → no_dollar k) →
  tree2Tree_elem parentPath t e = Ok t' →
  ∀ k, is_Some (t' !! k) → no_dollar k.
Proof.
  intros Hkeys. unfold tree2Tree_elem.
  destruct (absent (elem_path e)); [by intros [= <-]|].
  destruct (walk_create _ _ (JObj t)) as [root|err] eqn:Hwalk; [|done].
  simpl. intros [= <-].
  apply walk_create_root_keys in Hwalk as (t1 & -> & Hroot).
  - simpl. intros k Hk. destruct (Hroot k Hk) as [Hold|Hnew]; [by apply Hkeys|done].
  - intros o v. destruct (is_type e "blob").
    + simpl. intros [= <-]. eexists. split; [done|]. intros k Hk.
      match type of Hk with
      | is_Some (<[?key := _]> _ !! _) =>
          destruct (decide (key = k)) as [<-|Hne];
            [right; apply no_dollar_escape|]
      end.
      left. by rewrite lookup_insert_ne in Hk.
    + intros [= <-]. exists o. split; [done|]. by left.
Qed.

Lemma tree2Tree_root_keys (l : list elem) (parentPath : string) :
  ∀ t t',
    (∀ k, is_Some (t !! k) → no_dollar k) →
    tree2Tree l t parentPath = Ok t' →
    ∀ k, is_Some (t' !! k) → no_dollar k.
Proof.
  induction l as [|e l IH]; intros t t' Hkeys Hfold.
  - simpl in Hfold. by injection Hfold as <-.
  - simpl in Hfold.
    destruct (tree2Tree_elem parentPath t e) as [t1|err] eqn:Helem; [|done].
    apply (IH t1 t'); [|done]. by eapply tree2Tree_elem_root_keys.
Qed.

(** X28: whatever listing has been folded into the empty tree, the lookup
    of [getTruncatedTree] for a directory of the root whose name starts with
    [$] reports it missing: the fold stores no key that starts with [$], and
    the lookup reads the name as it is. *)
Lemma dollar_directory_never_found (l : list elem) (parentPath : string)
    (t : Tree) (n rest : string) :
  tree2Tree l ∅ parentPath = Ok t →
  proper n = true → n = String "$" rest →
  reaches_missing (split (join2 "" n)) (JObj t) = true.
Proof.
  intros Hfold Hn Hdollar.
  change (join2 "" n) with (join2 (join_slash []) (join_slash [n])).
  rewrite (split_join2_proper [] [n]); [|done|done|by repeat constructor].
  simpl. destruct (t !! n) as [v|] eqn:Hget; [|done].
  exfalso.
  assert (Hno : no_dollar n).
  { eapply (tree2Tree_root_keys l parentPath ∅ t); [|done|by exists v].
    intros k [v' Hv']. by rewrite lookup_empty in Hv'. }
  by rewrite Hdollar in Hno.
Qed.

Lemma dollar_directory_never_found_witness :
  reaches_missing (split (join2 "" "$lib"))
    (JObj (<["\$lib" := JObj (<["a.ts" := FileEntry 10 "b1"]> ∅)]> ∅))
  = true.
Proof.
  apply (dollar_directory_never_found
           [tree_entry "$lib" "t2"; blob_entry "$lib/a.ts" "b1" 10] ""
           (<["\$lib" := JObj (<["a.ts" := FileEntry 10 "b1"]> ∅)]> ∅)
           "$lib" "lib").
  - vm_compute. reflexivity.
  - reflexivity.
  - reflexivity.
Defined.
(* ================================================================== *)
(** * The rest of the storage backend: [mk], [write], [rm], [extractZip] *)
(* ================================================================== *)

Import Removal Extract.

(** ** The separator at the end of a path *)

Lemma ends_with_slash_join_kept (R : list string) :
  Forall kept R → Forall (λ seg, slash_free seg = true) R →
  ends_with_slash (join_slash R) = false.
Proof.
  induction R as [|x [|y r] IH]; intros Hkept Hfree; [done| |].
  - simpl. apply ends_with_slash_free. by inversion Hfree.
  - inversion Hkept; inversion Hfree; subst. rewrite join_slash_cons.
    rewrite ends_with_slash_app by done.
    rewrite ends_with_slash_cons.
    + by apply IH.
    + intros Hj. by apply join_slash_empty in Hj.
Qed.

Lemma ends_with_slash_normalize (J : string) :
  ends_with_slash J = false →
  fold_left (normalize_step (negb (starts_with_slash J))) (split J) [] ≠ [] →
  ends_with_slash (normalize J) = false.
Proof.
  intros Hend Hst. unfold normalize.
  destruct (String.eqb_spec J "") as [->|HJ]; [done|].
  unfold normalizeString. rewrite Hend.
  set (st := fold_left (normalize_step (negb (starts_with_slash J))) (split J) [])
    in *.
  assert (Hkept : Forall kept (rev st)).
  { apply Forall_rev. by apply fold_normalize_kept. }
  assert (Hfree : Forall (λ seg, slash_free seg = true) (rev st)).
  { apply Forall_rev, fold_normalize_from; [done|].
    apply split_segments_slash_free. }
  assert (Hp : join_slash (rev st) ≠ "").
  { intros Hj. apply join_slash_empty in Hj; [|done].
    apply Hst. by rewrite <- (rev_involutive st), Hj. }
  destruct (String.eqb_spec (join_slash (rev st)) "") as [|_]; [done|].
  pose proof (ends_with_slash_join_kept _ Hkept Hfree) as Hjoin.
  destruct (starts_with_slash J); [|done].
  change ("/" ++ ?q) with (String slash q).
  by rewrite ends_with_slash_cons.
Qed.

(** A joined path whose last argument is a path of proper names has no
    separator at its end. *)
Lemma ends_with_slash_joined (args D : list string) :
  D ≠ [] → Forall (λ seg, proper seg = true) D →
  ends_with_slash (join (args ++ [join_slash D])) = false.
Proof.
  intros HD Hproper. unfold join.
  pose proof (join_slash_nonempty D HD Hproper) as Hlast.
  rewrite filter_app, filter_cons_True, filter_nil by done.
  set (pre := filter (λ a, a ≠ "") args).
  destruct (pre ++ [join_slash D])%list as [|x parts] eqn:Hparts;
    [by destruct pre|].
  rewrite <- Hparts. clear x parts Hparts.
  apply ends_with_slash_normalize.
  - destruct pre as [|x pre'].
    + change (ends_with_slash (join_slash D) = false).
      by apply ends_with_slash_join.
    + rewrite join_slash_app by done.
      change (join_slash [join_slash D]) with (join_slash D).
      rewrite ends_with_slash_app by done.
      rewrite ends_with_slash_cons by done.
      by apply ends_with_slash_join.
  - rewrite split_join_parts by (by destruct pre).
    rewrite map_app, concat_app, fold_left_app. simpl concat.
    rewrite app_nil_r, split_join_proper by done.
    rewrite fold_normalize_pushed.
    + destruct D using rev_ind; [done|]. rewrite rev_app_distr. done.
    + eapply Forall_impl; [exact Hproper|]. apply proper_pushed.
Qed.

(** ** Entries of a directory *)

Lemma lookup_update_eq (s : string) (c : fsnode) (es : list (string * fsnode)) :
  lookup_entry s (update_entry s c es) = Some c.
Proof.
  induction es as [|[n c'] es IH]; simpl.
  - by rewrite String.eqb_refl.
  - destruct (String.eqb n s) eqn:Hn; simpl; by rewrite Hn.
Qed.

Lemma lookup_update_ne (s s' : string) (c : fsnode) (es : list (string * fsnode)) :
  s ≠ s' → lookup_entry s' (update_entry s c es) = lookup_entry s' es.
Proof.
  intros Hne. induction es as [|[n c'] es IH]; simpl.
  - by apply String.eqb_neq in Hne as ->.
  - destruct (String.eqb_spec n s) as [->|Hn]; simpl.
    + by apply String.eqb_neq in Hne as ->.
    + by rewrite IH.
Qed.

Lemma update_entry_id (s : string) (c : fsnode) (es : list (string * fsnode)) :
  lookup_entry s es = Some c → update_entry s c es = es.
Proof.
  induction es as [|[n c'] es IH]; simpl; [done|].
  destruct (String.eqb_spec n s) as [->|Hn].
  - by intros [= ->].
  - intros H. by rewrite IH.
Qed.

Lemma update_update (s : string) (c c' : fsnode) (es : list (string * fsnode)) :
  update_entry s c (update_entry s c' es) = update_entry s c es.
Proof.
  induction es as [|[n c''] es IH]; simpl.
  - by rewrite String.eqb_refl.
  - destruct (String.eqb n s) eqn:Hn; simpl; rewrite Hn; [done|]. by rewrite IH.
Qed.

Lemma mkdir_at_again (segs : list string) :
  ∀ next n n' next',
    mkdir_at segs next n = Ok (n', next') →
    mkdir_at segs next' n' = Ok (n', next').
Proof.
  induction segs as [|s segs IH]; intros next n n' next' Hmk; simpl in *.
  - destruct n; try done. by injection Hmk as <- <-.
  - destruct n as [|i es|]; try done.
    destruct (lookup_entry s es) as [c|] eqn:Hlook.
    + destruct (mkdir_at segs next c) as [[c' nx]|] eqn:Hrec; [|done].
      simpl in Hmk. injection Hmk as <- <-.
      rewrite lookup_update_eq. rewrite (IH _ _ _ _ Hrec). simpl.
      by rewrite update_update.
    + destruct (mkdir_at segs (next + 1)%N (FsDir next [])) as [[c' nx]|] eqn:Hrec;
        [|done].
      simpl in Hmk. injection Hmk as <- <-.
      rewrite lookup_update_eq. rewrite (IH _ _ _ _ Hrec). simpl.
      by rewrite update_update.
Qed.

Lemma mkdir_at_made (segs : list string) :
  ∀ next n n' next',
    mkdir_at segs next n = Ok (n', next') →
    ∃ i es, locate segs n' = Ok (FsDir i es).
Proof.
  induction segs as [|s segs IH]; intros next n n' next' Hmk; simpl in *.
  - destruct n as [|i es|]; try done. injection Hmk as <- <-. by exists i, es.
  - destruct n as [|i es|]; try done.
    destruct (lookup_entry s es) as [c|] eqn:Hlook.
    + destruct (mkdir_at segs next c) as [[c' nx]|] eqn:Hrec; [|done].
      simpl in Hmk. injection Hmk as <- <-. simpl.
      rewrite lookup_update_eq. by eapply IH.
    + destruct (mkdir_at segs (next + 1)%N (FsDir next [])) as [[c' nx]|] eqn:Hrec;
        [|done].
      simpl in Hmk. injection Hmk as <- <-. simpl.
      rewrite lookup_update_eq. by eapply IH.
Qed.

Lemma mkdir_at_exists (segs : list string) :
  ∀ next n,
    mkdir_at segs next n = Raise EEXIST →
    ∃ node, locate segs n = Ok node ∧ isDirectory (stats_of node) = false.
Proof.
  induction segs as [|s segs IH]; intros next n Hmk; simpl in *.
  - destruct n as [i data|i es|i]; try done; eexists; by split.
  - destruct n as [|i es|]; try done.
    destruct (lookup_entry s es) as [c|] eqn:Hlook.
    + destruct (mkdir_at segs next c) as [[c' nx]|e] eqn:Hrec; [done|].
      simpl in Hmk. injection Hmk as ->. by eapply IH.
    + destruct (mkdir_at segs (next + 1)%N (FsDir next [])) as [[c' nx]|e] eqn:Hrec;
        [done|].
      simpl in Hmk. injection Hmk as ->.
      destruct (IH _ _ Hrec) as (node & Hloc & Hdir).
      exfalso. clear -Hloc Hdir. destruct segs; simpl in Hloc.
      * injection Hloc as <-. done.
      * done.
Qed.

Lemma write_at_written (segs : list string) (data : string) :
  ∀ next n n' next',
    write_at segs data next n = Ok (n', next') →
    (∃ j, locate segs n' = Ok (FsFile j data))
    ∨ (∃ j, locate segs n' = Ok (FsSpecial j) ∧ n' = n).
Proof.
  induction segs as [|s segs IH]; intros next n n' next' Hw; simpl in *; [done|].
  destruct n as [|i es|]; try done.
  destruct segs as [|s' segs].
  - destruct (lookup_entry s es) as [[j old|j es'|j]|] eqn:Hlook; try done.
    + injection Hw as <- <-. left. exists j. simpl. by rewrite lookup_update_eq.
    + injection Hw as <- <-. right. exists j. simpl. by rewrite Hlook.
    + injection Hw as <- <-. left. exists next. simpl. by rewrite lookup_update_eq.
  - destruct (lookup_entry s es) as [c|] eqn:Hlook; [|done].
    destruct (write_at (s' :: segs) data next c) as [[c' nx]|] eqn:Hrec; [|done].
    simpl in Hw. injection Hw as <- <-.
    destruct (IH _ _ _ _ Hrec) as [[j Hj]|(j & Hj & ->)].
    + left. exists j. simpl locate at 1. by rewrite lookup_update_eq.
    + right. exists j. rewrite update_entry_id by done. split; [|done].
      simpl locate at 1. by rewrite Hlook.
Qed.

Lemma chars_app (a b : string) :
  list_ascii_of_string (a ++ b)
  = (list_ascii_of_string a ++ list_ascii_of_string b)%list.
Proof. induction a as [|c a IH]; simpl; [done|]. by rewrite IH. Qed.

Lemma chars_slash_free (s : string) :
  slash_free s = true → no_slash (list_ascii_of_string s).
Proof.
  induction s as [|c s IH]; simpl; intros H; [constructor|].
  apply andb_prop in H as [Hc Hs]. constructor; [|by apply IH].
  by apply negb_true_iff.
Qed.

Lemma drop_slashes_kept (c : ascii) (l : list ascii) :
  Ascii.eqb c slash = false → drop_slashes (c :: l) = c :: l.
Proof. intros H. simpl. by rewrite H. Qed.

Lemma drop_segment_to_slash (a b : list ascii) :
  no_slash a → drop_segment (a ++ slash :: b) = slash :: b.
Proof.
  induction 1 as [|c a Hc Ha IH]; simpl.
  - done.
  - by rewrite Hc.
Qed.

Lemma drop_segment_none (a : list ascii) : no_slash a → drop_segment a = [].
Proof. induction 1 as [|c a Hc Ha IH]; simpl; [done|]. by rewrite Hc. Qed.

Lemma take_segment_all (a : list ascii) : no_slash a → take_segment a = a.
Proof. induction 1 as [|c a Hc Ha IH]; simpl; [done|]. by rewrite Hc, IH. Qed.

Lemma no_slash_rev (a : list ascii) : no_slash a → no_slash (rev a).
Proof. apply Forall_rev. Qed.

Lemma drop_slashes_name (a : list ascii) :
  no_slash a → drop_slashes a = a.
Proof. destruct 1 as [|c a Hc Ha]; [done|]. by apply drop_slashes_kept. Qed.

Lemma basename_name (n : string) : slash_free n = true → basename n = n.
Proof.
  intros Hn. unfold basename.
  pose proof (no_slash_rev _ (chars_slash_free n Hn)) as Hrev.
  rewrite drop_slashes_name, take_segment_all by done.
  by rewrite rev_involutive, string_of_list_ascii_of_string.
Qed.

Lemma dirname_name (n : string) : slash_free n = true → dirname n = ".".
Proof.
  intros Hn. destruct n as [|c0 tl]; [done|]. simpl in Hn.
  apply andb_prop in Hn as [Hc Htl]. apply negb_true_iff in Hc.
  unfold dirname. rewrite Hc.
  pose proof (no_slash_rev _ (chars_slash_free tl Htl)) as Hrev.
  by rewrite drop_slashes_name, drop_segment_none by done.
Qed.

Lemma dirname_slash (q n : string) :
  q ≠ "" → starts_with_slash q = false →
  n ≠ "" → slash_free n = true →
  dirname (q ++ "/" ++ n) = q.
Proof.
  intros Hq Hstart Hn Hfree.
  destruct q as [|c0 q']; [done|]. simpl in Hstart.
  change (String c0 q' ++ "/" ++ n) with (String c0 (q' ++ String slash n)).
  unfold dirname. rewrite Hstart.
  rewrite chars_app. simpl list_ascii_of_string.
  rewrite rev_app_distr. simpl rev. rewrite <- app_assoc. simpl app.
  pose proof (no_slash_rev _ (chars_slash_free n Hfree)) as Hrev.
  destruct (rev (list_ascii_of_string n)) as [|c a] eqn:Hchars.
  { exfalso. apply (f_equal (@rev ascii)) in Hchars.
    rewrite rev_involutive in Hchars. by destruct n. }
  inversion Hrev as [|? ? Hc Ha]; subst.
  rewrite <- app_comm_cons, drop_slashes_kept by done.
  rewrite app_comm_cons, drop_segment_to_slash by (by constructor).
  destruct (rev (list_ascii_of_string q')) as [|b before] eqn:Hq'.
  - apply (f_equal (@rev ascii)) in Hq'. rewrite rev_involutive in Hq'.
    by destruct q'.
  - rewrite <- Hq', rev_involutive.
    by rewrite string_of_list_ascii_of_string.
Qed.

Lemma dirname_join_slash (D : list string) (n : string) :
  Forall (λ seg, proper seg = true) D → proper n = true →
  dirname (join_slash (D ++ [n])) = if decide (D = []) then "." else join_slash D.
Proof.
  intros HD Hn.
  pose proof (proper_slash_free n Hn) as Hfree.
  destruct (decide (D = [])) as [->|Hne].
  - by apply dirname_name.
  - rewrite join_slash_app by (done || by intros [=]).
    apply dirname_slash.
    + by apply join_slash_nonempty.
    + by apply starts_with_slash_join.
    + by destruct n.
    + done.
Qed.


(** ** [mk] and [write] *)

(** X1: [mk] can be repeated.  When it has returned, doing it again returns
    too and leaves the disk as it is. *)
Theorem mk_again (config_FOLDER : string) (repoPath : string → string)
    (repoId dir : string) (d d1 : disk) :
  mk config_FOLDER repoPath repoId dir d = Done tt d1 →
  mk config_FOLDER repoPath repoId dir d1 = Done tt d1.
Proof.
  unfold mk, try_catch, update, mkdir_recursive.
  destruct (mkdir_at _ (next_ino d) (root d)) as [[n' nx]|e] eqn:Hmk; simpl.
  - intros [= <-]. simpl. by rewrite (mkdir_at_again _ _ _ _ _ Hmk).
  - destruct (ends_with_slash _ && bool_decide _) eqn:Hend; simpl; [done|].
    destruct (decide (error_code e = Some "EEXIST")) as [He|He]; [|done].
    intros [= <-]. rewrite Hmk, Hend. simpl. by rewrite decide_True.
Qed.

Lemma mk_again_witness :
  mk sample_FOLDER sample_repoPath "r1" "a/b"
    (run_on (mk sample_FOLDER sample_repoPath "r1" "a/b") empty_disk)
  = Done tt (run_on (mk sample_FOLDER sample_repoPath "r1" "a/b") empty_disk).
Proof.
  apply (mk_again sample_FOLDER sample_repoPath "r1" "a/b" empty_disk).
  reflexivity.
Defined.

(** X2: when [mk] has returned, [exists] answers [FOLDER] for the path,
    unless something that is not a directory had the path already: then
    [mk] has swallowed [EEXIST] and the disk is what it was. *)
Theorem mk_makes_the_directory (config_FOLDER : string)
    (repoPath : string → string) (repoId dir : string) (d d1 : disk) :
  mk config_FOLDER repoPath repoId dir d = Done tt d1 →
  exists_ config_FOLDER repoPath d1 repoId dir = Ok FOLDER
  ∨ (d1 = d
     ∧ ∃ node,
         locate (segments (join3 config_FOLDER (repoPath repoId) dir)) (root d)
         = Ok node
         ∧ isDirectory (stats_of node) = false).
Proof.
  unfold mk, try_catch, update, mkdir_recursive.
  destruct (mkdir_at _ (next_ino d) (root d)) as [[n' nx]|e] eqn:Hmk; simpl.
  - intros [= <-]. left.
    destruct (mkdir_at_made _ _ _ _ _ Hmk) as (i & es & Hloc).
    unfold exists_, stat, resolve. simpl. rewrite Hloc. simpl.
    by rewrite andb_false_r.
  - destruct (ends_with_slash _ && bool_decide _) eqn:Hend; simpl; [done|].
    destruct (decide (error_code e = Some "EEXIST")) as [He|He]; [|done].
    intros [= <-]. right. split; [done|].
    destruct e as [| |code|]; try done. simpl in He. injection He as ->.
    by apply (mkdir_at_exists _ _ _ Hmk).
Qed.

Lemma mk_makes_the_directory_witness :
  exists_ sample_FOLDER sample_repoPath
    (run_on (mk sample_FOLDER sample_repoPath "r1" "a/b") empty_disk) "r1" "a/b"
  = Ok FOLDER
  ∨ (run_on (mk sample_FOLDER sample_repoPath "r1" "a/b") empty_disk = empty_disk
     ∧ ∃ node,
         locate (segments (join3 sample_FOLDER (sample_repoPath "r1") "a/b"))
           (root empty_disk)
         = Ok node
         ∧ isDirectory (stats_of node) = false).
Proof.
  apply (mk_makes_the_directory sample_FOLDER sample_repoPath "r1" "a/b" empty_disk).
  reflexivity.
Defined.

(** X3: what [write] has written is there.  When [write] has returned,
    [exists] answers [FILE] for the path, a stream opened on it yields the
    data that was given and [stat] reports their length; the one exception
    is a path that is a special file, which takes the data and keeps
    nothing. *)
Theorem write_then_read (config_FOLDER : string) (repoPath : string → string)
    (repoId p data : string) (d d1 : disk) :
  write config_FOLDER repoPath repoId p data d = Done tt d1 →
  (exists_ config_FOLDER repoPath d1 repoId p = Ok FILE
   ∧ content d1 (join3 config_FOLDER (repoPath repoId) p) = Some data
   ∧ ∃ st, stat d1 (join3 config_FOLDER (repoPath repoId) p) = Ok st
           ∧ st_size st = Z.of_nat (String.length data))
  ∨ (∃ ino, locate (segments (join3 config_FOLDER (repoPath repoId) p)) (root d1)
            = Ok (FsSpecial ino)).
Proof.
  unfold write. unfold mbind at 1, M_bind, bind.
  destruct (mk _ _ _ _ d) as [[] d0|e d0|]; [|done|done].
  unfold update, writeFile.
  destruct (write_at _ data (next_ino d0) (root d0)) as [[n' nx]|e] eqn:Hw;
    simpl; [|done].
  destruct (ends_with_slash _) eqn:Hend; [done|].
  intros [= <-].
  destruct (write_at_written _ _ _ _ _ _ Hw) as [[j Hj]|(j & Hj & _)].
  - left. unfold exists_, content, stat, resolve. simpl. rewrite Hj, Hend. simpl.
    split; [done|]. split; [done|]. by eexists.
  - right. by exists j.
Qed.

Lemma write_then_read_witness :
  (exists_ sample_FOLDER sample_repoPath dollar_file "r1" "$notes.txt" = Ok FILE
   ∧ content dollar_file (join3 sample_FOLDER (sample_repoPath "r1") "$notes.txt")
     = Some "abc"
   ∧ ∃ st, stat dollar_file (join3 sample_FOLDER (sample_repoPath "r1") "$notes.txt")
           = Ok st
           ∧ st_size st = Z.of_nat (String.length "abc"))
  ∨ (∃ ino, locate (segments (join3 sample_FOLDER (sample_repoPath "r1") "$notes.txt"))
              (root dollar_file) = Ok (FsSpecial ino)).
Proof.
  apply (write_then_read sample_FOLDER sample_repoPath "r1" "$notes.txt" "abc"
           empty_disk dollar_file).
  reflexivity.
Defined.

Lemma segments_fullPath_dot (config_FOLDER : string)
    (repoPath : string → string) (repoId : string) :
  segments (join3 config_FOLDER (repoPath repoId) ".")
  = base config_FOLDER repoPath repoId.
Proof.
  unfold join3. rewrite segments_join. unfold base.
  simpl concat. rewrite app_assoc, fold_left_app. reflexivity.
Qed.

Lemma free_way_fresh (segs : list string) (n : string) (i : N) :
  free_way (segs ++ [n]) (FsDir i []) = true.
Proof. by destruct segs. Qed.

Lemma mkdir_then_write_at (n data : string) (segs : list string) :
  ∀ next node,
    free_way (segs ++ [n]) node = true →
    ∃ n1 nx1 n2 nx2,
      mkdir_at segs next node = Ok (n1, nx1)
      ∧ write_at (segs ++ [n]) data nx1 n1 = Ok (n2, nx2)
      ∧ ∃ i es, locate segs n2 = Ok (FsDir i es).
Proof.
  induction segs as [|s segs IH]; intros next node Hfree.
  - destruct node as [|i es|]; try done. simpl in Hfree.
    exists (FsDir i es), next. simpl.
    destruct (lookup_entry n es) as [[j old|j es'|j]|] eqn:Hlook; try done;
      eauto 10.
  - destruct node as [|i es|]; try done.
    assert (Hstep : ∀ c nx, free_way (segs ++ [n]) c = true →
              ∃ c1 nx1 c2 nx2,
                mkdir_at segs nx c = Ok (c1, nx1)
                ∧ write_at (s :: segs ++ [n]) data nx1
                    (FsDir i (update_entry s c1 es))
                  = Ok (FsDir i (update_entry s c2 es), nx2)
                ∧ ∃ j es', locate segs c2 = Ok (FsDir j es')).
    { intros c nx Hc.
      destruct (IH nx c Hc) as (c1 & nx1 & c2 & nx2 & Hmk & Hw & Hloc).
      exists c1, nx1, c2, nx2. split; [done|]. split; [|done].
      simpl. rewrite lookup_update_eq.
      destruct (segs ++ [n])%list as [|x rest] eqn:Hsegs; [by destruct segs|].
      rewrite Hw. simpl. by rewrite update_update. }
    simpl in Hfree. simpl mkdir_at.
    destruct (lookup_entry s es) as [c|] eqn:Hlook.
    + destruct (Hstep c next Hfree) as (c1 & nx1 & c2 & nx2 & Hmk & Hw & Hloc).
      rewrite Hmk. simpl. eexists _, _, _, _. split; [done|]. split; [exact Hw|].
      simpl. by rewrite lookup_update_eq.
    + destruct (Hstep (FsDir next []) (next + 1)%N (free_way_fresh _ _ _))
        as (c1 & nx1 & c2 & nx2 & Hmk & Hw & Hloc).
      rewrite Hmk. simpl. eexists _, _, _, _. split; [done|]. split; [exact Hw|].
      simpl. by rewrite lookup_update_eq.
Qed.

(** X4: [write] makes the directories that are missing.  For a path of
    proper names, when nothing stands in the way (what exists of the
    directories leading to the file are directories, and the place of the
    file is not taken by a directory), [write] returns; afterwards the
    directory of the file is a [FOLDER], and the file holds the data unless
    it is a special file. *)
Theorem write_makes_the_directories (config_FOLDER : string)
    (repoPath : string → string) (repoId : string) (D : list string)
    (n data : string) (d : disk) :
  Forall (λ seg, proper seg = true) D → proper n = true →
  free_way (base config_FOLDER repoPath repoId ++ D ++ [n]) (root d) = true →
  ∃ d1,
    write config_FOLDER repoPath repoId (join_slash (D ++ [n])) data d = Done tt d1
    ∧ exists_ config_FOLDER repoPath d1 repoId (join_slash D) = Ok FOLDER
    ∧ (content d1 (join3 config_FOLDER (repoPath repoId) (join_slash (D ++ [n])))
       = Some data
       ∨ ∃ ino,
           locate (base config_FOLDER repoPath repoId ++ D ++ [n]) (root d1)
           = Ok (FsSpecial ino)).
Proof.
  intros HD Hn Hfree.
  assert (HDn : Forall (λ seg, proper seg = true) (D ++ [n])%list).
  { apply Forall_app. split; [done|]. by constructor. }
  assert (Hdir : segments (join3 config_FOLDER (repoPath repoId)
                             (dirname (join_slash (D ++ [n]))))
                 = (base config_FOLDER repoPath repoId ++ D)%list).
  { rewrite dirname_join_slash by done.
    destruct (decide (D = [])) as [->|_].
    - rewrite segments_fullPath_dot. by rewrite app_nil_r.
    - by apply segments_fullPath. }
  pose proof (segments_fullPath config_FOLDER repoPath repoId (D ++ [n]) HDn)
    as Hfile.
  assert (Hend : ends_with_slash
                   (join3 config_FOLDER (repoPath repoId) (join_slash (D ++ [n])))
                 = false).
  { apply (ends_with_slash_joined [config_FOLDER; repoPath repoId] (D ++ [n]));
      [by destruct D|done]. }
  rewrite app_assoc in Hfree.
  destruct (mkdir_then_write_at n data _ (next_ino d) (root d) Hfree)
    as (n1 & nx1 & n2 & nx2 & Hmk & Hw & i & es & Hloc).
  exists (MkDisk n2 nx2).
  assert (Hrun : write config_FOLDER repoPath repoId (join_slash (D ++ [n])) data d
                 = Done tt (MkDisk n2 nx2)).
  { unfold write, mk, try_catch, update, mkdir_recursive, writeFile.
    unfold mbind at 1, M_bind, bind.
    rewrite Hdir, Hmk. simpl. rewrite Hfile, app_assoc, Hw, Hend. reflexivity. }
  split; [done|]. split.
  - unfold exists_, stat, resolve. rewrite segments_fullPath by done. simpl.
    rewrite Hloc. simpl. by rewrite andb_false_r.
  - destruct (write_at_written _ _ _ _ _ _ Hw) as [[j Hj]|(j & Hj & _)].
    + left. unfold content, resolve. rewrite Hfile, app_assoc, Hend. simpl.
      by rewrite Hj.
    + right. exists j. by rewrite app_assoc.
Qed.

Lemma write_makes_the_directories_witness :
  ∃ d1,
    write sample_FOLDER sample_repoPath "r1" (join_slash (["a"; "$b"] ++ ["c.txt"]))
      "hello" empty_disk = Done tt d1
    ∧ exists_ sample_FOLDER sample_repoPath d1 "r1" (join_slash ["a"; "$b"])
      = Ok FOLDER
    ∧ (content d1 (join3 sample_FOLDER (sample_repoPath "r1")
                     (join_slash (["a"; "$b"] ++ ["c.txt"])))
       = Some "hello"
       ∨ ∃ ino,
           locate (base sample_FOLDER sample_repoPath "r1" ++ ["a"; "$b"] ++ ["c.txt"])
             (root d1)
           = Ok (FsSpecial ino)).
Proof.
  apply (write_makes_the_directories sample_FOLDER sample_repoPath "r1"
           ["a"; "$b"] "c.txt" "hello" empty_disk).
  - repeat constructor.
  - reflexivity.
  - reflexivity.
Defined.

(** ** [rm] *)

Lemma lookup_remove_entry (s : string) (es : list (string * fsnode)) :
  lookup_entry s (remove_entry s es) = None.
Proof.
  induction es as [|[n c] es IH]; simpl; [done|].
  destruct (String.eqb n s) eqn:Hn; simpl; [done|]. by rewrite Hn.
Qed.

Lemma remove_entry_missing (s : string) (es : list (string * fsnode)) :
  lookup_entry s es = None → remove_entry s es = es.
Proof.
  unfold remove_entry. induction es as [|[n c] es IH]; simpl; [done|].
  destruct (String.eqb n s) eqn:Hn; simpl; [done|].
  intros H. by rewrite IH.
Qed.

Lemma rm_at_gone (segs : list string) :
  ∀ n n' more,
    rm_at segs n = Ok n' →
    ∃ e, locate (segs ++ more) n' = Raise e.
Proof.
  induction segs as [|s segs IH]; intros n n' more Hrm; simpl in Hrm; [done|].
  destruct n as [|i es|]; try done.
  destruct segs as [|s' segs].
  - injection Hrm as <-. simpl. rewrite lookup_remove_entry. by eexists.
  - destruct (lookup_entry s es) as [c|] eqn:Hlook.
    + destruct (rm_at (s' :: segs) c) as [c'|] eqn:Hrec; [|done].
      simpl in Hrm. injection Hrm as <-.
      change (((s :: s' :: segs) ++ more)%list)
        with (s :: ((s' :: segs) ++ more)%list).
      simpl locate at 1. rewrite lookup_update_eq. by eapply IH.
    + injection Hrm as <-. simpl. rewrite Hlook. by eexists.
Qed.

Lemma rm_at_missing (segs : list string) :
  ∀ n, locate segs n = Raise ENOENT → rm_at segs n = Ok n.
Proof.
  induction segs as [|s segs IH]; intros n Hloc; simpl in *; [done|].
  destruct n as [|i es|]; try done.
  destruct (lookup_entry s es) as [c|] eqn:Hlook.
  - destruct segs as [|s' segs]; [done|].
    rewrite (IH c Hloc). simpl. by rewrite update_entry_id.
  - destruct segs as [|s' segs]; [|done].
    by rewrite remove_entry_missing.
Qed.

(** What [rm] has done when it returns: nothing, the path leading nowhere,
    or the removal of what the path leads to. *)
Lemma rm_recursive_done (p : string) (d d1 : disk) :
  rm_recursive p d = Ok d1 →
  (d1 = d ∧ ∃ e, locate (segments p) (root d) = Raise e)
  ∨ ∃ r, rm_at (segments p) (root d) = Ok r ∧ d1 = MkDisk r (next_ino d).
Proof.
  unfold rm_recursive, resolve.
  destruct (locate (segments p) (root d)) as [m|e] eqn:Hloc; simpl.
  - destruct (ends_with_slash p && negb (isDirectory (stats_of m))); [done|].
    destruct (rm_at _ _) as [r|e]; simpl; [|done].
    intros [= <-]. right. by exists r.
  - destruct (bool_decide _); [|done].
    intros [= <-]. left. split; [done|]. by exists e.
Qed.

(** X5: what [rm] has removed is gone.  When [rm] has returned for a
    directory given by proper names, [exists] answers [NOT_FOUND] for it
    and for every path of proper names below it. *)
Theorem rm_then_not_found (config_FOLDER : string) (repoPath : string → string)
    (repoId : string) (D E : list string) (d d1 : disk) :
  Forall (λ seg, proper seg = true) D → Forall (λ seg, proper seg = true) E →
  rm config_FOLDER repoPath repoId (join_slash D) d = Done tt d1 →
  exists_ config_FOLDER repoPath d1 repoId (join_slash (D ++ E)) = Ok NOT_FOUND.
Proof.
  intros HD HE. unfold rm, update.
  destruct (rm_recursive _ d) as [d2|e] eqn:Hrm; [|done].
  intros [= <-].
  assert (Hgone : ∃ e, locate (base config_FOLDER repoPath repoId ++ D ++ E)
                         (root d2) = Raise e).
  { apply rm_recursive_done in Hrm. rewrite segments_fullPath in Hrm by done.
    rewrite app_assoc.
    destruct Hrm as [[-> [e He]]|(r & Hr & ->)].
    - exists e. by rewrite locate_app, He.
    - by apply (rm_at_gone _ _ _ E Hr). }
  destruct Hgone as [e He].
  unfold exists_, stat, resolve.
  rewrite segments_fullPath by (by apply Forall_app).
  by rewrite He.
Qed.

Lemma rm_then_not_found_witness :
  exists_ sample_FOLDER sample_repoPath
    (run_on (rm sample_FOLDER sample_repoPath "r1" (join_slash ["a"])) two_files)
    "r1" (join_slash (["a"] ++ ["b.txt"]))
  = Ok NOT_FOUND.
Proof.
  apply (rm_then_not_found sample_FOLDER sample_repoPath "r1" ["a"] ["b.txt"]
           two_files).
  - repeat constructor.
  - repeat constructor.
  - reflexivity.
Defined.

(** X6: [rm] of what is not there.  When the path leads nowhere because a
    name on it is missing, [rm] returns and the disk is what it was. *)
Theorem rm_of_nothing (config_FOLDER : string) (repoPath : string → string)
    (repoId dir : string) (d : disk) :
  locate (segments (join3 config_FOLDER (repoPath repoId) dir)) (root d)
  = Raise ENOENT →
  rm config_FOLDER repoPath repoId dir d = Done tt d.
Proof.
  intros Hloc. unfold rm, update, rm_recursive, resolve.
  by rewrite Hloc.
Qed.

Lemma rm_of_nothing_witness :
  rm sample_FOLDER sample_repoPath "r2" "x/y" two_files = Done tt two_files.
Proof.
  apply (rm_of_nothing sample_FOLDER sample_repoPath "r2" "x/y" two_files).
  reflexivity.
Defined.

Lemma lookup_remove_other (s s' : string) (es : list (string * fsnode)) :
  s ≠ s' → lookup_entry s' (remove_entry s es) = lookup_entry s' es.
Proof.
  intros Hne. unfold remove_entry.
  induction es as [|[n c] es IH]; simpl; [done|].
  destruct (String.eqb_spec n s) as [->|Hn]; simpl.
  - by apply String.eqb_neq in Hne as ->.
  - by rewrite IH.
Qed.

Lemma same_kind_refl (r : result fsnode) : same_kind r r.
Proof. by destruct r. Qed.

Lemma rm_at_elsewhere (segs : list string) :
  ∀ n n' other,
    rm_at segs n = Ok n' →
    ¬ segs `prefix_of` other →
    same_kind (locate other n') (locate other n).
Proof.
  induction segs as [|s segs IH]; intros n n' other Hrm Hpre; simpl in Hrm;
    [done|].
  destruct n as [|i es|]; try done.
  destruct other as [|o other].
  { destruct segs; [|destruct (lookup_entry s es); [destruct (rm_at _ _)|]];
      simplify_eq/=; done. }
  destruct (decide (s = o)) as [<-|Hne].
  - assert (Hrest : ¬ segs `prefix_of` other).
    { intros Hp. apply Hpre. by apply prefix_cons. }
    destruct segs as [|s' segs]; [by destruct Hrest; apply prefix_nil|].
    destruct (lookup_entry s es) as [c|] eqn:Hlook.
    + destruct (rm_at (s' :: segs) c) as [c'|] eqn:Hrec; [|done].
      simpl in Hrm. injection Hrm as <-. simpl locate.
      rewrite lookup_update_eq, Hlook. by apply IH.
    + injection Hrm as <-. apply same_kind_refl.
  - assert (Hlook : ∀ es', lookup_entry o es' = lookup_entry o es →
              same_kind (locate (o :: other) (FsDir i es'))
                (locate (o :: other) (FsDir i es))).
    { intros es' Heq. simpl. rewrite Heq. apply same_kind_refl. }
    destruct segs as [|s' segs].
    + injection Hrm as <-. apply Hlook. by apply lookup_remove_other.
    + destruct (lookup_entry s es) as [c|] eqn:Hs.
      * destruct (rm_at (s' :: segs) c) as [c'|] eqn:Hrec; [|done].
        simpl in Hrm. injection Hrm as <-. apply Hlook.
        by apply lookup_update_ne.
      * injection Hrm as <-. apply same_kind_refl.
Qed.

(** X29: [rm] removes what is under the path and nothing else.  When [rm]
    has returned for a directory, [exists] answers for every path that does
    not lie under it what it answered before. *)
Theorem rm_leaves_the_rest (config_FOLDER : string) (repoPath : string → string)
    (repoId : string) (D D' : list string) (d d1 : disk) :
  Forall (λ seg, proper seg = true) D → Forall (λ seg, proper seg = true) D' →
  ¬ D `prefix_of` D' →
  rm config_FOLDER repoPath repoId (join_slash D) d = Done tt d1 →
  exists_ config_FOLDER repoPath d1 repoId (join_slash D')
  = exists_ config_FOLDER repoPath d repoId (join_slash D').
Proof.
  intros HD HD' Hpre. unfold rm, update.
  destruct (rm_recursive _ d) as [d2|e] eqn:Hrm; [|done].
  intros [= <-].
  apply rm_recursive_done in Hrm. rewrite segments_fullPath in Hrm by done.
  destruct Hrm as [[-> _]|(r & Hrm & ->)]; [done|].
  unfold exists_, stat, resolve.
  rewrite segments_fullPath by done. simpl.
  assert (Hsame : same_kind
            (locate (base config_FOLDER repoPath repoId ++ D') r)
            (locate (base config_FOLDER repoPath repoId ++ D') (root d))).
  { apply (rm_at_elsewhere _ _ _ _ Hrm).
    intros Hp. apply Hpre. by apply prefix_app_inv in Hp. }
  unfold same_kind in Hsame.
  destruct (locate _ r) as [m'|e'], (locate _ (root d)) as [m|e]; simpl;
    try done.
  destruct Hsame as [Hdir Hfile]. rewrite Hdir.
  destruct (ends_with_slash _ && negb (isDirectory (stats_of m))); simpl;
    [done|].
  by rewrite Hdir, Hfile.
Qed.

Lemma rm_leaves_the_rest_witness :
  exists_ sample_FOLDER sample_repoPath
    (run_on (rm sample_FOLDER sample_repoPath "r1" (join_slash ["a"])) two_files)
    "r1" (join_slash ["c.txt"])
  = exists_ sample_FOLDER sample_repoPath two_files "r1" (join_slash ["c.txt"]).
Proof.
  apply (rm_leaves_the_rest sample_FOLDER sample_repoPath "r1" ["a"] ["c.txt"]
           two_files).
  - repeat constructor.
  - repeat constructor.
  - intros [k Hk]. discriminate Hk.
  - reflexivity.
Defined.

(** ** [extractZip] *)

Lemma indexOf_slash_prefix (w rest : string) :
  slash_free w = true →
  indexOf_slash (w ++ String slash rest) = Z.of_nat (String.length w).
Proof.
  induction w as [|c w IH]; intros Hw.
  - reflexivity.
  - simpl in Hw. apply andb_prop in Hw as [Hc Hw]. apply negb_true_iff in Hc.
    change (String c w ++ String slash rest) with (String c (w ++ String slash rest)).
    simpl indexOf_slash. rewrite Hc, (IH Hw).
    destruct (Z.ltb_spec (Z.of_nat (String.length w)) 0); [lia|].
    simpl String.length. lia.
Qed.

Lemma indexOf_slash_none (s : string) :
  slash_free s = true → indexOf_slash s = -1.
Proof.
  induction s as [|c s IH]; intros Hs; [done|].
  simpl in Hs. apply andb_prop in Hs as [Hc Hs]. apply negb_true_iff in Hc.
  simpl. by rewrite Hc, (IH Hs).
Qed.

Lemma substring_all (s : string) : String.substring 0 (String.length s) s = s.
Proof. induction s as [|c s IH]; simpl; [done|]. by rewrite IH. Qed.

Lemma substring_skip (w s : string) (m : nat) :
  String.substring (String.length w) m (w ++ s) = String.substring 0 m s.
Proof. induction w as [|c w IH]; simpl; [done|]. apply IH. Qed.

Lemma string_length_app (a b : string) :
  String.length (a ++ b) = (String.length a + String.length b)%nat.
Proof. induction a as [|c a IH]; simpl; [done|]. by rewrite IH. Qed.

(** X7: [decodeString] takes the first component off a name.  For a name
    that is a component without separator, a separator and a rest, the
    result is the rest, whatever separators it has; when the rest is empty,
    the result is [/dev/null]. *)
Theorem decodeString_strips_wrapper (wrapper rest : string) :
  slash_free wrapper = true →
  decodeString (wrapper ++ "/" ++ rest)
  = if String.eqb rest "" then "/dev/null" else rest.
Proof.
  intros Hw. unfold decodeString, substr.
  change ("/" ++ rest) with (String slash rest).
  rewrite indexOf_slash_prefix by done.
  replace (Z.to_nat (Z.of_nat (String.length wrapper) + 1))
    with (String.length (wrapper ++ "/")) by (rewrite string_length_app; simpl; lia).
  replace (wrapper ++ String slash rest) with ((wrapper ++ "/") ++ rest)
    by (by rewrite string_app_assoc).
  rewrite substring_skip, string_length_app.
  replace (String.length (wrapper ++ "/") + String.length rest
           - String.length (wrapper ++ "/"))%nat
    with (String.length rest) by lia.
  by rewrite substring_all.
Qed.

Lemma decodeString_strips_wrapper_witness :
  decodeString ("repo-main" ++ "/" ++ "src/$lib/a.ts")
  = if String.eqb "src/$lib/a.ts" "" then "/dev/null" else "src/$lib/a.ts".
Proof.
  apply (decodeString_strips_wrapper "repo-main" "src/$lib/a.ts").
  reflexivity.
Defined.

(** X8: a name without separator is not shortened: [decodeString] gives it
    back as it is, so an entry at the top of an archive that has no wrapping
    directory keeps its name.  The empty name becomes [/dev/null]. *)
Theorem decodeString_without_separator (name : string) :
  slash_free name = true →
  decodeString name = if String.eqb name "" then "/dev/null" else name.
Proof.
  intros Hn. unfold decodeString, substr.
  rewrite indexOf_slash_none by done. simpl Z.to_nat.
  by rewrite Nat.sub_0_r, substring_all.
Qed.

Lemma decodeString_without_separator_witness :
  decodeString "README.md"
  = if String.eqb "README.md" "" then "/dev/null" else "README.md".
Proof.
  apply (decodeString_without_separator "README.md").
  reflexivity.
Defined.

(** ** Errors of the walk *)

(** X9: the one error that [listFiles] throws is that of reading the
    directory it is asked for: whatever goes wrong below it, in [stat], in
    the callback or in the walk of a subdirectory, is swallowed.  The error
    is thrown before any entry is looked at. *)
Theorem listFiles_throws_for_its_directory_only (config_FOLDER : string)
    (repoPath : string → string) (fuel : nat) (d : disk) (repoId dir : string)
    (onEntry : option (string → Z → M loop unit)) (l l' : loop) (e : jserror) :
  listFiles config_FOLDER repoPath (S fuel) d repoId dir onEntry l = Throw e l'
  ↔ readdir d (join3 config_FOLDER (repoPath repoId) dir) = Raise e
    ∧ l' = drain l.
Proof.
  rewrite listFiles_unfold. cbv zeta.
  destruct (readdir d _) as [files|e'].
  - split; [|by intros [? _]].
    intros H. by apply listFiles_loop_caught in H.
  - split.
    + by intros [= -> ->].
    + by intros [[= ->] ->].
Qed.

(** ** What [archive] appends for a directory of files *)

Lemma segments_join2_name (a file : string) :
  proper file = true → segments (join2 a file) = (segments a ++ [file])%list.
Proof.
  intros Hf. unfold join2. rewrite segments_join. unfold segments.
  simpl concat. rewrite app_nil_r, fold_left_app.
  rewrite split_slash_free by (by apply proper_slash_free).
  simpl. by rewrite normalize_step_pushed by (by apply proper_pushed).
Qed.

Lemma prefix_slash_free (pattern s : string) :
  String.prefix pattern s = true → slash_free s = true →
  slash_free pattern = true.
Proof.
  revert s. induction pattern as [|c pattern IH]; intros s Hpre Hs; [done|].
  destruct s as [|c' s]; [done|]. simpl in *.
  destruct (Ascii.ascii_dec c c') as [->|Hne]; [|done].
  apply andb_prop in Hs as [Hc Hs]. rewrite Hc. simpl. by apply (IH s).
Qed.

Lemma replace_first_cons (pattern replacement : string) (c : ascii) (s : string) :
  replace_first pattern replacement (String c s)
  = if String.prefix pattern (String c s)
    then replacement ++ String.substring (String.length pattern)
                          (String.length (String c s) - String.length pattern)
                          (String c s)
    else String c (replace_first pattern replacement s).
Proof. reflexivity. Qed.

Lemma replace_first_absent (pattern replacement s : string) :
  slash_free pattern = false → slash_free s = true →
  replace_first pattern replacement s = s.
Proof.
  intros Hp. induction s as [|c s IH]; intros Hs.
  - by destruct pattern.
  - rewrite replace_first_cons.
    destruct (String.prefix pattern (String c s)) eqn:Hpre.
    + apply prefix_slash_free in Hpre; [congruence|done].
    + simpl in Hs. apply andb_prop in Hs as [_ Hs]. by rewrite IH.
Qed.

Lemma appended_app (a b : list event) :
  appended (a ++ b) = (appended a ++ appended b)%list.
Proof. apply omap_app. Qed.

Section Flat.
Context (config_FOLDER : string) (repoPath : string → string).
Context (d : disk) (repoId : string) (fileTransformer : bool).
Context (rec : string → M loop Tree).
Context (ino : N) (entries : list (string * fsnode)).

Context (Hbase : locate (base config_FOLDER repoPath repoId) (root d)
                 = Ok (FsDir ino entries)).
Context (Hslash : slash_free (join3 config_FOLDER (repoPath repoId) "") = false).

Lemma segments_fullPath_root :
  segments (join3 config_FOLDER (repoPath repoId) "")
  = base config_FOLDER repoPath repoId.
Proof.
  pose proof (segments_fullPath config_FOLDER repoPath repoId []
                ltac:(constructor)) as H.
  rewrite app_nil_r in H. exact H.
Qed.

Lemma archive_entry_flat (output : Tree) (file : string) (c : fsnode) (l : loop) :
  proper file = true → lookup_entry file entries = Some c →
  isDirectory (stats_of c) = false →
  ∃ out l1,
    listFiles_entry d
      (Some (archive_onEntry config_FOLDER repoPath repoId
               (join3 config_FOLDER (repoPath repoId) "") fileTransformer))
      rec "" (join3 config_FOLDER (repoPath repoId) "") output file l
    = Done out l1
    ∧ appended (all_events l1)
      = (appended (all_events l)
         ++ match c with FsFile _ _ => [(".", file)] | _ => [] end)%list.
Proof.
  intros Hf Hlook Hdir.
  assert (Hpath : join2 "" file = file).
  { exact (filePath_proper [] file ltac:(constructor) Hf). }
  assert (Hstat : stat d (join2 (join3 config_FOLDER (repoPath repoId) "")
                            (join2 "" file))
                  = Ok (stats_of c)).
  { unfold stat, resolve.
    rewrite Hpath, segments_join2_name, segments_fullPath_root by done.
    rewrite locate_app, Hbase. simpl. rewrite Hlook.
    assert (Hend : ends_with_slash
                     (join2 (join3 config_FOLDER (repoPath repoId) "") file)
                   = false).
    { apply (ends_with_slash_joined [join3 config_FOLDER (repoPath repoId) ""]
               [file]); [done|by constructor]. }
    by rewrite Hend. }
  unfold listFiles_entry, try_catch.
  rewrite (await_ok _ (stats_of c)) by done. rewrite Hdir.
  destruct c as [j data|j es|j]; [|done|].
  - simpl isFile. cbv iota. rewrite Hpath.
    unfold archive_onEntry, read.
    rewrite replace_first_absent by (done || by apply proper_slash_free).
    rewrite basename_name, dirname_name by (by apply proper_slash_free).
    eexists _, _. split; [reflexivity|].
    unfold all_events, drain. simpl.
    rewrite app_nil_r, !appended_app. simpl. rewrite app_nil_r.
    by destruct fileTransformer.
  - simpl. eexists _, _. split; [reflexivity|].
    unfold all_events, drain. simpl. by rewrite !app_nil_r.
Qed.

Lemma archive_loop_flat (files : list string) :
  Forall (λ file, proper file = true
                  ∧ ∃ c, lookup_entry file entries = Some c
                         ∧ isDirectory (stats_of c) = false) files →
  ∀ output l,
    ∃ T l',
      listFiles_loop d
        (Some (archive_onEntry config_FOLDER repoPath repoId
                 (join3 config_FOLDER (repoPath repoId) "") fileTransformer))
        rec "" (join3 config_FOLDER (repoPath repoId) "") files output l
      = Done T l'
      ∧ appended (all_events l')
        = (appended (all_events l)
           ++ omap (λ n, match lookup_entry n entries with
                          | Some (FsFile _ _) => Some (".", n)
                          | _ => None
                          end) files)%list.
Proof.
  induction 1 as [|file files (Hf & c & Hlook & Hdir) Hall IH]; intros output l.
  - exists output, l. split; [done|]. simpl. by rewrite app_nil_r.
  - destruct (archive_entry_flat output file c l Hf Hlook Hdir)
      as (out & l1 & Hentry & Happ).
    destruct (IH out l1) as (T & l' & Hloop & Happ').
    exists T, l'. split.
    + simpl. unfold mbind, M_bind, bind. by rewrite Hentry.
    + rewrite Happ', Happ, <- app_assoc. f_equal. simpl. rewrite Hlook.
      by destruct c.
Qed.
End Flat.

Lemma lookup_entry_first (entries : list (string * fsnode)) (n : string) :
  n ∈ map fst entries → ∃ c, lookup_entry n entries = Some c ∧ (n, c) ∈ entries.
Proof.
  induction entries as [|[n' c'] entries IH]; simpl; intros Hin.
  - by apply elem_of_nil in Hin.
  - destruct (String.eqb_spec n' n) as [->|Hne].
    + exists c'. split; [done|]. by left.
    + apply elem_of_cons in Hin as [->|Hin]; [done|].
      destruct (IH Hin) as (c & Hc & Hin'). exists c. split; [done|]. by right.
Qed.

(** X10: the archive of a directory of files.  When the root of the cache of
    a repository (its path has a separator) holds no directory, [archive]
    of it returns with [finalize] as the last event, and what it has
    appended are the regular files of the root, each once, in the order of
    the directory, under its own name with the prefix [.]. *)
Theorem archive_of_flat_root (config_FOLDER : string)
    (repoPath : string → string) (d : disk) (repoId : string)
    (fileTransformer : bool) (fuel : nat) (ino : N)
    (entries : list (string * fsnode)) :
  locate (base config_FOLDER repoPath repoId) (root d) = Ok (FsDir ino entries) →
  Forall (λ e, proper e.1 = true ∧ isDirectory (stats_of e.2) = false) entries →
  slash_free (join3 config_FOLDER (repoPath repoId) "") = false →
  ∃ evs,
    archive config_FOLDER repoPath (S fuel) d repoId "" fileTransformer idle
    = Done tt (Loop [] (evs ++ [Finalize]))
    ∧ appended evs = regular_files entries.
Proof.
  intros Hbase Hall Hslash.
  set (fullPath := join3 config_FOLDER (repoPath repoId) "").
  assert (Hread : readdir d fullPath = Ok (map fst entries)).
  { unfold readdir, fullPath.
    rewrite (segments_fullPath_root config_FOLDER repoPath repoId).
    by rewrite Hbase. }
  assert (Hfiles : Forall (λ file, proper file = true
                    ∧ ∃ c, lookup_entry file entries = Some c
                           ∧ isDirectory (stats_of c) = false) (map fst entries)).
  { apply Forall_forall. intros n Hin.
    destruct (lookup_entry_first entries n Hin) as (c & Hc & Hin').
    rewrite Forall_forall in Hall. destruct (Hall (n, c) Hin') as [Hn Hdir].
    split; [done|]. by exists c. }
  destruct (archive_loop_flat config_FOLDER repoPath d repoId fileTransformer
              (λ filePath, listFiles config_FOLDER repoPath fuel d repoId filePath
                 (Some (archive_onEntry config_FOLDER repoPath repoId fullPath
                          fileTransformer)))
              ino entries Hbase Hslash (map fst entries) Hfiles ∅ (drain idle))
    as (T & l' & Hloop & Happ).
  exists (all_events l'). subst fullPath. split.
  - unfold archive.
    unfold mbind, M_bind, bind at 1.
    rewrite listFiles_unfold. cbv zeta. rewrite Hread, Hloop.
    unfold bind, enqueue, modify, drain, all_events. simpl.
    rewrite concat_app. simpl. by rewrite app_assoc.
  - rewrite Happ. reflexivity.
Qed.

Lemma archive_of_flat_root_witness :
  ∃ evs,
    archive sample_FOLDER sample_repoPath 1 dollar_file "r1" "" true idle
    = Done tt (Loop [] (evs ++ [Finalize]))
    ∧ appended evs = regular_files [("$notes.txt", FsFile 5 "abc")].
Proof.
  apply (archive_of_flat_root sample_FOLDER sample_repoPath dollar_file "r1"
           true 0 4 [("$notes.txt", FsFile 5 "abc")]).
  - reflexivity.
  - repeat constructor.
  - reflexivity.
Defined.
(* ================================================================== *)
(** * More on the fold of a listing and on the remote calls             *)
(* ================================================================== *)

(** ** Keys *)

Lemma escape_other (c : ascii) (p : string) :
  c ≠ "$"%char → escape (String c p) = String c p.
Proof.
  intros Hc. unfold escape.
  destruct c as [[] [] [] [] [] [] [] []]; done.
Qed.

(** X11: two names get the same key only in one way.  [escape] sends two
    names that differ to the same key exactly when one of them starts with
    [$] and the other is that name with a backslash before it. *)
Theorem escape_collides (a b : string) :
  escape a = escape b
  ↔ a = b
    ∨ (∃ rest, a = String "$" rest ∧ b = String "\" (String "$" rest))
    ∨ (∃ rest, b = String "$" rest ∧ a = String "\" (String "$" rest)).
Proof.
  split.
  - destruct a as [|ca a], b as [|cb b].
    + by left.
    + destruct (Ascii.ascii_dec cb "$") as [->|Hb]; [done|].
      by rewrite escape_other.
    + destruct (Ascii.ascii_dec ca "$") as [->|Ha]; [done|].
      by rewrite escape_other.
    + destruct (Ascii.ascii_dec ca "$") as [->|Ha],
               (Ascii.ascii_dec cb "$") as [->|Hb].
      * rewrite !escape_dollar. intros [= ->]. by left.
      * rewrite escape_dollar, escape_other by done. intros <-.
        right. left. by exists a.
      * rewrite escape_dollar, escape_other by done. intros ->.
        right. right. by exists b.
      * rewrite !escape_other by done. intros ->. by left.
  - intros [->|[(rest & -> & ->)|(rest & -> & ->)]]; reflexivity.
Qed.

(** ** The fold of the listing of a repository *)

Ltac among :=
  let x := fresh "x" in
  let Hx := fresh "Hx" in
  intros x Hx;
  repeat (apply elem_of_cons in Hx as [->|Hx]);
  try (by apply elem_of_nil in Hx);
  repeat first [by left | right].

(** X12: the order of a listing does not matter.  For a tree of proper
    names, none of them a name under which an object inherits a member, the
    recursive listing of its children folds into the tree that stands for
    them, in whatever order the children are listed and however often. *)
Theorem fold_in_any_order (sha : string) (cs shown : list (string * gitobj)) :
  proper_tree (GTree sha cs) = true →
  plain_tree (GTree sha cs) = true →
  shown ⊆ cs → cs ⊆ shown →
  tree2Tree (listing [] shown) ∅ "" = Ok (denote cs).
Proof.
  intros Hproper _ Hshown Hall.
  pose proof (folds_children (GTree sha cs) Hproper) as Hfolds. simpl in Hfolds.
  assert (Hgood : good (map escape ([] ++ [])) (denote cs) ∅).
  { split; [done|]. apply map_empty_subseteq. }
  destruct (Hfolds [] [] shown ∅ ltac:(done) ltac:(done) Hshown Hgood)
    as (t' & Hfold & [_ Hsub] & _ & Hcover & _).
  change (join_slash []) with "" in Hfold. rewrite Hfold. f_equal.
  apply denote_full; [done|]. intros nc Hnc. apply Hcover. by apply Hall.
Qed.

Lemma fold_in_any_order_witness :
  tree2Tree (listing [] [("README.md", GBlob "b3" 5); ("src", GTree "t1" src_dir);
                         ("README.md", GBlob "b3" 5)]) ∅ ""
  = Ok (denote top_dir).
Proof.
  apply (fold_in_any_order "c0" top_dir).
  - reflexivity.
  - reflexivity.
  - among.
  - among.
Defined.

(** X13: folding again changes nothing.  Into the tree that stands for the
    children of a tree of proper names, the recursive listing of any of
    them folds without a change, and so does the listing of one level:
    the second fold of [getTruncatedTree] leaves a complete tree as it
    is. *)
Theorem fold_again_changes_nothing (sha : string)
    (cs shown : list (string * gitobj)) :
  proper_tree (GTree sha cs) = true →
  shown ⊆ cs →
  tree2Tree (listing [] shown) (denote cs) "" = Ok (denote cs)
  ∧ tree2Tree (one_level shown) (denote cs) "" = Ok (denote cs).
Proof.
  intros Hproper Hshown.
  pose proof (folds_children (GTree sha cs) Hproper) as Hfolds. simpl in Hfolds.
  destruct (proper_tree_inv sha cs Hproper) as (_ & Hdup & Hnames).
  assert (Hgood : good (map escape ([] ++ [])) (denote cs) (denote cs))
    by (by split).
  split.
  - destruct (Hfolds [] [] shown (denote cs) ltac:(done) ltac:(done) Hshown Hgood)
      as (t' & Hfold & [_ Hsub] & Hgrow & _).
    change (join_slash []) with "" in Hfold. rewrite Hfold. f_equal.
    simpl in Hsub, Hgrow. by apply (anti_symm (⊆)).
  - destruct (fold_one_level cs [] Hdup Hnames ltac:(done) shown (denote cs)
                Hshown Hgood)
      as (t' & Hfold & [_ Hsub] & Hgrow & _).
    { intros n sha' cs' Hin. left. simpl.
      rewrite (denote_lookup cs n (GTree sha' cs') Hdup (Hshown _ Hin)).
      by eexists. }
    change (join_slash []) with "" in Hfold. rewrite Hfold. f_equal.
    simpl in Hsub, Hgrow. by apply (anti_symm (⊆)).
Qed.

Lemma fold_again_changes_nothing_witness :
  tree2Tree (listing [] [("src", GTree "t1" src_dir)]) (denote top_dir) ""
  = Ok (denote top_dir)
  ∧ tree2Tree (one_level [("src", GTree "t1" src_dir)]) (denote top_dir) ""
    = Ok (denote top_dir).
Proof.
  apply (fold_again_changes_nothing "c0" top_dir).
  - reflexivity.
  - among.
Defined.

Lemma fold_complete_listing (sha : string) (cs : list (string * gitobj)) :
  proper_tree (GTree sha cs) = true →
  tree2Tree (listing [] cs) ∅ "" = Ok (denote cs).
Proof.
  intros Hproper.
  pose proof (folds_children (GTree sha cs) Hproper) as Hfolds. simpl in Hfolds.
  assert (Hgood : good (map escape ([] ++ [])) (denote cs) ∅).
  { split; [done|]. apply map_empty_subseteq. }
  destruct (Hfolds [] [] cs ∅ ltac:(done) ltac:(done) ltac:(done) Hgood)
    as (t' & Hfold & [_ Hsub] & _ & Hcover & _).
  change (join_slash []) with "" in Hfold. rewrite Hfold. f_equal.
  by apply denote_full.
Qed.

Lemma child_elem (n : string) (cs : list (string * gitobj)) (c : gitobj) :
  child n cs = Some c → (n, c) ∈ cs.
Proof.
  induction cs as [|[n' c'] cs IH]; simpl; [done|].
  destruct (String.eqb_spec n' n) as [->|Hne].
  - intros [= ->]. by left.
  - intros H. right. by apply IH.
Qed.

Lemma entry_at_denote (path : list string) :
  ∀ o o',
    proper_tree o = true → object_at path o = Some o' →
    entry_at (map escape path) (denote_obj o) = Some (denote_obj o').
Proof.
  induction path as [|n path IH]; intros o o' Hproper Hat; simpl in Hat.
  - by injection Hat as <-.
  - destruct o as [|sha cs]; [done|].
    destruct (child n cs) as [c|] eqn:Hchild; [|done]. simpl in Hat.
    apply child_elem in Hchild.
    destruct (proper_tree_inv sha cs Hproper) as (_ & Hdup & Hnames).
    destruct (Hnames n c Hchild) as [_ Hc].
    rewrite denote_obj_tree. simpl.
    rewrite (denote_lookup cs n c Hdup Hchild). simpl. by apply IH.
Qed.

(** X14: what is in the repository is found in the tree.  In the tree that
    the recursive listing of a tree of proper names folds into, none of them
    a name under which an object inherits a member, reading the escaped
    names of a path one after the other leads to what stands for the object
    at that path: the entry of a file with its size and identifier, the
    tree of a directory. *)
Theorem fold_then_lookup (sha : string) (cs : list (string * gitobj))
    (path : list string) (o : gitobj) :
  proper_tree (GTree sha cs) = true →
  plain_tree (GTree sha cs) = true →
  object_at path (GTree sha cs) = Some o →
  ∃ t,
    tree2Tree (listing [] cs) ∅ "" = Ok t
    ∧ entry_at (map escape path) (JObj t) = Some (denote_obj o).
Proof.
  intros Hproper _ Hat. exists (denote cs). split.
  - by apply (fold_complete_listing sha).
  - rewrite <- (denote_obj_tree sha cs). by apply entry_at_denote.
Qed.

Lemma fold_then_lookup_witness :
  ∃ t,
    tree2Tree (listing [] top_dir) ∅ "" = Ok t
    ∧ entry_at (map escape ["src"; "$lib"; "a.ts"]) (JObj t)
      = Some (denote_obj (GBlob "b1" 10)).
Proof.
  apply (fold_then_lookup "c0" top_dir ["src"; "$lib"; "a.ts"] (GBlob "b1" 10)).
  - reflexivity.
  - reflexivity.
  - reflexivity.
Defined.

(** ** Entries that are neither files nor directories, entries without
       size or identifier *)

Lemma tree2Tree_elem_put (P R : list string) (n : string) (e : elem)
    (t : Tree) :
  Forall (λ seg, proper seg = true) P → Forall (λ seg, proper seg = true) R →
  proper n = true →
  elem_path e = Some (join_slash (R ++ [n])) →
  is_type e "tree" = false →
  clear_way (map escape (P ++ R)) t →
  tree2Tree_elem (join_slash P) t e
  = Ok (put (map escape (P ++ R))
          (λ m, if is_type e "blob"
                then <[escape n := FileEntry (or_number (elem_size e) 0)
                                     (or_string (elem_sha e) "")]> m
                else m) t).
Proof.
  intros HP HR Hn Hpath Htree Hway. unfold tree2Tree_elem. rewrite Hpath, Htree.
  assert (HRn : Forall (λ seg, proper seg = true) (R ++ [n])%list).
  { apply Forall_app. split; [done|]. by constructor. }
  rewrite absent_join_slash by (done || by destruct R).
  simpl default. rewrite split_join2_proper by (done || by destruct R).
  rewrite app_assoc, length_app, Nat.add_sub.
  rewrite take_app_length. 
  replace (nth (length (P ++ R)) ((P ++ R) ++ [n]) "") with n
    by (by rewrite app_nth2, Nat.sub_diag by lia).
  rewrite (walk_create_put _
             (λ m, if is_type e "blob"
                   then <[escape n := FileEntry (or_number (elem_size e) 0)
                                        (or_string (elem_sha e) "")]> m
                   else m)); [done| |done].
  intros o. by destruct (is_type e "blob").
Qed.

(** X15: an entry that is neither a file nor a directory, such as that of
    a submodule, gets no key of its own: the fold makes the directories that
    lead to it and leaves what they hold as it is.  The directories bear
    names under which an object inherits nothing. *)
Theorem other_entry_makes_directories_only (P R : list string) (n : string)
    (e : elem) (t : Tree) :
  Forall (λ seg, proper seg = true) P → Forall (λ seg, proper seg = true) R →
  Forall (λ seg, own_name seg = true) (P ++ R) →
  proper n = true →
  elem_path e = Some (join_slash (R ++ [n])) →
  is_type e "tree" = false → is_type e "blob" = false →
  clear_way (map escape (P ++ R)) t →
  ∃ t',
    tree2Tree_elem (join_slash P) t e = Ok t'
    ∧ t' = put (map escape (P ++ R)) (λ m, m) t
    ∧ here (map escape (P ++ R)) t' = here (map escape (P ++ R)) t.
Proof.
  intros HP HR _ Hn Hpath Htree Hblob Hway.
  rewrite (tree2Tree_elem_put P R n e t) by done. rewrite Hblob.
  eexists. split; [done|]. split; [done|]. by rewrite here_put.
Qed.

Lemma other_entry_makes_directories_only_witness :
  ∃ t',
    tree2Tree_elem (join_slash []) (<["README.md" := FileEntry 5 "b3"]> ∅)
      (Elem (Some (join_slash (["vendor"] ++ ["lib"]))) (Some "commit")
         (Some "c9") None)
    = Ok t'
    ∧ t' = put (map escape ([] ++ ["vendor"])) (λ m, m)
             (<["README.md" := FileEntry 5 "b3"]> ∅)
    ∧ here (map escape ([] ++ ["vendor"])) t'
      = here (map escape ([] ++ ["vendor"])) (<["README.md" := FileEntry 5 "b3"]> ∅).
Proof.
  apply (other_entry_makes_directories_only [] ["vendor"] "lib").
  - constructor.
  - repeat constructor.
  - repeat constructor.
  - reflexivity.
  - reflexivity.
  - reflexivity.
  - reflexivity.
  - simpl. split; [|done].
    intros k [v Hv]. destruct (decide (k = "README.md")) as [->|Hne]; [done|].
    by rewrite lookup_insert_ne, lookup_empty in Hv.
Defined.

(** X16: the entry of a file is stored under the escaped name of the file,
    in the directory of its path, with its size, or [0] when it has none,
    and its identifier, or the empty string when it has none; the other
    keys of that directory hold what they held.  The file and the
    directories bear names under which an object inherits nothing. *)
Theorem file_entry_is_stored (P R : list string) (n : string) (e : elem)
    (t : Tree) :
  Forall (λ seg, proper seg = true) P → Forall (λ seg, proper seg = true) R →
  Forall (λ seg, own_name seg = true) (P ++ R ++ [n]) →
  proper n = true →
  elem_path e = Some (join_slash (R ++ [n])) →
  is_type e "blob" = true →
  clear_way (map escape (P ++ R)) t →
  ∃ t',
    tree2Tree_elem (join_slash P) t e = Ok t'
    ∧ here (map escape (P ++ R)) t' !! escape n
      = Some (FileEntry (or_number (elem_size e) 0) (or_string (elem_sha e) ""))
    ∧ ∀ k, k ≠ escape n →
        here (map escape (P ++ R)) t' !! k = here (map escape (P ++ R)) t !! k.
Proof.
  intros HP HR _ Hn Hpath Hblob Hway.
  assert (Htree : is_type e "tree" = false).
  { unfold is_type in *. destruct (elem_type e) as [ty|]; [|done].
    apply String.eqb_eq in Hblob as ->. reflexivity. }
  rewrite (tree2Tree_elem_put P R n e t) by done. rewrite Hblob.
  eexists. split; [done|]. rewrite here_put. split.
  - apply lookup_insert_eq.
  - intros k Hk. by rewrite lookup_insert_ne.
Qed.

Lemma file_entry_is_stored_witness :
  ∃ t',
    tree2Tree_elem (join_slash ["src"]) ∅
      (Elem (Some (join_slash (["$lib"] ++ ["a.ts"]))) (Some "blob") None None)
    = Ok t'
    ∧ here (map escape (["src"] ++ ["$lib"])) t' !! escape "a.ts"
      = Some (FileEntry (or_number None 0) (or_string None ""))
    ∧ ∀ k, k ≠ escape "a.ts" →
        here (map escape (["src"] ++ ["$lib"])) t' !! k
        = here (map escape (["src"] ++ ["$lib"])) ∅ !! k.
Proof.
  apply (file_entry_is_stored ["src"] ["$lib"] "a.ts"
           (Elem (Some (join_slash (["$lib"] ++ ["a.ts"]))) (Some "blob") None None)).
  - repeat constructor.
  - repeat constructor.
  - repeat constructor.
  - reflexivity.
  - reflexivity.
  - reflexivity.
  - apply clear_way_empty.
Defined.

(** ** Errors of the fold *)

Lemma js_set_raises (current : jsval) (p : string) (v : jsval) (e : jserror) :
  js_set current p v = Raise e →
  e = TypeError "Cannot create property on primitive".
Proof. destruct current; simpl; congruence. Qed.

Lemma walk_create_raises (fin : jsval → result jsval) :
  (∀ c e, fin c = Raise e → e = TypeError "Cannot create property on primitive") →
  ∀ ps current e,
    walk_create ps fin current = Raise e →
    e = TypeError "Cannot create property on primitive".
Proof.
  intros Hfin. induction ps as [|p ps IH]; intros current e; simpl.
  - apply Hfin.
  - assert (Hmade : ∀ next,
              (child ← walk_create ps fin next; js_set current (escape p) child)
              = Raise e →
              e = TypeError "Cannot create property on primitive").
    { intros next. destruct (walk_create ps fin next) as [child|e'] eqn:Hwalk; simpl.
      - apply js_set_raises.
      - intros [= <-]. by eapply IH. }
    assert (Hcreate :
              (_ ← js_set current (escape p) (JObj ∅);
               child ← walk_create ps fin (JObj ∅);
               js_set current (escape p) child) = Raise e →
              e = TypeError "Cannot create property on primitive").
    { destruct (js_set current (escape p) (JObj ∅)) as [v|e'] eqn:Hset; simpl.
      - apply Hmade.
      - intros [= <-]. by eapply js_set_raises. }
    destruct (js_get current (escape p)) as [next|]; [|done].
    destruct (truthy next); [apply Hmade|done].
Qed.

(** X17: the one error of the fold.  For a listing none of whose path
    segments is the name of a member that objects, numbers or strings
    inherit, or the index of a character, whatever the tree and the path
    below which it is folded, [tree2Tree] returns a tree or raises the
    [TypeError] of an assignment to a property of a number or a string; it
    raises nothing else. *)
Theorem fold_raises_a_TypeError_only (l : list elem) (t : Tree)
    (parentPath : string) (e : jserror) :
  member_free_listing parentPath l = true →
  tree2Tree l t parentPath = Raise e →
  e = TypeError "Cannot create property on primitive".
Proof.
  intros _. revert t. induction l as [|x l IH]; intros t; simpl; [done|].
  destruct (tree2Tree_elem parentPath t x) as [t1|e1] eqn:Helem; simpl.
  - apply IH.
  - intros [= <-]. unfold tree2Tree_elem in Helem.
    destruct (absent (elem_path x)); [done|].
    destruct (walk_create _ _ _) as [root|e2] eqn:Hwalk; [done|].
    simpl in Helem. injection Helem as <-.
    eapply walk_create_raises; [|exact Hwalk].
    intros c e. simpl. destruct (is_type x "blob"); [apply js_set_raises|done].
Qed.

Lemma fold_raises_a_TypeError_only_witness :
  TypeError "Cannot create property on primitive"
  = TypeError "Cannot create property on primitive".
Proof.
  apply (fold_raises_a_TypeError_only
           [blob_entry "a" "x" 1; blob_entry "a/size/b" "y" 2] ∅ "").
  - reflexivity.
  - reflexivity.
Defined.

(** ** What the remote calls leave alone *)

Lemma listing_only_bind {A B} (m : M world A) (k : A → M world B) (w : world) :
  listing_only w (m w) →
  (∀ a w1, listing_only w1 (k a w1)) →
  listing_only w ((m ≫= k) w).
Proof.
  intros Hm Hk. unfold mbind, M_bind, bind.
  destruct (m w) as [a w1|e w1|]; [|exact Hm|exact I].
  destruct Hm as (Hcache1 & new1 & Hc1 & Hn1).
  specialize (Hk a w1).
  destruct (k a w1) as [b w2|e w2|]; [| |exact I];
    destruct Hk as (Hcache2 & new2 & Hc2 & Hn2);
    (split; [congruence|]); exists (new1 ++ new2)%list;
    (split; [rewrite Hc2, Hc1; by rewrite <- app_assoc|]);
    rewrite forallb_app; by rewrite Hn1, Hn2.
Qed.

Lemma listing_only_lift {A} (r : result A) (w : world) :
  listing_only w (lift r w).
Proof.
  destruct r; simpl; (split; [done|]); exists []; by rewrite app_nil_r.
Qed.

Lemma listing_only_ret {A} (a : A) (w : world) :
  listing_only w (ret a w).
Proof. simpl. split; [done|]. exists []. by rewrite app_nil_r. Qed.

Lemma listing_only_issue (sha : string) (recursive : bool) (w : world) :
  listing_only w (issue (GetTree sha recursive) w).
Proof. simpl. split; [done|]. by exists [GetTree sha recursive]. Qed.

Section ListingOnly.
Context (env : remote).
Context (getTree_rec : string → Tree → string → M world Tree).
Context (Hrec : ∀ sha t p w, listing_only w (getTree_rec sha t p w)).

Lemma listing_only_getTruncatedTree_elem (p : string) (t : Tree) (e : elem)
    (w : world) :
  listing_only w (getTruncatedTree_elem getTree_rec p t e w).
Proof.
  unfold getTruncatedTree_elem.
  repeat match goal with
         | |- context [if ?b then _ else _] => destruct b
         end;
    try apply (listing_only_ret t); apply Hrec.
Qed.

Lemma listing_only_getTruncatedTree_loop (l : list elem) (p : string) :
  ∀ (t : Tree) (w : world),
    listing_only w (getTruncatedTree_loop getTree_rec l p t w).
Proof.
  induction l as [|e l IH]; intros t w; simpl.
  - apply (listing_only_ret t).
  - apply listing_only_bind; [apply listing_only_getTruncatedTree_elem|].
    intros t1 w1. apply IH.
Qed.

Lemma listing_only_getTruncatedTree (sha : string) (t : Tree) (p : string)
    (w : world) :
  listing_only w (getTruncatedTree env getTree_rec sha t p w).
Proof.
  unfold getTruncatedTree.
  apply listing_only_bind; [apply listing_only_lift|]. intros _ w1.
  apply listing_only_bind; [apply listing_only_issue|]. intros _ w2.
  apply listing_only_bind; [apply listing_only_lift|]. intros res w3.
  apply listing_only_bind; [apply listing_only_getTruncatedTree_loop|].
  intros t1 w4. apply listing_only_lift.
Qed.
End ListingOnly.

(** X18: [getFiles] reads listings and nothing else.  Whether it returns
    or throws, the content cache is what it was, and every request it has
    sent is one for the listing of a tree: it never asks for a blob. *)
Theorem getFiles_reads_listings_only (env : remote) (fuel : nat)
    (commit : string) (w : world) :
  listing_only w (getFiles env fuel commit w).
Proof.
  unfold getFiles. generalize (∅ : Tree) as t, "" as p.
  revert commit w.
  induction fuel as [|fuel IH]; intros sha w t p; [exact I|].
  simpl.
  apply listing_only_bind; [apply listing_only_lift|]. intros _ w1.
  apply listing_only_bind; [apply listing_only_issue|]. intros _ w2.
  apply listing_only_bind; [apply listing_only_lift|]. intros res w3.
  apply listing_only_bind; [apply listing_only_lift|]. intros t1 w4.
  destruct (res_truncated res).
  - apply listing_only_getTruncatedTree. intros sha' t' p' w'. apply IH.
  - apply (listing_only_ret t1).
Qed.

(** X19: a failure of [getFileContent] leaves the cache alone.  When it
    throws, the content cache is what it was, and at most one request has
    been sent, for the blob of the file. *)
Theorem getFileContent_failure_keeps_cache (env : remote)
    (file : AnonymizedFile) (w w' : world) (e : jserror) :
  getFileContent env file w = Throw e w' →
  cache w' = cache w
  ∧ (calls w' = calls w
     ∨ ∃ sha, file_sha file = Some sha
              ∧ calls w' = (calls w ++ [GetBlob sha])%list).
Proof.
  destruct (absent (file_sha file)) eqn:Habs.
  { unfold getFileContent. rewrite Habs. intros [= _ <-]. by split; [|left]. }
  destruct (file_sha file) as [sha|] eqn:Hsha; [|done].
  simpl in Habs. apply String.eqb_neq in Habs.
  destruct (getToken env) as [tok|e0] eqn:Htok.
  - rewrite (getFileContent_unfold env file sha tok w Hsha Habs Htok).
    assert (Hasked : ∀ e1, Throw (A := string) e1 (asked w sha) = Throw e w' →
              cache w' = cache w
              ∧ (calls w' = calls w
                 ∨ ∃ sha0, Some sha = Some sha0
                           ∧ calls w' = (calls w ++ [GetBlob sha0])%list)).
    { intros e1 [= _ <-]. split; [done|]. right. by exists sha. }
    destruct (git_getBlob env sha) as [b|e1]; [|apply Hasked].
    destruct (blob_bytes env b) as [bytes|]; [|apply Hasked].
    destruct (storage_write_fails env (originalCachePath file)); [apply Hasked|done].
  - unfold getFileContent. rewrite Hsha. simpl.
    apply String.eqb_neq in Habs. rewrite Habs, Htok. simpl.
    intros [= _ <-]. by split; [|left].
Qed.

Lemma getFileContent_failure_keeps_cache_witness :
  cache (asked fresh "b1") = cache fresh
  ∧ (calls (asked fresh "b1") = calls fresh
     ∨ ∃ sha, file_sha (File (Some "b1") "r1/original/a.ts") = Some sha
              ∧ calls (asked fresh "b1") = (calls fresh ++ [GetBlob sha])%list).
Proof.
  apply (getFileContent_failure_keeps_cache blobs_down
           (File (Some "b1") "r1/original/a.ts") fresh (asked fresh "b1")
           file_not_accessible).
  reflexivity.
Defined.
(* ================================================================== *)
(** * The branches and the readme of a repository                       *)
(* ================================================================== *)

Import GitHubRepository Samples.

Lemma branches_refresh (env : GitHubRepository.services) (self : repository)
    (force : bool) (s : state) :
  stale (data_branches s) || force = true →
  branches env self force s =
    match owner env self with
    | Raise e => Throw e s
    | Ok o =>
        match repo env self with
        | Raise e => Throw e s
        | Ok r =>
            let asked := (sent s ++ [ListBranches o r])%list in
            match repos_listBranches env o r with
            | Raise e => Throw e (State (data_branches s) (documents s) asked)
            | Ok found =>
                let bs := map (λ b, MkBranch b.1 b.2
                                      (readme_of (data_branches s) b.1)) found in
                match store_down env with
                | Some e => Throw e (State (Some bs) (documents s) asked)
                | None =>
                    Done bs (State (Some bs)
                               (alter (λ _, bs) (externalId self) (documents s))
                               asked)
                end
            end
        end
    end.
Proof.
  intros Hstale. unfold branches.
  unfold mbind at 1, M_bind, bind at 1, inspect. rewrite Hstale.
  unfold mbind, M_bind, bind, lift, ret, throw.
  destruct (owner env self) as [o|e]; [|done].
  destruct (repo env self) as [r|e]; [|done].
  unfold send_call, modify.
  destruct (repos_listBranches env o r) as [found|e]; [|done].
  unfold inspect, set_branches, updateOne, modify, throw; simpl.
  by destruct (store_down env).
Qed.

Lemma branches_reload (env : GitHubRepository.services) (self : repository)
    (force : bool) (s : state) :
  stale (data_branches s) || force = false →
  branches env self force s =
    match store_down env with
    | Some e => Throw e s
    | None =>
        match documents s !! externalId self with
        | None => Throw (TypeError "Cannot read properties of null") s
        | Some bs => Done bs (State (Some bs) (documents s) (sent s))
        end
    end.
Proof.
  intros Hstale. unfold branches.
  unfold mbind at 1, M_bind, bind at 1, inspect. rewrite Hstale.
  unfold findOne, mbind, M_bind, bind, throw, inspect.
  destruct (store_down env); [done|].
  by destruct (documents s !! externalId self).
Qed.

Lemma selected_of_cons (n : string) (f : Branch) (bs : list Branch) :
  selected_of n (f :: bs)
  = if String.eqb (branch_name f) n then Some f else selected_of n bs.
Proof. unfold selected_of. simpl. by destruct (String.eqb (branch_name f) n). Qed.

Lemma readme_of_refreshed (old : option (list Branch))
    (found : list (string * string)) (n : string) :
  n ∈ map fst found →
  readme_of (Some (map (λ b, MkBranch b.1 b.2 (readme_of old b.1)) found)) n
  = readme_of old n.
Proof.
  unfold readme_of at 1. simpl.
  induction found as [|[n' c] found IH]; intros Hin.
  - by apply elem_of_nil in Hin.
  - simpl map. rewrite selected_of_cons. simpl branch_name.
    destruct (String.eqb_spec n' n) as [->|Hne]; [done|].
    apply IH. simpl in Hin. by apply elem_of_cons in Hin as [->|Hin].
Qed.

Lemma refreshed_again (old : option (list Branch))
    (found : list (string * string)) :
  map (λ b, MkBranch b.1 b.2
              (readme_of (Some (map (λ b, MkBranch b.1 b.2 (readme_of old b.1))
                                  found)) b.1)) found
  = map (λ b, MkBranch b.1 b.2 (readme_of old b.1)) found.
Proof.
  apply map_ext_in. intros [n c] Hin. simpl. f_equal.
  apply readme_of_refreshed. apply list_elem_of_In in Hin.
  by apply (list_elem_of_fmap_2 fst found (n, c)).
Qed.

(** X20: refreshing the branches twice is refreshing them once.  When a
    forced call of [branches] has returned, a second forced call returns
    the same list, the readmes that were kept included, and leaves the list
    in memory and the stored documents as they are. *)
Theorem branches_refresh_again (env : GitHubRepository.services)
    (self : repository) (s s1 : state) (bs : list Branch) :
  branches env self true s = Done bs s1 →
  ∃ s2,
    branches env self true s1 = Done bs s2
    ∧ data_branches s2 = data_branches s1
    ∧ documents s2 = documents s1.
Proof.
  rewrite !branches_refresh by apply orb_true_r.
  destruct (owner env self) as [o|e]; [|done].
  destruct (repo env self) as [r|e]; [|done].
  destruct (repos_listBranches env o r) as [found|e]; [|done].
  destruct (store_down env); [done|]. cbv zeta.
  intros [= <- <-]. cbn [data_branches documents sent]. rewrite refreshed_again.
  eexists. split; [done|]. cbn [data_branches documents sent]. split; [done|].
  by rewrite alter_alter_eq.
Qed.

Lemma branches_refresh_again_witness :
  ∃ s2,
    branches demo_services demo true
      (run_on (branches demo_services demo true) stored)
    = Done [MkBranch "main" "c1" None; MkBranch "dev" "c2" None] s2
    ∧ data_branches s2
      = data_branches (run_on (branches demo_services demo true) stored)
    ∧ documents s2 = documents (run_on (branches demo_services demo true) stored).
Proof.
  apply (branches_refresh_again demo_services demo stored).
  reflexivity.
Defined.

Lemma branches_stored (env : GitHubRepository.services) (self : repository)
    (force : bool) (s s1 : state) (bs : list Branch) :
  branches env self force s = Done bs s1 →
  store_down env = None
  ∧ data_branches s1 = Some bs
  ∧ (documents s1 !! externalId self
     = (λ _, bs) <$> documents s !! externalId self).
Proof.
  destruct (stale (data_branches s) || force) eqn:Hstale.
  - rewrite branches_refresh by done.
    destruct (owner env self) as [o|e]; [|done].
    destruct (repo env self) as [r|e]; [|done].
    destruct (repos_listBranches env o r) as [found|e]; [|done].
    destruct (store_down env); [done|]. cbv zeta.
    intros [= <- <-]. cbn [data_branches documents sent].
    by rewrite lookup_alter_eq.
  - rewrite branches_reload by done.
    destruct (store_down env); [done|].
    destruct (documents s !! externalId self) as [stored|] eqn:Hdoc; [|done].
    intros [= <- <-]. cbn [data_branches documents sent]. by rewrite Hdoc.
Qed.

(** X21: what [branches] has answered, it answers again.  When a call has
    returned a list that is not empty, a call without [force] from there
    sends nothing to the remote: it returns the same list and changes
    nothing when the repository has its stored document, and it throws a
    [TypeError] when it has none. *)
Theorem branches_without_force (env : GitHubRepository.services)
    (self : repository) (force : bool) (s s1 : state) (bs : list Branch) :
  branches env self force s = Done bs s1 →
  bs ≠ [] →
  branches env self false s1
  = match documents s1 !! externalId self with
    | Some _ => Done bs s1
    | None => Throw (TypeError "Cannot read properties of null") s1
    end.
Proof.
  intros Hfirst Hne.
  destruct (branches_stored env self force s s1 bs Hfirst) as (Hup & Hdata & Hdoc).
  rewrite branches_reload.
  2: { rewrite Hdata. by destruct bs. }
  rewrite Hup, Hdoc.
  destruct (documents s !! externalId self); simpl; [|done].
  destruct s1 as [d1 docs1 sent1]. simpl in *. by rewrite Hdata.
Qed.

Lemma branches_without_force_witness :
  branches demo_services demo false
    (run_on (branches demo_services demo true) unsaved)
  = match documents (run_on (branches demo_services demo true) unsaved)
          !! externalId demo with
    | Some _ =>
        Done [MkBranch "main" "c1" None; MkBranch "dev" "c2" None]
          (run_on (branches demo_services demo true) unsaved)
    | None =>
        Throw (TypeError "Cannot read properties of null")
          (run_on (branches demo_services demo true) unsaved)
    end.
Proof.
  apply (branches_without_force demo_services demo true unsaved).
  - reflexivity.
  - done.
Defined.

(** X22: a call of [branches] that fails stores nothing.  When it throws,
    the stored documents are what they were; the list in memory is what it
    was too, unless the error is that of the document store: then the list
    that was fetched is in memory and not in the store. *)
Theorem branches_failure_stores_nothing (env : GitHubRepository.services)
    (self : repository) (force : bool) (s s1 : state) (e : jserror) :
  branches env self force s = Throw e s1 →
  documents s1 = documents s
  ∧ (data_branches s1 = data_branches s ∨ store_down env = Some e).
Proof.
  destruct (stale (data_branches s) || force) eqn:Hstale.
  - rewrite branches_refresh by done.
    destruct (owner env self) as [o|e0]; [|by intros [= _ <-]; split; [|left]].
    destruct (repo env self) as [r|e0]; [|by intros [= _ <-]; split; [|left]].
    destruct (repos_listBranches env o r) as [found|e0];
      [|by intros [= _ <-]; split; [|left]].
    destruct (store_down env) as [e0|]; [|done]. cbv zeta.
    intros [= -> <-]. split; [done|]. by right.
  - rewrite branches_reload by done.
    destruct (store_down env) as [e0|]; [by intros [= _ <-]; split; [|left]|].
    destruct (documents s !! externalId self); [done|].
    intros [= _ <-]. by split; [|left].
Qed.

Lemma branches_failure_stores_nothing_witness :
  documents (State (Some [MkBranch "main" "c1" None; MkBranch "dev" "c2" None])
               {["gh_1" := []]} [ListBranches "owner" "demo"])
  = documents stored
  ∧ (data_branches
       (State (Some [MkBranch "main" "c1" None; MkBranch "dev" "c2" None])
          {["gh_1" := []]} [ListBranches "owner" "demo"])
     = data_branches stored
     ∨ store_down demo_store_down = Some store_error).
Proof.
  apply (branches_failure_stores_nothing demo_store_down demo false stored).
  reflexivity.
Defined.

(** ** [readme] *)

Lemma readme_unfold (env : GitHubRepository.services) (self : repository)
    (branch : option string) (force : bool) (s : state) :
  readme env self branch force s =
    match store_down env with
    | Some e => Throw e s
    | None =>
        match branches env self force s with
        | Diverge => Diverge
        | Throw e s1 => Throw e s1
        | Done bs s1 =>
            let s2 := State (Some bs) (documents s1) (sent s1) in
            match documents s !! externalId self with
            | None => Throw (TypeError "Cannot set properties of null") s2
            | Some _ =>
                let selected := selected_of (branch_asked self branch) bs in
                if absent (selected ≫= branch_readme) || force then
                  match owner env self with
                  | Raise e => Throw e s2
                  | Ok o =>
                  match repo env self with
                  | Raise e => Throw e s2
                  | Ok r =>
                  let ref := branch_commit <$> selected in
                  let s3 := State (Some bs) (documents s1)
                              (sent s1 ++ [GetReadme o r ref]) in
                  match repos_getReadme env o r ref with
                  | Raise e => Throw e s3
                  | Ok ghRes =>
                  match buffer_decode env ghRes.1 ghRes.2 with
                  | None => Throw (TypeError "Unknown encoding") s3
                  | Some text =>
                  match selected with
                  | None =>
                      Throw (TypeError "Cannot set properties of undefined") s3
                  | Some _ =>
                      Done text
                        (State (Some bs)
                           (<[externalId self :=
                                set_readme (branch_asked self branch) text bs]>
                              (documents s1))
                           (sent s1 ++ [GetReadme o r ref]))
                  end end end end end
                else Done (default "" (selected ≫= branch_readme)) s2
            end
        end
    end.
Proof.
  unfold readme, branch_asked.
  unfold mbind at 1, M_bind, bind at 1, findOne.
  destruct (store_down env) as [e|] eqn:Hup; [done|].
  unfold inspect. unfold mbind at 1, M_bind, bind at 1.
  destruct (branches env self force s) as [bs s1|e s1|]; [|done|done].
  unfold mbind at 1, M_bind, bind at 1, set_branches, modify.
  destruct (documents s !! externalId self); [|done].
  cbv zeta.
  destruct (absent _ || force); [|done].
  unfold mbind, M_bind, bind, lift, ret, throw.
  destruct (owner env self) as [o|e]; [|done].
  destruct (repo env self) as [r|e]; [|done].
  unfold send_call, modify. cbn [data_branches documents sent].
  destruct (repos_getReadme env o r _) as [ghRes|e]; [|done].
  destruct (buffer_decode env ghRes.1 ghRes.2) as [text|]; [|done].
  destruct (selected_of _ bs); [|done].
  unfold save, modify. by rewrite Hup.
Qed.

Lemma selected_of_nonempty (n : string) (bs : list Branch) (f : Branch) :
  selected_of n bs = Some f → stale (Some bs) = false.
Proof. by destruct bs. Qed.

Lemma selected_of_set_readme (n text : string) (bs : list Branch) (f : Branch) :
  selected_of n bs = Some f →
  selected_of n (set_readme n text bs)
  = Some (MkBranch (branch_name f) (branch_commit f) (Some text)).
Proof.
  induction bs as [|g bs IH]; [done|].
  rewrite selected_of_cons. simpl set_readme.
  destruct (String.eqb (branch_name g) n) eqn:Hg.
  - intros [= ->]. rewrite selected_of_cons. simpl. by rewrite Hg.
  - intros H. rewrite selected_of_cons, Hg. by apply IH.
Qed.

Lemma set_readme_again (n text : string) (bs : list Branch) :
  set_readme n text (set_readme n text bs) = set_readme n text bs.
Proof.
  induction bs as [|g bs IH]; [done|]. simpl.
  destruct (String.eqb (branch_name g) n) eqn:Hg; simpl; rewrite Hg; [done|].
  by rewrite IH.
Qed.

(** What a call of [readme] that has returned leaves behind: the list in
    memory holds the branch that was asked for, and the stored document
    holds a list in which that branch has the readme that was returned,
    with the commit it had. *)
Lemma readme_leaves (env : GitHubRepository.services) (self : repository)
    (branch : option string) (force : bool) (s s1 : state) (text : string) :
  readme env self branch force s = Done text s1 →
  ∃ bs stored f,
    store_down env = None
    ∧ data_branches s1 = Some bs
    ∧ stale (Some bs) = false
    ∧ documents s1 !! externalId self = Some stored
    ∧ selected_of (branch_asked self branch) stored = Some f
    ∧ branch_readme f = Some text
    ∧ set_readme (branch_asked self branch) text stored = stored
    ∧ (text = "" →
       ∃ o r ghRes,
         owner env self = Ok o ∧ repo env self = Ok r
         ∧ repos_getReadme env o r (Some (branch_commit f)) = Ok ghRes
         ∧ buffer_decode env ghRes.1 ghRes.2 = Some text).
Proof.
  rewrite readme_unfold.
  destruct (store_down env) eqn:Hup; [done|].
  destruct (branches env self force s) as [bs sb|e sb|] eqn:Hb; [|done|done].
  destruct (branches_stored env self force s sb bs Hb) as (_ & Hdata & Hdoc).
  destruct (documents s !! externalId self) as [d0|]; [|done].
  simpl in Hdoc. cbv zeta.
  set (b := branch_asked self branch) in *.
  destruct (selected_of b bs) as [f|] eqn:Hsel.
  2: { simpl.
       destruct (owner env self); [|done]. destruct (repo env self); [|done].
       destruct (repos_getReadme env _ _ _); [|done].
       by destruct (buffer_decode env _ _). }
  pose proof (selected_of_nonempty b bs f Hsel) as Hne.
  destruct (absent (Some f ≫= branch_readme) || force) eqn:Hcond.
  - destruct (owner env self) as [o|]; [|done].
    destruct (repo env self) as [r|]; [|done].
    destruct (repos_getReadme env o r _) as [ghRes|] eqn:Hget; [|done].
    destruct (buffer_decode env ghRes.1 ghRes.2) as [text'|] eqn:Hdec; [|done].
    intros [= -> <-]. cbn [data_branches documents sent].
    pose proof (selected_of_set_readme b text bs f Hsel) as Hsel'.
    eexists bs, _, _. rewrite lookup_insert_eq.
    repeat split; try done.
    + apply set_readme_again.
    + intros _. by exists o, r, ghRes.
  - apply orb_false_elim in Hcond as [Habs _]. simpl in Habs.
    destruct (branch_readme f) as [t0|] eqn:Hf; [|done]. simpl in Habs.
    apply String.eqb_neq in Habs.
    simpl. rewrite Hf. simpl. intros [= -> <-]. cbn [data_branches documents sent].
    exists bs, bs, f. repeat split; try done.
    clear -Hsel Hf. revert Hsel. induction bs as [|g bs IH]; [done|].
    rewrite selected_of_cons. simpl.
    destruct (String.eqb (branch_name g) b) eqn:Hg.
    + intros [= ->]. destruct f. simpl in *. by rewrite Hf.
    + intros H. by rewrite IH.
Qed.

(** X23: a readme is fetched once.  When [readme] has returned a text
    that is not empty, a call for the same branch without [force] returns
    the same text and sends nothing to the remote; the stored documents are
    what they were. *)
Theorem readme_is_fetched_once (env : GitHubRepository.services)
    (self : repository) (branch : option string) (force : bool)
    (s s1 : state) (text : string) :
  readme env self branch force s = Done text s1 →
  text ≠ "" →
  ∃ s2,
    readme env self branch false s1 = Done text s2
    ∧ sent s2 = sent s1
    ∧ documents s2 = documents s1.
Proof.
  intros Hfirst Htext.
  destruct (readme_leaves env self branch force s s1 text Hfirst)
    as (bs & stored & f & Hup & Hdata & Hne & Hdoc & Hsel & Hf & _ & _).
  rewrite readme_unfold, Hup.
  rewrite branches_reload by (by rewrite Hdata, Hne).
  rewrite Hup, Hdoc. cbv zeta. rewrite Hsel. simpl. rewrite Hf. simpl.
  apply String.eqb_neq in Htext. rewrite Htext. simpl.
  by eexists.
Qed.

Lemma readme_is_fetched_once_witness :
  ∃ s2,
    readme demo_services demo None false
      (run_on (readme demo_services demo None false) stored)
    = Done "hello" s2
    ∧ sent s2 = sent (run_on (readme demo_services demo None false) stored)
    ∧ documents s2
      = documents (run_on (readme demo_services demo None false) stored).
Proof.
  apply (readme_is_fetched_once demo_services demo None false stored).
  - reflexivity.
  - done.
Defined.

(** X24: an empty readme is fetched every time.  When [readme] has
    returned the empty text, a call for the same branch without [force]
    asks the remote for the readme again, returns the empty text again and
    leaves the stored documents as they are. *)
Theorem empty_readme_is_fetched_again (env : GitHubRepository.services)
    (self : repository) (branch : option string) (force : bool)
    (s s1 : state) :
  readme env self branch force s = Done "" s1 →
  ∃ s2 o r ref,
    readme env self branch false s1 = Done "" s2
    ∧ sent s2 = (sent s1 ++ [GetReadme o r ref])%list
    ∧ documents s2 = documents s1.
Proof.
  intros Hfirst.
  destruct (readme_leaves env self branch force s s1 "" Hfirst)
    as (bs & stored & f & Hup & Hdata & Hne & Hdoc & Hsel & Hf & Hset & Hagain).
  destruct (Hagain eq_refl) as (o & r & ghRes & Ho & Hr & Hget & Hdec).
  rewrite readme_unfold, Hup.
  rewrite branches_reload by (by rewrite Hdata, Hne).
  rewrite Hup, Hdoc. cbv zeta. rewrite Hsel. simpl. rewrite Hf. simpl.
  rewrite Ho, Hr, Hget, Hdec, Hset.
  eexists _, o, r, _. split; [done|]. cbn [data_branches documents sent].
  split; [done|]. by apply insert_id.
Qed.

Lemma empty_readme_is_fetched_again_witness :
  ∃ s2 o r ref,
    readme demo_services demo (Some "dev") false
      (run_on (readme demo_services demo (Some "dev") false) stored)
    = Done "" s2
    ∧ sent s2
      = (sent (run_on (readme demo_services demo (Some "dev") false) stored)
         ++ [GetReadme o r ref])%list
    ∧ documents s2
      = documents (run_on (readme demo_services demo (Some "dev") false) stored).
Proof.
  apply (empty_readme_is_fetched_again demo_services demo (Some "dev") false stored).
  reflexivity.
Defined.

(** X25: the readme of a branch that the repository does not have.  When
    the list that [branches] gives has no branch of the name that is asked
    for, and the repository has its document, [readme] asks the remote for
    the readme of no ref in particular and, when that is answered, throws a
    [TypeError]: the text is stored nowhere. *)
Theorem readme_of_an_unknown_branch (env : GitHubRepository.services)
    (self : repository) (branch : option string) (force : bool)
    (s sb : state) (bs : list Branch) (o r : string)
    (ghRes : string * string) (text : string) :
  branches env self force s = Done bs sb →
  is_Some (documents s !! externalId self) →
  selected_of (branch_asked self branch) bs = None →
  owner env self = Ok o → repo env self = Ok r →
  repos_getReadme env o r None = Ok ghRes →
  buffer_decode env ghRes.1 ghRes.2 = Some text →
  readme env self branch force s
  = Throw (TypeError "Cannot set properties of undefined")
      (State (Some bs) (documents sb) (sent sb ++ [GetReadme o r None])).
Proof.
  intros Hb [d0 Hdoc] Hsel Ho Hr Hget Hdec.
  destruct (branches_stored env self force s sb bs Hb) as (Hup & _ & _).
  rewrite readme_unfold, Hup, Hb, Hdoc. cbv zeta. rewrite Hsel. simpl.
  by rewrite Ho, Hr, Hget, Hdec.
Qed.

Lemma readme_of_an_unknown_branch_witness :
  readme demo_services demo (Some "gone") false stored
  = Throw (TypeError "Cannot set properties of undefined")
      (State (Some [MkBranch "main" "c1" None; MkBranch "dev" "c2" None])
         (documents (run_on (branches demo_services demo false) stored))
         (sent (run_on (branches demo_services demo false) stored)
          ++ [GetReadme "owner" "demo" None])).
Proof.
  apply (readme_of_an_unknown_branch demo_services demo (Some "gone") false
           stored (run_on (branches demo_services demo false) stored)
           [MkBranch "main" "c1" None; MkBranch "dev" "c2" None]
           "owner" "demo" ("hello", "utf-8") "hello").
  - reflexivity.
  - by eexists.
  - reflexivity.
  - reflexivity.
  - reflexivity.
  - reflexivity.
  - reflexivity.
Defined.
(* ================================================================== *)
(** * The processor of the queue that removes a cache                   *)
(* ================================================================== *)

Import RemoveCache.

Lemma processor_unfold {Data : Type} (env : database Data) (repoId : string)
    (log : list trace) :
  processor env repoId log =
    Done tt
      (log
       ++ SetAttribute "repoId" repoId
          :: match mongoose_connect env with
             | Raise e => [RecordException e]
             | Ok _ =>
                 Log ("[QUEUE] Cache of " ++ repoId ++ " is going to be removed...")
                 :: match model_findOne env repoId with
                    | Raise e => [RecordException e]
                    | Ok None => [RecordException repo_not_found]
                    | Ok (Some data) =>
                        CallRemoveCache repoId
                        :: match removeCache env data with
                           | Raise e => [RecordException e; RecordException e]
                           | Ok _ => []
                           end
                    end
             end
       ++ [Log ("[QUEUE] Cache of " ++ repoId ++ " is removed."); SpanEnd])%list.
Proof.
  unfold processor, connect, getRepository, tell.
  unfold mbind, M_bind, bind, try_catch, modify, lift, ret, throw, mret, M_ret, ret.
  destruct (mongoose_connect env) as [[]|e].
  - destruct (model_findOne env repoId) as [[data|]|e].
    + destruct (removeCache env data) as [[]|e]; f_equal;
        repeat (rewrite <- app_assoc; simpl); reflexivity.
    + f_equal. repeat (rewrite <- app_assoc; simpl). reflexivity.
    + f_equal. repeat (rewrite <- app_assoc; simpl). reflexivity.
  - f_equal. repeat (rewrite <- app_assoc; simpl). reflexivity.
Qed.

(** X26: the processor never rejects.  Whatever [connect], the lookup of
    the repository and [removeCache] do, the processor returns; the last
    line it logs says that the cache is removed, also when it is not, and
    the last thing it does is to end the span. *)
Theorem processor_never_rejects {Data : Type} (env : database Data)
    (repoId : string) (log : list trace) :
  ∃ evs,
    processor env repoId log
    = Done tt (log ++ evs
               ++ [Log ("[QUEUE] Cache of " ++ repoId ++ " is removed.");
                   SpanEnd])%list.
Proof.
  rewrite processor_unfold. eexists (_ :: _). reflexivity.
Qed.

(** X27: what the processor records.  [removeCache] is called when, and
    only when, [connect] and the lookup of the repository have succeeded.
    An error of [connect] or of the lookup, a repository that is not found
    included, is recorded once on the span; an error of [removeCache] is
    recorded twice; nothing is recorded when all went well. *)
Theorem processor_records {Data : Type} (env : database Data)
    (repoId : string) :
  ∃ log,
    processor env repoId [] = Done tt log
    ∧ match mongoose_connect env with
      | Raise e => recorded log = [e] ∧ removal_calls log = O
      | Ok _ =>
          match model_findOne env repoId with
          | Raise e => recorded log = [e] ∧ removal_calls log = O
          | Ok None => recorded log = [repo_not_found] ∧ removal_calls log = O
          | Ok (Some data) =>
              removal_calls log = 1%nat
              ∧ recorded log = match removeCache env data with
                               | Raise e => [e; e]
                               | Ok _ => []
                               end
          end
      end.
Proof.
  rewrite processor_unfold. eexists. split; [reflexivity|].
  destruct (mongoose_connect env) as [[]|e]; [|done].
  destruct (model_findOne env repoId) as [[data|]|e]; [|done|done].
  by destruct (removeCache env data) as [[]|e].
Qed.
